(** * Poseidon R1CS gadget (ethsnarks, [src/gadgets/poseidon.hpp])

    A shallow embedding of the Poseidon permutation gadget and of the
    instance stamper built around it, together with the properties of the
    constant generator, the round gadget, the master permutation gadget and
    the instance stamper.

    Conventions of the embedding:
    - a field element is the canonical residue ([Z]) modulo the scalar-field
      order of BN128; every field operation reduces its result;
    - a variable is its index ([nat]); index [0] is the constant [ONE];
    - a linear combination is the ordered list of its terms;
    - a protoboard is the witness table (a list, slot [i-1] holding variable
      [i]) and the list of constraints;
    - gadget constructors and methods thread the protoboard explicitly;
      constructors return an [outcome], since they can trip an [assert] or
      touch the back of an empty vector;
    - the [unsigned] arithmetic of the constant generator is modelled on [N]
      with its wrap-around written out ([n_constants - 1], [t*2], [t+j],
      [param_F + param_P]); the template parameters and loop counters of the
      gadgets are naturals, and the two subtractions there that could go
      below zero are treated where they occur ([total_rounds - 1] in the
      master, [num_variables() - in_inputs.size()] in the stamper). *)

From Stdlib Require Import ZArith NArith Lia List Zpow_facts.
From Stdlib.Strings Require Import String Byte.
From stdpp Require Import base list.
Import ListNotations.

(** ** The scalar field [FieldT] *)

Module Fr.

Local Open Scope Z_scope.

(** Order of the scalar field of alt_bn128 / mcl_bn128 ([libff::Fr<ppT>]). *)
Definition modulus : Z :=
  21888242871839275222246405745257275088548364400416034343698204186575808495617.

Definition FieldT : Type := Z.

(** [FieldT::size_in_bits()]: the bit length of the modulus. *)
Definition size_in_bits : N := Z.to_N (Z.log2 modulus + 1).

Definition of_Z (z : Z) : FieldT := z mod modulus.
Definition zero : FieldT := 0.
Definition one : FieldT := 1.
Definition add (x y : FieldT) : FieldT := (x + y) mod modulus.
Definition sub (x y : FieldT) : FieldT := (x - y) mod modulus.
Definition mul (x y : FieldT) : FieldT := (x * y) mod modulus.

(** [inverse()]: the source leaves the inverse of zero undefined; the
    embedding computes [x^(r-2)], which is [0] at [0]. *)
Definition inverse (x : FieldT) : FieldT := Zpow_mod x (modulus - 2) modulus.

End Fr.

Abbreviation FieldT := Fr.FieldT.

(** A canonical residue is its own reduction. *)
Definition canonical (x : FieldT) : Prop := (x mod Fr.modulus)%Z = x.

(** A finite sum in the field. *)
Definition field_sum (l : list FieldT) : FieldT := fold_right Fr.add Fr.zero l.

(** ** Machine integers *)

(** [unsigned] subtraction, with its wrap-around. *)
Definition u32_modulus : N := 4294967296%N.
Definition u32_sub (a b : N) : N :=
  (((a + u32_modulus) - b mod u32_modulus) mod u32_modulus)%N.
Definition u32_add (a b : N) : N := ((a + b) mod u32_modulus)%N.
Definition u32_mul (a b : N) : N := ((a * b) mod u32_modulus)%N.

(** ** Results of constructors *)

(** A constructor returns its object, or stops on a failed [assert] (the
    diagnostic is the asserted expression), or has no defined behaviour
    (element access on an empty or too short vector, an allocation whose
    size wrapped around). *)
Inductive outcome (A : Type) : Type :=
| Ok (a : A)
| AssertFail (diagnostic : string)
| Undefined.
Arguments Ok {A} a.
Arguments AssertFail {A} diagnostic.
Arguments Undefined {A}.

#[global] Instance outcome_ret : MRet outcome := fun A a => Ok a.
#[global] Instance outcome_bind : MBind outcome := fun A B k r =>
  match r with
  | Ok a => k a
  | AssertFail d => AssertFail d
  | Undefined => Undefined
  end.

(** [assert(cond)] with the text of the asserted expression. *)
Definition cxx_assert (cond : bool) (text : string) : outcome unit :=
  if cond then Ok tt else AssertFail text.

(** [v.back()] and [v[i]] on a [std::vector]. *)
Definition vec_back {A : Type} (v : list A) : outcome A :=
  match last v with Some x => Ok x | None => Undefined end.
Definition vec_at {A : Type} (v : list A) (i : nat) : outcome A :=
  match v !! i with Some x => Ok x | None => Undefined end.

(** ** Linear combinations and the protoboard *)

Abbreviation VariableT := nat.
Abbreviation VariableArrayT := (list nat).

(** [libsnark::ONE], the variable of the constant term. *)
Definition ONE : VariableT := 0.

Record linear_term : Type := mk_term { index : nat; coeff : FieldT }.

Abbreviation linear_combination := (list linear_term).

(** The linear-combination algebra belongs to the host library and is not
    among the sources; the specification describes it as "an ordered list of
    linear terms; semantically a sum; supports +, scalar multiplication, and
    a constant term with variable 0". *)

(** Modelled from the spec: the conversion of a variable to a linear
    combination, the single term [1 * v]. *)
Definition lc_of_var (v : VariableT) : linear_combination :=
  [mk_term v Fr.one].

(** Modelled from the spec: the conversion of a field element to a linear
    combination, the single constant term [k * ONE]. *)
Definition lc_of_field (k : FieldT) : linear_combination :=
  [mk_term ONE k].

(** Modelled from the spec: [add_term], which appends one term. *)
Definition add_term (lc : linear_combination) (v : VariableT) (k : FieldT)
  : linear_combination :=
  lc ++ [mk_term v k].

(** Modelled from the spec: scalar multiplication [lc * k], term by term. *)
Definition lc_scale (lc : linear_combination) (k : FieldT) : linear_combination :=
  map (fun lt => mk_term (index lt) (Fr.mul k (coeff lt))) lc.

(** Modelled from the spec: [operator+] of linear combinations.  It walks
    both term lists in step, emits the term with the smaller index first
    and adds the coefficients of two terms that meet on the same index, so
    that the result is the sum of the operands whatever their order. *)
Fixpoint lc_add (l1 : linear_combination) : linear_combination -> linear_combination :=
  fix merge (l2 : linear_combination) : linear_combination :=
    match l1, l2 with
    | [], _ => l2
    | _, [] => l1
    | t1 :: r1, t2 :: r2 =>
        if (index t1 <? index t2)%nat then t1 :: lc_add r1 l2
        else if (index t2 <? index t1)%nat then t2 :: merge r2
        else mk_term (index t1) (Fr.add (coeff t1) (coeff t2)) :: lc_add r1 r2
    end.

Record r1cs_constraint : Type :=
  ConstraintT { a : linear_combination; b : linear_combination; c : linear_combination }.

(** What an instance needs to translate master indices: its input variables
    and the start of its auxiliary block ([libsnark::ITranslator]). *)
Record translator : Type :=
  mk_translator { tr_inputs : VariableArrayT; tr_offset : nat }.

(** An entry of [constraint_system.constraints]: a constraint of the
    protoboard's own, or a light instance, which points to constraint number
    [master_index] of the master protoboard and to the translator of the
    instance that stamped it. *)
Inductive constraint_entry : Type :=
| Own (k : r1cs_constraint)
| LightInstance (master_index : nat) (tr : translator).

(** Modelled from the spec: the protoboard of the host library, through the
    interface the gadget consumes ([allocate_variable], [add_constraint],
    [val] / [set_val], [num_variables], [constraints]).  Variable [0] is the
    constant [1]; variable [i > 0] lives in slot [i-1] of the witness table,
    so [num_variables] is the length of the table. *)
Record ProtoboardT : Type :=
  mk_pb { values : list FieldT; constraints : list constraint_entry }.

(** A protoboard as its default constructor leaves it. *)
Definition empty_pb : ProtoboardT := mk_pb [] [].

(** Modelled from the spec: [num_variables()]. *)
Definition num_variables (pb : ProtoboardT) : nat := length (values pb).

(** Modelled from the spec: [val(V)], the witness read; variable [0] reads
    as the constant [1]. *)
Definition val (pb : ProtoboardT) (v : VariableT) : FieldT :=
  match v with
  | O => Fr.one
  | S i => default Fr.zero (values pb !! i)
  end.

(** Modelled from the spec: [val(V) = x], the witness write.  A write to
    variable [0] or outside the table, which the gadgets never perform,
    leaves the table as it is. *)
Definition set_val (pb : ProtoboardT) (v : VariableT) (x : FieldT) : ProtoboardT :=
  match v with
  | O => pb
  | S i => mk_pb (<[i := x]> (values pb)) (constraints pb)
  end.

(** Modelled from the spec: [add_r1cs_constraint], which appends one
    constraint. *)
Definition add_r1cs_constraint (pb : ProtoboardT) (k : r1cs_constraint) : ProtoboardT :=
  mk_pb (values pb) (constraints pb ++ [Own k]).

(** Modelled from the spec: [make_variable], "appends a fresh variable
    slot"; the slot starts at zero. *)
Definition make_variable (pb : ProtoboardT) : VariableT * ProtoboardT :=
  (S (num_variables pb), mk_pb (values pb ++ [Fr.zero]) (constraints pb)).

(** Modelled from the spec: [make_var_array], [n] fresh consecutive
    variables. *)
Fixpoint make_var_array (pb : ProtoboardT) (n : nat) : VariableArrayT * ProtoboardT :=
  match n with
  | O => ([], pb)
  | S n' =>
      let '(v, pb1) := make_variable pb in
      let '(vs, pb2) := make_var_array pb1 n' in
      (v :: vs, pb2)
  end.

(** Modelled from the spec: [VariableArrayT_to_lc], each variable as a
    linear combination. *)
Definition VariableArrayT_to_lc (vars : VariableArrayT) : list linear_combination :=
  lc_of_var <$> vars.

(** Modelled from the spec: [lc_val], the value of a linear combination
    under the witness table, the sum of [coeff * val(index)] over its
    terms. *)
Definition lc_val (pb : ProtoboardT) (lc : linear_combination) : FieldT :=
  fold_left (fun sum lt => Fr.add sum (Fr.mul (coeff lt) (val pb (index lt)))) lc Fr.zero.

(** Write the values [xs] into the variables [vars], in order. *)
Definition assign_values (vars : VariableArrayT) (xs : list FieldT) (pb : ProtoboardT)
  : ProtoboardT :=
  fold_left (fun pb '(v, x) => set_val pb v x) (zip vars xs) pb.

(** A linear combination, or a constraint, that mentions no variable
    beyond [n]. *)
Definition lc_below (n : nat) (lc : linear_combination) : Prop :=
  Forall (fun lt => index lt <= n) lc.
Definition constraint_below (n : nat) (k : r1cs_constraint) : Prop :=
  lc_below n (a k) /\ lc_below n (b k) /\ lc_below n (c k).

(** Two protoboards with the same variables and the same constraints: they
    differ at most in the values of the witness table. *)
Definition same_shape (pb pb' : ProtoboardT) : Prop :=
  num_variables pb' = num_variables pb /\ constraints pb' = constraints pb.

(** [A * B = C] under the witness table. *)
Definition is_satisfied (pb : ProtoboardT) (k : r1cs_constraint) : Prop :=
  Fr.mul (lc_val pb (a k)) (lc_val pb (b k)) = lc_val pb (c k).

(** ** Constant generator *)

(** [n_bits_roundedup] and [output_size] of [poseidon_constants_fill], as
    functions of the bit length of the field. *)
Definition n_bits_roundedup (size_in_bits : N) : N :=
  (size_in_bits + (8 - size_in_bits mod 8))%N.
Definition output_size_of (size_in_bits : N) : N :=
  (n_bits_roundedup size_in_bits / 8)%N.
Definition output_size : N := output_size_of Fr.size_in_bits.

(** Little-endian value of a byte string. *)
Fixpoint le_bytes_to_N (bs : list byte) : N :=
  match bs with
  | [] => 0%N
  | x :: rest => (Byte.to_N x + 256 * le_bytes_to_N rest)%N
  end.

(** Modelled from the spec: [bytes_to_FieldT_littleendian], declared outside
    the sources: "interpret as field element little-endian, reducing modulo
    |F| if the value exceeds the modulus". *)
Definition bytes_to_FieldT_littleendian (bytes : list byte) (count : N) : FieldT :=
  Fr.of_Z (Z.of_N (le_bytes_to_N (take (N.to_nat count) bytes))).

Record PoseidonConstants : Type :=
  mk_constants { C : list FieldT; M : list FieldT }.

Section ConstantGenerator.

(** BLAKE2b, an opaque byte-producing oracle: [blake2b outlen key data] is
    the buffer [out] after the call [blake2b(out, outlen, key, keylen,
    data, datalen)]. *)
Variable blake2b : N -> list byte -> list byte -> list byte.

(** The loop of [poseidon_constants_fill]: [output] is rehashed in place
    and decoded, [count] times. *)
Fixpoint poseidon_constants_loop (count : nat) (output : list byte)
    (result : list FieldT) : list FieldT :=
  match count with
  | O => result
  | S count' =>
      let output' := blake2b output_size [] output in
      poseidon_constants_loop count' output'
        (result ++ [bytes_to_FieldT_littleendian output' output_size])
  end.

(** The loop bound [n_constants - 1] is an [unsigned] subtraction. *)
Definition poseidon_constants_fill (seed : string) (n_constants : N)
    (result : list FieldT) : list FieldT :=
  let output := blake2b output_size [] (list_byte_of_string seed) in
  let result := result ++ [bytes_to_FieldT_littleendian output output_size] in
  poseidon_constants_loop (N.to_nat (u32_sub n_constants 1)) output result.

Definition poseidon_constants (seed : string) (n_constants : N) : list FieldT :=
  poseidon_constants_fill seed n_constants [].

(** The two nested loops of [poseidon_matrix_fill]; [t*2] and [t+j] are
    [unsigned] operations. *)
Definition poseidon_matrix_row (c : list FieldT) (t : N) (i : nat) : list FieldT :=
  (fun j : nat =>
     Fr.inverse (Fr.sub (default Fr.zero (c !! i))
                        (default Fr.zero (c !! N.to_nat (u32_add t (N.of_nat j))))))
    <$> seq 0 (N.to_nat t).

Definition poseidon_matrix_fill (seed : string) (t : N) (result : list FieldT)
  : list FieldT :=
  let c := poseidon_constants seed (u32_mul t 2) in
  fold_left (fun result i => result ++ poseidon_matrix_row c t i)
            (seq 0 (N.to_nat t)) result.

Definition poseidon_matrix (seed : string) (t : N) : list FieldT :=
  poseidon_matrix_fill seed t [].

(** [poseidon_params<param_t, param_F, param_P>()]: what the once-only
    initialiser stores. *)
Definition poseidon_params (param_t param_F param_P : N) : PoseidonConstants :=
  mk_constants
    (poseidon_constants_fill "poseidon_constants" (u32_add param_F param_P) [])
    (poseidon_matrix_fill "poseidon_matrix_0000" param_t []).

(** The byte string hashed for the [k]-th constant, as the specification
    describes the stream: the seed first, then each previous output. *)
Fixpoint constant_stream (seed : string) (k : nat) : list byte :=
  match k with
  | O => blake2b output_size [] (list_byte_of_string seed)
  | S k' => blake2b output_size [] (constant_stream seed k')
  end.

End ConstantGenerator.

(** ** S-box gadget *)

Module FifthPower_gadget.

Record t : Type := mk { x2 : VariableT; x4 : VariableT; x5 : VariableT }.

Definition ctor (pb : ProtoboardT) : t * ProtoboardT :=
  let '(v2, pb) := make_variable pb in
  let '(v4, pb) := make_variable pb in
  let '(v5, pb) := make_variable pb in
  (mk v2 v4 v5, pb).

Definition generate_r1cs_constraints (g : t) (pb : ProtoboardT)
    (x : linear_combination) : ProtoboardT :=
  let pb := add_r1cs_constraint pb (ConstraintT x x (lc_of_var (x2 g))) in
  let pb := add_r1cs_constraint pb
              (ConstraintT (lc_of_var (x2 g)) (lc_of_var (x2 g)) (lc_of_var (x4 g))) in
  add_r1cs_constraint pb (ConstraintT x (lc_of_var (x4 g)) (lc_of_var (x5 g))).

Definition generate_r1cs_witness (g : t) (pb : ProtoboardT) (val_x : FieldT)
  : ProtoboardT :=
  let val_x2 := Fr.mul val_x val_x in
  let val_x4 := Fr.mul val_x2 val_x2 in
  let val_x5 := Fr.mul val_x4 val_x in
  let pb := set_val pb (x2 g) val_x2 in
  let pb := set_val pb (x4 g) val_x4 in
  set_val pb (x5 g) val_x5.

Definition result (g : t) : VariableT := x5 g.

(** The witness table holds the powers of [v] in the three variables. *)
Definition witnessed (pb : ProtoboardT) (g : t) (v : FieldT) : Prop :=
  val pb (x2 g) = Fr.mul v v
  /\ val pb (x4 g) = Fr.mul (Fr.mul v v) (Fr.mul v v)
  /\ val pb (x5 g) = Fr.mul (Fr.mul (Fr.mul v v) (Fr.mul v v)) v.

(** The constraints [generate_r1cs_constraints] appends, as a list. *)
Definition emitted (g : t) (x : linear_combination) : list r1cs_constraint :=
  [ConstraintT x x (lc_of_var (x2 g));
   ConstraintT (lc_of_var (x2 g)) (lc_of_var (x2 g)) (lc_of_var (x4 g));
   ConstraintT x (lc_of_var (x4 g)) (lc_of_var (x5 g))].

End FifthPower_gadget.

(** ** Round gadget *)

Module Poseidon_Round.

(** The template parameters [<param_t, nSBox, nInputs, nOutputs>]. *)
Record params : Type :=
  mk_params { param_t : nat; nSBox : nat; nInputs : nat; nOutputs : nat }.

Record t : Type := mk {
  tparams : params;
  C_i : FieldT;
  M : list FieldT;
  state : list linear_combination;
  sboxes : list FifthPower_gadget.t;
  outputs : list linear_combination
}.

(** Element access inside the round.  Every index is in range when
    [|M| = t*t], [nSBox <= t], [nInputs <= t], [nOutputs <= t] and the state
    has [nInputs] entries ([reads_in_range] below is the exact condition for
    the reads of the constructor); elsewhere the source reads past the end
    of a vector, and the embedding reads zero, the empty combination or an
    S-box on variable [0]. *)
Definition M_at (in_M : list FieldT) (i : nat) : FieldT :=
  default Fr.zero (in_M !! i).
Definition state_at (in_state : list linear_combination) (i : nat)
  : linear_combination :=
  default [] (in_state !! i).
Definition sbox_at (in_sboxes : list FifthPower_gadget.t) (i : nat)
  : FifthPower_gadget.t :=
  default (FifthPower_gadget.mk 0 0 0) (in_sboxes !! i).

Fixpoint make_sboxes (n : nat) (in_pb : ProtoboardT)
  : list FifthPower_gadget.t * ProtoboardT :=
  match n with
  | O => ([], in_pb)
  | S n' =>
      let '(g, pb1) := FifthPower_gadget.ctor in_pb in
      let '(gs, pb2) := make_sboxes n' pb1 in
      (g :: gs, pb2)
  end.

(** The accumulation [constant_term += in_C_i * in_M[M_offset+j]] for
    [j] from [nSBox] up to [param_t]. *)
Definition constant_term (p : params) (in_C_i : FieldT) (in_M : list FieldT)
    (M_offset : nat) : FieldT :=
  fold_left (fun acc j => Fr.add acc (Fr.mul in_C_i (M_at in_M (M_offset + j))))
            (seq (nSBox p) (param_t p - nSBox p)) Fr.zero.

(** One iteration of the loop over [i] in [make_outputs]. *)
Definition make_output (p : params) (in_C_i : FieldT) (in_M : list FieldT)
    (in_state : list linear_combination) (in_sboxes : list FifthPower_gadget.t)
    (i : nat) : linear_combination :=
  let M_offset := (i * param_t p)%nat in
  let lc : linear_combination := [] in
  let lc := if (nSBox p <? param_t p)%nat
            then add_term lc ONE (constant_term p in_C_i in_M M_offset)
            else lc in
  let lc := fold_left
              (fun lc s => add_term lc (FifthPower_gadget.result (sbox_at in_sboxes s))
                                    (M_at in_M (M_offset + s)))
              (seq 0 (nSBox p)) lc in
  fold_left
    (fun lc k => lc_add lc (lc_scale (state_at in_state k) (M_at in_M (M_offset + k))))
    (seq (nSBox p) (nInputs p - nSBox p)) lc.

(** The terms a row starts from, before the state entries are added: the
    constant term, then one term per S-box. *)
Definition constant_part (p : params) (in_C_i : FieldT) (in_M : list FieldT)
    (i : nat) : linear_combination :=
  if (nSBox p <? param_t p)%nat
  then [mk_term ONE (constant_term p in_C_i in_M (i * param_t p))] else [].
Definition sbox_part (p : params) (in_M : list FieldT)
    (in_sboxes : list FifthPower_gadget.t) (i : nat) : linear_combination :=
  (fun s => mk_term (FifthPower_gadget.result (sbox_at in_sboxes s))
                    (M_at in_M (i * param_t p + s))) <$> seq 0 (nSBox p).

Definition make_outputs (p : params) (in_C_i : FieldT) (in_M : list FieldT)
    (in_state : list linear_combination) (in_sboxes : list FifthPower_gadget.t)
  : list linear_combination :=
  make_output p in_C_i in_M in_state in_sboxes <$> seq 0 (nOutputs p).

(** The members are initialised first (S-boxes, then outputs); the two
    assertions of the constructor body run last. *)
Definition ctor (p : params) (in_pb : ProtoboardT) (in_C_i : FieldT)
    (in_M : list FieldT) (in_state : list linear_combination)
  : outcome (t * ProtoboardT) :=
  let '(sb, pb) := make_sboxes (nSBox p) in_pb in
  let outs := make_outputs p in_C_i in_M in_state sb in
  _ ← cxx_assert (nInputs p <=? param_t p)%nat "nInputs <= param_t";
  _ ← cxx_assert (nOutputs p <=? param_t p)%nat "nOutputs <= param_t";
  mret (mk p in_C_i in_M in_state sb outs, pb).

(** The indices at which [make_outputs] reads [in_M] ([in_M[M_offset+j]],
    [in_M[M_offset+s]], [in_M[M_offset+k]]) and [in_state] ([in_state[k]]),
    row after row; [in_sboxes[s]] is always inside the [nSBox] S-boxes of
    [make_sboxes].  The rows are built by a member initialiser, so these
    reads come before the assertions of the constructor body.
    [reads_in_range] says that none of them leaves its vector: there
    [M_at] and [state_at] are the source's element access. *)
Definition M_reads (p : params) : list nat :=
  flat_map (fun i : nat =>
              let M_offset := (i * param_t p)%nat in
              ((fun j : nat => (M_offset + j)%nat) <$> seq (nSBox p) (param_t p - nSBox p))
              ++ ((fun s : nat => (M_offset + s)%nat) <$> seq 0 (nSBox p))
              ++ ((fun k : nat => (M_offset + k)%nat) <$> seq (nSBox p) (nInputs p - nSBox p)))
           (seq 0 (nOutputs p)).
Definition state_reads (p : params) : list nat :=
  flat_map (fun _ : nat => seq (nSBox p) (nInputs p - nSBox p)) (seq 0 (nOutputs p)).
Definition reads_in_range (p : params) (in_M : list FieldT)
    (in_state : list linear_combination) : bool :=
  forallb (fun i : nat => (i <? length in_M)%nat) (M_reads p)
  && forallb (fun k : nat => (k <? length in_state)%nat) (state_reads p).

Definition generate_r1cs_witness (r : t) (pb : ProtoboardT) : ProtoboardT :=
  fold_left
    (fun pb h =>
       let value := C_i r in
       let value := if (h <? nInputs (tparams r))%nat
                    then Fr.add value (lc_val pb (state_at (state r) h))
                    else value in
       FifthPower_gadget.generate_r1cs_witness (sbox_at (sboxes r) h) pb value)
    (seq 0 (nSBox (tparams r))) pb.

Definition generate_r1cs_constraints (r : t) (pb : ProtoboardT) : ProtoboardT :=
  fold_left
    (fun pb h =>
       if (h <? nInputs (tparams r))%nat
       then FifthPower_gadget.generate_r1cs_constraints (sbox_at (sboxes r) h) pb
              (lc_add (state_at (state r) h) (lc_of_field (C_i r)))
       else FifthPower_gadget.generate_r1cs_constraints (sbox_at (sboxes r) h) pb
              (lc_of_field (C_i r)))
    (seq 0 (nSBox (tparams r))) pb.

(** The input of S-box [h], the value the witness gives it, and the
    constraints the round appends, as a list. *)
Definition sbox_input (r : t) (h : nat) : linear_combination :=
  if (h <? nInputs (tparams r))%nat
  then lc_add (state_at (state r) h) (lc_of_field (C_i r))
  else lc_of_field (C_i r).
Definition sbox_value (r : t) (pb : ProtoboardT) (h : nat) : FieldT :=
  if (h <? nInputs (tparams r))%nat
  then Fr.add (C_i r) (lc_val pb (state_at (state r) h))
  else C_i r.
Definition emitted (r : t) : list r1cs_constraint :=
  flat_map (fun h => FifthPower_gadget.emitted (sbox_at (sboxes r) h) (sbox_input r h))
           (seq 0 (nSBox (tparams r))).

(** The S-boxes a round allocates on a protoboard that has [base]
    variables: three consecutive variables each. *)
Definition sboxes_from (base n : nat) : list FifthPower_gadget.t :=
  (fun h => FifthPower_gadget.mk (base + 3 * h + 1) (base + 3 * h + 2) (base + 3 * h + 3))
    <$> seq 0 n.

(** The round object the constructor returns on a protoboard that has
    [base] variables. *)
Definition built (p : params) (base : nat) (in_C_i : FieldT) (in_M : list FieldT)
    (in_state : list linear_combination) : t :=
  let sb := sboxes_from base (nSBox p) in
  mk p in_C_i in_M in_state sb (make_outputs p in_C_i in_M in_state sb).

(** A run of rounds built one after the other from [base], each taking
    the outputs of the one before as its state; [chain_end] is the number
    of variables after the run, [chain_outputs] the state it hands on. *)
Fixpoint chain (base : nat) (st : list linear_combination) (rs : list t) : Prop :=
  match rs with
  | [] => True
  | r :: rs' =>
      r = built (tparams r) base (C_i r) (M r) st
      /\ chain (base + 3 * nSBox (tparams r)) (outputs r) rs'
  end.
Fixpoint chain_end (base : nat) (rs : list t) : nat :=
  match rs with
  | [] => base
  | r :: rs' => chain_end (base + 3 * nSBox (tparams r)) rs'
  end.
Definition chain_outputs (st : list linear_combination) (rs : list t)
  : list linear_combination :=
  match last rs with Some r => outputs r | None => st end.

End Poseidon_Round.

(** ** Master permutation gadget *)

Module Master_Poseidon_gadget_T.

(** The template parameters
    [<param_t, param_c, param_F, param_P, nInputs, nOutputs, constrainOutputs>]. *)
Record params : Type := mk_params {
  param_t : nat;
  param_c : nat;
  param_F : nat;
  param_P : nat;
  nInputs : nat;
  nOutputs : nat;
  constrainOutputs : bool
}.

Definition FirstRoundT (p : params) : Poseidon_Round.params :=
  Poseidon_Round.mk_params (param_t p) (param_t p) (nInputs p) (param_t p).
Definition PartialRoundT (p : params) : Poseidon_Round.params :=
  Poseidon_Round.mk_params (param_t p) (param_c p) (param_t p) (param_t p).
Definition FullRoundT (p : params) : Poseidon_Round.params :=
  Poseidon_Round.mk_params (param_t p) (param_t p) (param_t p) (param_t p).
Definition LastRoundT (p : params) : Poseidon_Round.params :=
  Poseidon_Round.mk_params (param_t p) (param_t p) (param_t p) (nOutputs p).

Definition partial_begin (p : params) : nat := param_F p / 2.
Definition partial_end (p : params) : nat := partial_begin p + param_P p.
Definition total_rounds (p : params) : nat := param_F p + param_P p.

Record t : Type := mk {
  tparams : params;
  constants : PoseidonConstants;
  first_round : Poseidon_Round.t;
  prefix_full_rounds : list Poseidon_Round.t;
  partial_rounds : list Poseidon_Round.t;
  suffix_full_rounds : list Poseidon_Round.t;
  last_round : Poseidon_Round.t;
  _output_vars : VariableArrayT
}.

(** The loop of [make_rounds]: [i] runs from [n_begin], [count] rounds are
    still to build, [rounds] is the vector built so far. *)
Fixpoint make_rounds_loop (T : Poseidon_Round.params) (n_begin : nat)
    (inputs : list linear_combination) (consts : PoseidonConstants)
    (count i : nat) (rounds : list Poseidon_Round.t) (pb : ProtoboardT)
  : outcome (list Poseidon_Round.t * ProtoboardT) :=
  match count with
  | O => mret (rounds, pb)
  | S count' =>
      st ← (if (i =? n_begin)%nat then mret inputs
            else prev ← vec_back rounds; mret (Poseidon_Round.outputs prev));
      C_i ← vec_at (C consts) i;
      '(r, pb') ← Poseidon_Round.ctor T pb C_i (M consts) st;
      make_rounds_loop T n_begin inputs consts count' (S i) (rounds ++ [r]) pb'
  end.

(** [make_rounds<T>(n_begin, n_end, ...)]; the loop [for (i = n_begin;
    i < n_end; i++)] runs [n_end - n_begin] times, and not at all when
    [n_end <= n_begin]. *)
Definition make_rounds (T : Poseidon_Round.params) (n_begin n_end : nat)
    (pb : ProtoboardT) (inputs : list linear_combination)
    (consts : PoseidonConstants)
  : outcome (list Poseidon_Round.t * ProtoboardT) :=
  make_rounds_loop T n_begin inputs consts (n_end - n_begin) n_begin [] pb.

(** The constructor.  [consts] is the table [poseidon_params<param_t,
    param_F, param_P>()].  With [param_F < 2] the first [back()] below is
    already undefined, so the truncated subtraction [total_rounds - 1] is
    never observed at [total_rounds = 0]. *)
Definition ctor (p : params) (consts : PoseidonConstants) (pb : ProtoboardT)
    (in_inputs : VariableArrayT) : outcome (t * ProtoboardT) :=
  C_0 ← vec_at (C consts) 0;
  '(first, pb) ← Poseidon_Round.ctor (FirstRoundT p) pb C_0 (M consts)
                   (VariableArrayT_to_lc in_inputs);
  '(prefix, pb) ← make_rounds (FullRoundT p) 1 (partial_begin p) pb
                    (Poseidon_Round.outputs first) consts;
  prefix_back ← vec_back prefix;
  '(partial, pb) ← make_rounds (PartialRoundT p) (partial_begin p) (partial_end p) pb
                     (Poseidon_Round.outputs prefix_back) consts;
  partial_back ← vec_back partial;
  '(suffix, pb) ← make_rounds (FullRoundT p) (partial_end p) (total_rounds p - 1) pb
                    (Poseidon_Round.outputs partial_back) consts;
  suffix_back ← vec_back suffix;
  C_last ← vec_back (C consts);
  '(last, pb) ← Poseidon_Round.ctor (LastRoundT p) pb C_last (M consts)
                  (Poseidon_Round.outputs suffix_back);
  let '(out_vars, pb) :=
    if constrainOutputs p then make_var_array pb (nOutputs p) else ([], pb) in
  mret (mk p consts first prefix partial suffix last out_vars, pb).

(** The final loop of [generate_r1cs_constraints]: a range-for over
    [last_round.outputs] with the counter [i], which starts at [0]. *)
Fixpoint constrain_outputs_loop (vars : VariableArrayT)
    (lcs : list linear_combination) (i : nat) (pb : ProtoboardT) : ProtoboardT :=
  match lcs with
  | [] => pb
  | lc :: lcs' =>
      let pb := add_r1cs_constraint pb
                  (ConstraintT lc (lc_of_var ONE) (lc_of_var (default 0 (vars !! i)))) in
      constrain_outputs_loop vars lcs' (S i) pb
  end.
Definition constrain_outputs (m : t) (pb : ProtoboardT) : ProtoboardT :=
  constrain_outputs_loop (_output_vars m) (Poseidon_Round.outputs (last_round m)) 0 pb.

Definition generate_r1cs_constraints (m : t) (pb : ProtoboardT) : ProtoboardT :=
  let pb := Poseidon_Round.generate_r1cs_constraints (first_round m) pb in
  let pb := fold_left (fun pb r => Poseidon_Round.generate_r1cs_constraints r pb)
                      (prefix_full_rounds m) pb in
  let pb := fold_left (fun pb r => Poseidon_Round.generate_r1cs_constraints r pb)
                      (partial_rounds m) pb in
  let pb := fold_left (fun pb r => Poseidon_Round.generate_r1cs_constraints r pb)
                      (suffix_full_rounds m) pb in
  let pb := Poseidon_Round.generate_r1cs_constraints (last_round m) pb in
  if constrainOutputs (tparams m) then constrain_outputs m pb else pb.

(** The final loop of [generate_r1cs_witness]. *)
Definition assign_outputs (m : t) (pb : ProtoboardT) : ProtoboardT :=
  fold_left
    (fun pb n =>
       set_val pb (default 0 (_output_vars m !! n))
         (lc_val pb (Poseidon_Round.state_at (Poseidon_Round.outputs (last_round m)) n)))
    (seq 0 (length (Poseidon_Round.outputs (last_round m)))) pb.

Definition generate_r1cs_witness (m : t) (pb : ProtoboardT) : ProtoboardT :=
  let pb := Poseidon_Round.generate_r1cs_witness (first_round m) pb in
  let pb := fold_left (fun pb r => Poseidon_Round.generate_r1cs_witness r pb)
                      (prefix_full_rounds m) pb in
  let pb := fold_left (fun pb r => Poseidon_Round.generate_r1cs_witness r pb)
                      (partial_rounds m) pb in
  let pb := fold_left (fun pb r => Poseidon_Round.generate_r1cs_witness r pb)
                      (suffix_full_rounds m) pb in
  let pb := Poseidon_Round.generate_r1cs_witness (last_round m) pb in
  if constrainOutputs (tparams m) then assign_outputs m pb else pb.

(** All the rounds the gadget owns, in the order they run. *)
Definition rounds (m : t) : list Poseidon_Round.t :=
  first_round m :: prefix_full_rounds m ++ partial_rounds m
    ++ suffix_full_rounds m ++ [last_round m].

(** The rounds [make_rounds] builds on a protoboard that has [base]
    variables, from the state [st]. *)
Definition C_at (consts : PoseidonConstants) (i : nat) : FieldT :=
  default Fr.zero (C consts !! i).
Fixpoint rounds_from (T : Poseidon_Round.params) (consts : PoseidonConstants)
    (count i base : nat) (st : list linear_combination) : list Poseidon_Round.t :=
  match count with
  | O => []
  | S count' =>
      let r := Poseidon_Round.built T base (C_at consts i) (M consts) st in
      r :: rounds_from T consts count' (S i) (base + 3 * Poseidon_Round.nSBox T)
             (Poseidon_Round.outputs r)
  end.

(** The gadget the constructor returns on a protoboard that has [base]
    variables. *)
Definition layout (p : params) (consts : PoseidonConstants) (base : nat)
    (in_inputs : VariableArrayT) : t :=
  let first := Poseidon_Round.built (FirstRoundT p) base (C_at consts 0) (M consts)
                 (VariableArrayT_to_lc in_inputs) in
  let base1 := base + 3 * param_t p in
  let prefix := rounds_from (FullRoundT p) consts (partial_begin p - 1) 1 base1
                  (Poseidon_Round.outputs first) in
  let base2 := base1 + 3 * param_t p * (partial_begin p - 1) in
  let partial := rounds_from (PartialRoundT p) consts (param_P p) (partial_begin p) base2
                   (Poseidon_Round.chain_outputs [] prefix) in
  let base3 := base2 + 3 * param_c p * param_P p in
  let suffix := rounds_from (FullRoundT p) consts
                  (total_rounds p - 1 - partial_end p) (partial_end p) base3
                  (Poseidon_Round.chain_outputs [] partial) in
  let base4 := base3 + 3 * param_t p * (total_rounds p - 1 - partial_end p) in
  let last := Poseidon_Round.built (LastRoundT p) base4
                (default Fr.zero (last (C consts))) (M consts)
                (Poseidon_Round.chain_outputs [] suffix) in
  let base5 := base4 + 3 * param_t p in
  mk p consts first prefix partial suffix last
     (if constrainOutputs p then seq (S base5) (nOutputs p) else []).

(** The number of variables the constructor allocates. *)
Definition allocated (p : params) : nat :=
  3 * (param_t p * param_F p + param_c p * param_P p)
  + (if constrainOutputs p then nOutputs p else 0).

(** The constraints [generate_r1cs_constraints] appends, as a list. *)
Fixpoint output_constraints_from (vars : VariableArrayT)
    (lcs : list linear_combination) (i : nat) : list r1cs_constraint :=
  match lcs with
  | [] => []
  | lc :: lcs' =>
      ConstraintT lc (lc_of_var ONE) (lc_of_var (default 0 (vars !! i)))
        :: output_constraints_from vars lcs' (S i)
  end.
Definition output_constraints (m : t) : list r1cs_constraint :=
  output_constraints_from (_output_vars m) (Poseidon_Round.outputs (last_round m)) 0.
Definition emitted (m : t) : list r1cs_constraint :=
  flat_map Poseidon_Round.emitted (rounds m)
    ++ (if constrainOutputs (tparams m) then output_constraints m else []).

End Master_Poseidon_gadget_T.

(** ** Instance stamper *)

Module Poseidon_gadget_T.

Module Master := Master_Poseidon_gadget_T.

(** The function-local statics of one instantiation of the template:
    [master_pb] and [master] of [get_master] ([master] is [None] until the
    once-only initialiser has run) and the once-only flag of [swapAB].
    [set_use_thread_values(true)] gives every thread its own witness table
    on the master protoboard; the embedding follows one thread. *)
Record statics : Type := mk_statics {
  master_pb : ProtoboardT;
  master_ptr : option Master.t;
  swapAB_flag : bool
}.

Definition initial_statics : statics := mk_statics empty_pb None false.

Record t : Type := mk {
  master : Master.t;
  instance_inputs : VariableArrayT;
  instance_variables_offset : nat;
  res : VariableT
}.

(** [get_master]: the initialiser builds the master on [master_pb] over
    [nInputs] dummy input variables and emits its constraints, once. *)
Definition get_master (p : Master.params) (consts : PoseidonConstants)
    (st : statics) : outcome (Master.t * statics) :=
  match master_ptr st with
  | Some m => mret (m, st)
  | None =>
      let '(dummy_inputs, pb) := make_var_array (master_pb st) (Master.nInputs p) in
      '(m, pb) ← Master.ctor p consts pb dummy_inputs;
      let pb := Master.generate_r1cs_constraints m pb in
      mret (m, mk_statics pb (Some m) (swapAB_flag st))
  end.

Definition translate_with (inputs : VariableArrayT) (offset : nat) (index : nat) : nat :=
  if (index =? 0)%nat then 0
  else if (index <=? length inputs)%nat then default 0 (inputs !! (index - 1))
  else offset + (index - (1 + length inputs)).

Definition translate (g : t) (index : nat) : nat :=
  translate_with (instance_inputs g) (instance_variables_offset g) index.

(** The constructor.  The size of the auxiliary block is the unsigned
    difference [master.pb.num_variables() - in_inputs.size()]: with more
    inputs than the master has variables it wraps around and the
    allocation cannot complete. *)
Definition ctor (p : Master.params) (consts : PoseidonConstants) (st : statics)
    (pb : ProtoboardT) (in_inputs : VariableArrayT)
  : outcome (t * statics * ProtoboardT) :=
  '(m, st) ← get_master p consts st;
  let offset := num_variables pb + 1 in
  if (num_variables (master_pb st) <? length in_inputs)%nat then Undefined
  else
    let '(_, pb) :=
      make_var_array pb (num_variables (master_pb st) - length in_inputs) in
    out_0 ← vec_at (Master._output_vars m) 0;
    mret (mk m in_inputs offset (translate_with in_inputs offset out_0), st, pb).

(** Each master constraint is referenced, not copied. *)
Definition generate_r1cs_constraints (g : t) (st : statics) (pb : ProtoboardT)
  : ProtoboardT :=
  fold_left
    (fun pb i =>
       mk_pb (values pb)
             (constraints pb ++
                [LightInstance i
                   (mk_translator (instance_inputs g) (instance_variables_offset g))]))
    (seq 0 (length (constraints (master_pb st)))) pb.

(** The inputs go into the master's slots [1 .. nInputs], the master's
    witness runs on its own protoboard, and the rest of its table is copied
    to the auxiliary block.  The constructor has made sure that
    [master.pb.num_variables() - instance_inputs.size()] does not wrap. *)
Definition generate_r1cs_witness (g : t) (st : statics) (pb : ProtoboardT)
  : statics * ProtoboardT :=
  let n := length (instance_inputs g) in
  let mpb := fold_left
               (fun mpb i => set_val mpb (1 + i) (val pb (default 0 (instance_inputs g !! i))))
               (seq 0 n) (master_pb st) in
  let mpb := Master.generate_r1cs_witness (master g) mpb in
  let pb := fold_left
              (fun pb i => set_val pb (instance_variables_offset g + i)
                                   (val mpb (1 + n + i)))
              (seq 0 (num_variables mpb - n)) pb in
  (mk_statics mpb (master_ptr st) (swapAB_flag st), pb).

Definition result (g : t) : VariableT := res g.

(** [swapAB] of one constraint body. *)
Definition constraint_swapAB (e : constraint_entry) : constraint_entry :=
  match e with
  | Own k => Own (ConstraintT (b k) (a k) (c k))
  | LightInstance i tr => LightInstance i tr
  end.

Definition swapAB (g : t) (st : statics) : statics :=
  if swapAB_flag st then st
  else mk_statics
         (mk_pb (values (master_pb st)) (map constraint_swapAB (constraints (master_pb st))))
         (master_ptr st) true.

End Poseidon_gadget_T.

(** [Poseidon128<nInputs, nOutputs, constrainOutputs>]. *)
Definition Poseidon128 (nInputs nOutputs : nat) (constrainOutputs : bool)
  : Master_Poseidon_gadget_T.params :=
  Master_Poseidon_gadget_T.mk_params 6 1 8 57 nInputs nOutputs constrainOutputs.

(** ** The function the rounds encode *)

(** Read off [make_outputs] and [generate_r1cs_witness]: the values of the
    output rows of a round as a function of the values of its state, and
    the rounds of the master gadget run one after the other. *)
Module Permutation.

Module Master := Master_Poseidon_gadget_T.

(** [x^5], multiplied out the way the S-box does. *)
Definition pow5 (v : FieldT) : FieldT :=
  Fr.mul (Fr.mul (Fr.mul v v) (Fr.mul v v)) v.

(** Lane [j] of a round over the state values [s]: the round constant is
    added to the state entry (lanes from [nInputs] on carry no state, only
    the constant), and the first [nSBox] lanes go through the S-box. *)
Definition lane_input (T : Poseidon_Round.params) (C_i : FieldT) (s : list FieldT)
    (j : nat) : FieldT :=
  if (j <? Poseidon_Round.nInputs T)%nat
  then Fr.add C_i (default Fr.zero (s !! j)) else C_i.
Definition lane_output (T : Poseidon_Round.params) (C_i : FieldT) (s : list FieldT)
    (j : nat) : FieldT :=
  if (j <? Poseidon_Round.nSBox T)%nat
  then pow5 (lane_input T C_i s j) else lane_input T C_i s j.

(** Output [i] is row [i] of the matrix applied to the [t] lanes. *)
Definition round_values (T : Poseidon_Round.params) (C_i : FieldT) (in_M : list FieldT)
    (s : list FieldT) : list FieldT :=
  (fun i =>
     field_sum ((fun j => Fr.mul (Poseidon_Round.M_at in_M (i * Poseidon_Round.param_t T + j))
                                 (lane_output T C_i s j))
                  <$> seq 0 (Poseidon_Round.param_t T)))
    <$> seq 0 (Poseidon_Round.nOutputs T).

(** The kind of round number [i] of the master gadget: round [0] is the
    first round, the rounds from [partial_begin] up to [partial_end] are
    partial, round [total_rounds - 1] is the last round, every other round
    is full. *)
Definition round_kind (p : Master.params) (i : nat) : Poseidon_Round.params :=
  if (i =? 0)%nat then Master.FirstRoundT p
  else if (i <? Master.partial_begin p)%nat then Master.FullRoundT p
  else if (i <? Master.partial_end p)%nat then Master.PartialRoundT p
  else if (i <? Master.total_rounds p - 1)%nat then Master.FullRoundT p
  else Master.LastRoundT p.

(** Round [i] takes the round constant [C[i]]; all rounds share [M]. *)
Definition permutation (p : Master.params) (consts : PoseidonConstants)
    (x : list FieldT) : list FieldT :=
  fold_left (fun s i => round_values (round_kind p i) (Master.C_at consts i) (M consts) s)
            (seq 0 (Master.total_rounds p)) x.

End Permutation.

(** ** Reading a stamped constraint *)

Module Stamping.

Module Master := Master_Poseidon_gadget_T.
Module Stamper := Poseidon_gadget_T.

(** The statics once the master exists: they are what the initialiser of
    [get_master] left, up to the values of the witness table, and the
    constraints are swapped exactly when the flag of [swapAB] is set. *)
Definition master_ready (p : Master.params) (consts : PoseidonConstants)
    (st : Stamper.statics) : Prop :=
  exists m st0,
    Stamper.get_master p consts Stamper.initial_statics = Ok (m, st0)
    /\ Stamper.master_ptr st = Some m
    /\ num_variables (Stamper.master_pb st) = num_variables (Stamper.master_pb st0)
    /\ constraints (Stamper.master_pb st)
       = if Stamper.swapAB_flag st
         then map Stamper.constraint_swapAB (constraints (Stamper.master_pb st0))
         else constraints (Stamper.master_pb st0).

(** Modelled from the spec: how the host library reads a light instance,
    which is not among the sources: "every variable id in the copied
    constraint is interpreted through [tau] at solve/verify time". *)
Definition translate_lc (tr : translator) (lc : linear_combination)
  : linear_combination :=
  (fun lt => mk_term (Stamper.translate_with (tr_inputs tr) (tr_offset tr) (index lt))
                     (coeff lt)) <$> lc.

(** Modelled from the spec: a constraint entry holds under the witness
    table [pb]; a light instance is the master constraint it points to,
    with every index translated. *)
Definition entry_satisfied (master_pb pb : ProtoboardT) (e : constraint_entry) : Prop :=
  match e with
  | Own k => is_satisfied pb k
  | LightInstance i tr =>
      match constraints master_pb !! i with
      | Some (Own k) =>
          is_satisfied pb (ConstraintT (translate_lc tr (a k)) (translate_lc tr (b k))
                                       (translate_lc tr (c k)))
      | _ => False
      end
  end.

End Stamping.

(** ** Concrete instances used to exercise the definitions *)

Module Examples.

Module Master := Master_Poseidon_gadget_T.
Module Stamper := Poseidon_gadget_T.

(** A byte oracle standing for BLAKE2b: the data, cut or zero-padded to
    the requested length. *)
Definition toy_blake2b (outlen : N) (key data : list byte) : list byte :=
  take (N.to_nat outlen) (data ++ repeat x00 (N.to_nat outlen)).

(** Tables with the shape of [poseidon_params<6, 8, 57>()]. *)
Definition consts128 : PoseidonConstants :=
  mk_constants (map Z.of_nat (seq 1 65)) (map Z.of_nat (seq 2 36)).

(** A small parameter set: [t = 2], [c = 1], [F = 4], [P = 1]. *)
Definition small (nInputs nOutputs : nat) (constrainOutputs : bool) : Master.params :=
  Master.mk_params 2 1 4 1 nInputs nOutputs constrainOutputs.
Definition small_consts : PoseidonConstants :=
  mk_constants [3; 5; 7; 11; 13]%Z [2; 3; 4; 9]%Z.

(** The same with an odd number of full rounds, [F = 5]. *)
Definition odd_F : Master.params := Master.mk_params 2 1 5 1 1 1 true.
Definition odd_F_consts : PoseidonConstants :=
  mk_constants [3; 5; 7; 11; 13; 17]%Z [2; 3; 4; 9]%Z.

(** A protoboard with one variable, as [get_master] prepares it. *)
Definition one_input_pb : ProtoboardT := (make_var_array empty_pb 1).2.

(** A round of width 2 with three inputs and one output, and a round of
    width 1 with two outputs. *)
Definition wide_round : Poseidon_Round.params := Poseidon_Round.mk_params 2 1 3 1.
Definition wide_state : list linear_combination := [lc_of_var 1; lc_of_var 2; lc_of_var 3].
Definition wide_pb : ProtoboardT := mk_pb [5; 7; 9]%Z [].
Definition tall_round : Poseidon_Round.params := Poseidon_Round.mk_params 1 1 1 2.

(** A partial round of width 2 on a protoboard with two variables. *)
Definition partial_round : Poseidon_Round.params := Poseidon_Round.mk_params 2 1 2 2.
Definition partial_state : list linear_combination := [lc_of_var 1; lc_of_var 2].
Definition partial_sboxes : list FifthPower_gadget.t := Poseidon_Round.sboxes_from 2 1.
Definition partial_pb : ProtoboardT := mk_pb [5; 7; 4; 16; 64]%Z [].

(** A caller protoboard whose only variable holds [5], and the first
    instance stamped on it. *)
Definition user_pb : ProtoboardT := set_val one_input_pb 1 5%Z.
Definition stamped : outcome (Stamper.t * Stamper.statics * ProtoboardT) :=
  Stamper.ctor (small 1 1 true) small_consts Stamper.initial_statics user_pb [1].
Definition stamped_instance : Stamper.t :=
  match stamped with
  | Ok (g, _, _) => g
  | _ => Stamper.mk (Master.layout (small 1 1 true) small_consts 0 []) [] 0 0
  end.
Definition stamped_statics : Stamper.statics :=
  match stamped with Ok (_, st, _) => st | _ => Stamper.initial_statics end.
Definition stamped_pb : ProtoboardT :=
  match stamped with Ok (_, _, pb) => pb | _ => empty_pb end.

(** A second instance, stamped next on the same protoboard; its input is
    the result of the first. *)
Definition chained : outcome (Stamper.t * Stamper.statics * ProtoboardT) :=
  Stamper.ctor (small 1 1 true) small_consts stamped_statics stamped_pb
    [Stamper.result stamped_instance].
Definition chained_instance : Stamper.t :=
  match chained with
  | Ok (g, _, _) => g
  | _ => Stamper.mk (Master.layout (small 1 1 true) small_consts 0 []) [] 0 0
  end.
Definition chained_statics : Stamper.statics :=
  match chained with Ok (_, st, _) => st | _ => Stamper.initial_statics end.
Definition chained_pb : ProtoboardT :=
  match chained with Ok (_, _, pb) => pb | _ => empty_pb end.

(** An S-box on the variables 2, 3, 4 whose input is variable 1, and a
    table that holds the powers of [2]. *)
Definition sbox_example : FifthPower_gadget.t := FifthPower_gadget.mk 2 3 4.
Definition sbox_table : ProtoboardT := mk_pb [2; 4; 16; 32]%Z [].

(** The partial round above, constructed with round constant [3] on a
    protoboard whose two variables hold [5] and [7], and a table that
    holds the powers of [5 + 3] in the variables of its S-box. *)
Definition two_vars_pb : ProtoboardT := mk_pb [5; 7]%Z [].
Definition partial_built : Poseidon_Round.t :=
  Poseidon_Round.built partial_round 2 3%Z [2; 3; 4; 9]%Z partial_state.
Definition partial_built_pb : ProtoboardT := mk_pb [5; 7; 0; 0; 0]%Z [].
Definition partial_table : ProtoboardT := mk_pb [5; 7; 64; 4096; 32768]%Z [].

(** The master gadget of the small parameter set over one input, and the
    table its witness leaves when the input holds [5]. *)
Definition small_master : Master.t := Master.layout (small 1 1 true) small_consts 1 [1].
Definition small_master_pb : ProtoboardT := mk_pb (replicate 29 0%Z) [].
Definition small_table : ProtoboardT :=
  Master.generate_r1cs_witness small_master (mk_pb (5%Z :: replicate 28 0%Z) []).

(** A parameter set without a full prefix round: [F = 2]. *)
Definition two_full_rounds : Master.params := Master.mk_params 2 1 2 1 1 1 true.
Definition two_full_rounds_consts : PoseidonConstants :=
  mk_constants [3; 5; 7]%Z [2; 3; 4; 9]%Z.

End Examples.

(** ** Proof support *)

(** Congruence modulo the field order, for rewriting under [+], [-], [*]. *)
#[local] Instance eqm_Fr_equivalence : Equivalence (eqm Fr.modulus) :=
  eqm_setoid Fr.modulus.
#[local] Instance eqm_Fr_add : Proper (eqm Fr.modulus ==> eqm Fr.modulus ==> eqm Fr.modulus) Z.add :=
  Zplus_eqm Fr.modulus.
#[local] Instance eqm_Fr_sub : Proper (eqm Fr.modulus ==> eqm Fr.modulus ==> eqm Fr.modulus) Z.sub :=
  Zminus_eqm Fr.modulus.
#[local] Instance eqm_Fr_mul : Proper (eqm Fr.modulus ==> eqm Fr.modulus ==> eqm Fr.modulus) Z.mul :=
  Zmult_eqm Fr.modulus.

(** An equation between field expressions: drop every inner reduction, then
    compare the integers. *)
Ltac fr_ring :=
  unfold Fr.add, Fr.mul, Fr.sub, Fr.of_Z, Fr.one, Fr.zero;
  match goal with
  | |- (?x mod Fr.modulus)%Z = (?y mod Fr.modulus)%Z =>
      change (eqm Fr.modulus x y);
      repeat setoid_rewrite (Zmod_eqm Fr.modulus);
      unfold eqm; f_equal; ring
  end.

(** Name the sums of a goal, so that [fr_ring] sees them as atoms. *)
Ltac abstract_sums :=
  repeat match goal with
         | |- context [field_sum ?l] =>
             let x := fresh "sum" in generalize (field_sum l); intro x
         end.

(** Whether a constraint, or every entry of a list of constraints of the
    protoboard's own, holds under a witness table: both sides evaluated
    and compared. *)
Definition satisfiedb (pb : ProtoboardT) (k : r1cs_constraint) : bool :=
  (Fr.mul (lc_val pb (a k)) (lc_val pb (b k)) =? lc_val pb (c k))%Z.
Definition entries_satisfiedb (pb : ProtoboardT) (es : list constraint_entry) : bool :=
  forallb (fun e => match e with
                    | Own k => satisfiedb pb k
                    | LightInstance _ _ => false
                    end) es.

(** * Properties *)

(** ** Field arithmetic *)

Lemma modulus_pos : (0 < Fr.modulus)%Z.
Proof. reflexivity. Qed.

Lemma size_in_bits_254 : Fr.size_in_bits = 254%N.
Proof. reflexivity. Qed.

Lemma canonical_add x y : canonical (Fr.add x y).
Proof. apply Zmod_mod. Qed.

Lemma canonical_mul x y : canonical (Fr.mul x y).
Proof. apply Zmod_mod. Qed.

Lemma canonical_zero : canonical Fr.zero.
Proof. reflexivity. Qed.

Lemma canonical_one : canonical Fr.one.
Proof. reflexivity. Qed.

Lemma add_zero_l x : canonical x -> Fr.add Fr.zero x = x.
Proof. intros H. unfold Fr.add, Fr.zero. exact H. Qed.

Lemma add_zero_r x : canonical x -> Fr.add x Fr.zero = x.
Proof. intros H. unfold Fr.add, Fr.zero. rewrite Z.add_0_r. exact H. Qed.

Lemma mul_one_l x : canonical x -> Fr.mul Fr.one x = x.
Proof. intros H. unfold Fr.mul, Fr.one. rewrite Z.mul_1_l. exact H. Qed.

Lemma mul_one_r x : canonical x -> Fr.mul x Fr.one = x.
Proof. intros H. unfold Fr.mul, Fr.one. rewrite Z.mul_1_r. exact H. Qed.

Lemma add_comm x y : Fr.add x y = Fr.add y x.
Proof. fr_ring. Qed.

Lemma mul_comm x y : Fr.mul x y = Fr.mul y x.
Proof. fr_ring. Qed.

Lemma add_assoc x y z : Fr.add x (Fr.add y z) = Fr.add (Fr.add x y) z.
Proof. fr_ring. Qed.

Lemma mul_add_distr_l x y z : Fr.mul x (Fr.add y z) = Fr.add (Fr.mul x y) (Fr.mul x z).
Proof. fr_ring. Qed.

(** ** Evaluation of linear combinations *)

Section Evaluation.

Variable pb : ProtoboardT.

Lemma lc_fold_acc (lc : linear_combination) (acc : FieldT) :
  canonical acc ->
  fold_left (fun sum lt => Fr.add sum (Fr.mul (coeff lt) (val pb (index lt)))) lc acc
  = Fr.add acc (lc_val pb lc).
Proof.
  revert acc. induction lc as [|lt lc IH]; intros acc Hacc.
  - symmetry. now apply add_zero_r.
  - unfold lc_val. simpl.
    rewrite !IH by apply canonical_add.
    generalize (lc_val pb lc) (val pb (index lt)). intros v w. fr_ring.
Qed.

Lemma lc_val_canonical (lc : linear_combination) : canonical (lc_val pb lc).
Proof.
  destruct lc as [|lt lc]; [reflexivity|].
  unfold lc_val. simpl. rewrite lc_fold_acc by apply canonical_add.
  apply canonical_add.
Qed.

Lemma lc_val_nil : lc_val pb [] = Fr.zero.
Proof. reflexivity. Qed.

Lemma lc_val_cons (lt : linear_term) (lc : linear_combination) :
  lc_val pb (lt :: lc) = Fr.add (Fr.mul (coeff lt) (val pb (index lt))) (lc_val pb lc).
Proof.
  unfold lc_val at 1. simpl.
  rewrite lc_fold_acc by apply canonical_add.
  f_equal. apply add_zero_l, canonical_mul.
Qed.

Lemma lc_val_app (l1 l2 : linear_combination) :
  lc_val pb (l1 ++ l2) = Fr.add (lc_val pb l1) (lc_val pb l2).
Proof.
  induction l1 as [|lt l1 IH]; simpl.
  - rewrite lc_val_nil. symmetry. apply add_zero_l, lc_val_canonical.
  - rewrite !lc_val_cons, IH. apply add_assoc.
Qed.

Lemma lc_val_add_term (lc : linear_combination) (v : VariableT) (k : FieldT) :
  lc_val pb (add_term lc v k) = Fr.add (lc_val pb lc) (Fr.mul k (val pb v)).
Proof.
  unfold add_term. rewrite lc_val_app, lc_val_cons, lc_val_nil. simpl.
  f_equal. apply add_zero_r, canonical_mul.
Qed.

Lemma lc_val_scale (lc : linear_combination) (k : FieldT) :
  lc_val pb (lc_scale lc k) = Fr.mul k (lc_val pb lc).
Proof.
  induction lc as [|lt lc IH]; simpl.
  - rewrite lc_val_nil. unfold Fr.mul, Fr.zero. now rewrite Z.mul_0_r.
  - rewrite !lc_val_cons, IH. simpl. fr_ring.
Qed.

Lemma lc_val_add (l1 l2 : linear_combination) :
  lc_val pb (lc_add l1 l2) = Fr.add (lc_val pb l1) (lc_val pb l2).
Proof.
  revert l2. induction l1 as [|t1 r1 IH1]; intros l2.
  - destruct l2; exact (eq_sym (add_zero_l _ (lc_val_canonical _))).
  - induction l2 as [|t2 r2 IH2].
    + exact (eq_sym (add_zero_r _ (lc_val_canonical _))).
    + simpl. destruct (index t1 <? index t2) eqn:H12.
      * rewrite lc_val_cons, IH1, !lc_val_cons. fr_ring.
      * destruct (index t2 <? index t1) eqn:H21.
        -- rewrite lc_val_cons. simpl in IH2. rewrite IH2, !lc_val_cons. fr_ring.
        -- apply Nat.ltb_ge in H12, H21.
           assert (index t2 = index t1) as Heq by lia.
           rewrite lc_val_cons, IH1, !lc_val_cons. simpl. rewrite Heq. fr_ring.
Qed.

Lemma lc_val_of_var (v : VariableT) : canonical (val pb v) -> lc_val pb (lc_of_var v) = val pb v.
Proof.
  intros H. unfold lc_of_var. rewrite lc_val_cons, lc_val_nil. simpl.
  rewrite add_zero_r by apply canonical_mul. now apply mul_one_l.
Qed.

Lemma lc_val_of_field (k : FieldT) : lc_val pb (lc_of_field k) = Fr.of_Z k.
Proof.
  unfold lc_of_field. rewrite lc_val_cons, lc_val_nil. simpl.
  rewrite add_zero_r by apply canonical_mul.
  unfold Fr.mul, Fr.one, Fr.of_Z. now rewrite Z.mul_1_r.
Qed.

End Evaluation.

(** ** Round gadget: the output rows *)

Lemma field_sum_canonical (l : list FieldT) : canonical (field_sum l).
Proof. destruct l; [reflexivity | apply canonical_add]. Qed.

Lemma fold_add_field_sum {A : Type} (h : A -> FieldT) (l : list A) (acc : FieldT) :
  canonical acc ->
  fold_left (fun acc j => Fr.add acc (h j)) l acc = Fr.add acc (field_sum (h <$> l)).
Proof.
  revert acc. induction l as [|x l IH]; intros acc Hacc; simpl.
  - symmetry. now apply add_zero_r.
  - rewrite IH by apply canonical_add. apply eq_sym, add_assoc.
Qed.

Section OutputRow.

Import Poseidon_Round.

Variables (p : params) (in_C_i : FieldT) (in_M : list FieldT).
Variables (in_state : list linear_combination) (in_sboxes : list FifthPower_gadget.t).
Variable i : nat.

Let M_offset : nat := i * param_t p.

Lemma constant_term_sum :
  constant_term p in_C_i in_M M_offset
  = field_sum ((fun j => Fr.mul in_C_i (M_at in_M (M_offset + j)))
                 <$> seq (nSBox p) (param_t p - nSBox p)).
Proof.
  unfold constant_term.
  rewrite (fold_add_field_sum (fun j => Fr.mul in_C_i (M_at in_M (M_offset + j))))
    by reflexivity.
  apply add_zero_l, field_sum_canonical.
Qed.

Lemma fold_add_term_app (f : nat -> linear_term) (l : list nat)
    (lc : linear_combination) :
  fold_left (fun lc s => add_term lc (index (f s)) (coeff (f s))) l lc = lc ++ (f <$> l).
Proof.
  revert lc. induction l as [|s l IH]; intros lc; simpl.
  - now rewrite app_nil_r.
  - rewrite IH. unfold add_term. rewrite <- app_assoc. simpl.
    now destruct (f s).
Qed.

Lemma make_output_shape :
  make_output p in_C_i in_M in_state in_sboxes i
  = fold_left
      (fun lc k => lc_add lc (lc_scale (state_at in_state k) (M_at in_M (M_offset + k))))
      (seq (nSBox p) (nInputs p - nSBox p))
      (constant_part p in_C_i in_M i ++ sbox_part p in_M in_sboxes i).
Proof.
  unfold make_output, constant_part, sbox_part. fold M_offset. f_equal.
  rewrite (fold_add_term_app
             (fun s => mk_term (FifthPower_gadget.result (sbox_at in_sboxes s))
                               (M_at in_M (M_offset + s)))).
  now destruct (nSBox p <? param_t p).
Qed.

Variable pb : ProtoboardT.

Lemma lc_val_fold_state (ks : list nat) (lc : linear_combination) :
  lc_val pb (fold_left
               (fun lc k => lc_add lc (lc_scale (state_at in_state k)
                                                (M_at in_M (M_offset + k)))) ks lc)
  = Fr.add (lc_val pb lc)
      (field_sum ((fun k => Fr.mul (M_at in_M (M_offset + k))
                                   (lc_val pb (state_at in_state k))) <$> ks)).
Proof.
  revert lc. induction ks as [|k ks IH]; intros lc; simpl.
  - symmetry. apply add_zero_r, lc_val_canonical.
  - rewrite IH, lc_val_add, lc_val_scale. apply eq_sym, add_assoc.
Qed.

Lemma lc_val_sbox_part :
  lc_val pb (sbox_part p in_M in_sboxes i)
  = field_sum ((fun s => Fr.mul (M_at in_M (M_offset + s))
                                (val pb (FifthPower_gadget.result (sbox_at in_sboxes s))))
                 <$> seq 0 (nSBox p)).
Proof.
  unfold sbox_part. fold M_offset.
  induction (seq 0 (nSBox p)) as [|s l IH]; [reflexivity|].
  rewrite !fmap_cons, lc_val_cons, IH. reflexivity.
Qed.

Lemma lc_val_constant_part :
  lc_val pb (constant_part p in_C_i in_M i) = constant_term p in_C_i in_M M_offset.
Proof.
  unfold constant_part. fold M_offset. destruct (nSBox p <? param_t p) eqn:Hlt.
  - rewrite lc_val_cons, lc_val_nil. simpl.
    rewrite add_zero_r by apply canonical_mul.
    apply mul_one_r. rewrite constant_term_sum. apply field_sum_canonical.
  - apply Nat.ltb_ge in Hlt. rewrite constant_term_sum.
    replace (param_t p - nSBox p) with 0 by lia. reflexivity.
Qed.

End OutputRow.

(** C3.  Output [i] of a round gadget with parameters [(t, nSBox, nInputs,
    nOutputs)] is the linear combination obtained by adding the scaled state
    entries [M[i*t+k] * state[k]], [k] in [[nSBox, nInputs)], to the terms
    [M[i*t+s] * sbox[s].result()], [s < nSBox], preceded by the constant
    term.  The constant term [sum_{j in [nSBox, t)} c_i * M[i*t+j]] is
    injected as one term on variable [0], and only when [nSBox < t].  Under
    every witness table the row evaluates to the sum of the three parts. *)
Theorem round_output_row (p : Poseidon_Round.params) (in_C_i : FieldT)
    (in_M : list FieldT) (in_state : list linear_combination)
    (in_sboxes : list FifthPower_gadget.t) (pb : ProtoboardT) (i : nat) :
  i < Poseidon_Round.nOutputs p ->
  let t := Poseidon_Round.param_t p in
  let nSBox := Poseidon_Round.nSBox p in
  let nInputs := Poseidon_Round.nInputs p in
  let row k := Poseidon_Round.M_at in_M (i * t + k) in
  let const_term := field_sum ((fun j => Fr.mul in_C_i (row j)) <$> seq nSBox (t - nSBox)) in
  exists out_i,
    Poseidon_Round.make_outputs p in_C_i in_M in_state in_sboxes !! i = Some out_i
    /\ out_i = fold_left
                 (fun lc k => lc_add lc (lc_scale (Poseidon_Round.state_at in_state k) (row k)))
                 (seq nSBox (nInputs - nSBox))
                 ((if nSBox <? t then [mk_term ONE const_term] else [])
                    ++ ((fun s => mk_term (FifthPower_gadget.result
                                             (Poseidon_Round.sbox_at in_sboxes s)) (row s))
                          <$> seq 0 nSBox))
    /\ lc_val pb out_i
       = Fr.add
           (Fr.add
              (field_sum ((fun s => Fr.mul (row s)
                                      (val pb (FifthPower_gadget.result
                                                 (Poseidon_Round.sbox_at in_sboxes s))))
                            <$> seq 0 nSBox))
              (field_sum ((fun k => Fr.mul (row k)
                                      (lc_val pb (Poseidon_Round.state_at in_state k)))
                            <$> seq nSBox (nInputs - nSBox))))
           const_term.
Proof.
  intros Hi t nSBox nInputs row const_term.
  exists (Poseidon_Round.make_output p in_C_i in_M in_state in_sboxes i).
  assert (Hc : Poseidon_Round.constant_term p in_C_i in_M (i * t) = const_term)
    by apply constant_term_sum.
  split; [|split].
  - unfold Poseidon_Round.make_outputs.
    rewrite list_lookup_fmap, lookup_seq_lt by exact Hi. reflexivity.
  - rewrite make_output_shape.
    unfold Poseidon_Round.constant_part, Poseidon_Round.sbox_part.
    fold t nSBox. rewrite Hc. reflexivity.
  - rewrite make_output_shape, lc_val_fold_state, lc_val_app.
    rewrite lc_val_constant_part, lc_val_sbox_part.
    subst row t nSBox nInputs. cbv beta in *. rewrite Hc.
    generalize const_term. intros k. abstract_sums. fr_ring.
Qed.

(** ** Allocation *)

Lemma make_variable_spec (pb : ProtoboardT) :
  make_variable pb
  = (S (num_variables pb), mk_pb (values pb ++ [Fr.zero]) (constraints pb)).
Proof. reflexivity. Qed.

Lemma make_var_array_spec (n : nat) (pb : ProtoboardT) :
  make_var_array pb n
  = (seq (S (num_variables pb)) n,
     mk_pb (values pb ++ replicate n Fr.zero) (constraints pb)).
Proof.
  revert pb. induction n as [|n IH]; intros pb; simpl.
  - rewrite app_nil_r. now destruct pb.
  - rewrite IH. simpl. unfold num_variables. simpl.
    rewrite length_app, <- app_assoc. simpl.
    replace (length (values pb) + 1) with (S (length (values pb))) by lia.
    reflexivity.
Qed.

Lemma FifthPower_ctor_spec (pb : ProtoboardT) :
  FifthPower_gadget.ctor pb
  = (FifthPower_gadget.mk (num_variables pb + 1) (num_variables pb + 2) (num_variables pb + 3),
     mk_pb (values pb ++ replicate 3 Fr.zero) (constraints pb)).
Proof.
  unfold FifthPower_gadget.ctor, make_variable, num_variables. simpl.
  rewrite !length_app. simpl. rewrite <- !app_assoc. simpl.
  repeat f_equal; lia.
Qed.

Lemma sboxes_from_S (base n : nat) :
  Poseidon_Round.sboxes_from base (S n)
  = FifthPower_gadget.mk (base + 1) (base + 2) (base + 3)
      :: Poseidon_Round.sboxes_from (base + 3) n.
Proof.
  unfold Poseidon_Round.sboxes_from. simpl seq. rewrite fmap_cons.
  f_equal; [f_equal; lia|].
  rewrite <- fmap_S_seq, <- list_fmap_compose.
  apply list_fmap_ext. intros _ h _. simpl. f_equal; lia.
Qed.

Lemma make_sboxes_spec (n : nat) (pb : ProtoboardT) :
  Poseidon_Round.make_sboxes n pb
  = (Poseidon_Round.sboxes_from (num_variables pb) n,
     mk_pb (values pb ++ replicate (3 * n) Fr.zero) (constraints pb)).
Proof.
  revert pb. induction n as [|n IH]; intros pb.
  - simpl. rewrite app_nil_r. now destruct pb.
  - cbn [Poseidon_Round.make_sboxes]. rewrite FifthPower_ctor_spec, IH, sboxes_from_S.
    unfold num_variables. cbn [values constraints]. rewrite length_app. cbn [length replicate].
    rewrite <- app_assoc.
    replace (3 * S n) with (3 + 3 * n) by lia. rewrite replicate_add.
    reflexivity.
Qed.

(** ** Construction of a round *)

Lemma Round_ctor_spec (p : Poseidon_Round.params) (pb : ProtoboardT) (in_C_i : FieldT)
    (in_M : list FieldT) (in_state : list linear_combination) :
  Poseidon_Round.ctor p pb in_C_i in_M in_state
  = if Poseidon_Round.nInputs p <=? Poseidon_Round.param_t p
    then if Poseidon_Round.nOutputs p <=? Poseidon_Round.param_t p
         then Ok (Poseidon_Round.built p (num_variables pb) in_C_i in_M in_state,
                  mk_pb (values pb ++ replicate (3 * Poseidon_Round.nSBox p) Fr.zero)
                        (constraints pb))
         else AssertFail "nOutputs <= param_t"
    else AssertFail "nInputs <= param_t".
Proof.
  unfold Poseidon_Round.ctor. rewrite make_sboxes_spec.
  destruct (Poseidon_Round.nInputs p <=? Poseidon_Round.param_t p);
    destruct (Poseidon_Round.nOutputs p <=? Poseidon_Round.param_t p); reflexivity.
Qed.

Lemma vec_at_lt {A : Type} (v : list A) (i : nat) (d : A) :
  i < length v -> vec_at v i = Ok (default d (v !! i)).
Proof.
  intros H. unfold vec_at. destruct (lookup_lt_is_Some_2 v i H) as [x ->]. reflexivity.
Qed.

Lemma vec_at_Ok {A : Type} (v : list A) (i : nat) (x : A) :
  vec_at v i = Ok x -> v !! i = Some x.
Proof. unfold vec_at. destruct (v !! i); [congruence|discriminate]. Qed.

Lemma vec_back_snoc {A : Type} (v : list A) (x : A) : vec_back (v ++ [x]) = Ok x.
Proof. unfold vec_back. now rewrite last_snoc. Qed.

Lemma vec_back_nonempty {A : Type} (v : list A) (d : A) :
  0 < length v -> vec_back v = Ok (default d (last v)).
Proof.
  intros H. unfold vec_back. destruct v as [|x v] using rev_ind; [simpl in H; lia|].
  now rewrite last_snoc.
Qed.

(** ** Construction of the master gadget *)

Section MakeRounds.

Import Master_Poseidon_gadget_T.

Variables (T : Poseidon_Round.params) (n_begin : nat).
Variables (inputs : list linear_combination) (consts : PoseidonConstants).
Hypothesis T_inputs : Poseidon_Round.nInputs T <= Poseidon_Round.param_t T.
Hypothesis T_outputs : Poseidon_Round.nOutputs T <= Poseidon_Round.param_t T.

Lemma make_rounds_loop_spec (count : nat) :
  forall (i : nat) (rounds : list Poseidon_Round.t) (pb : ProtoboardT)
         (st : list linear_combination),
    i + count <= length (C consts) ->
    n_begin <= i ->
    (if i =? n_begin then st = inputs
     else exists prev, last rounds = Some prev /\ st = Poseidon_Round.outputs prev) ->
    make_rounds_loop T n_begin inputs consts count i rounds pb
    = Ok (rounds ++ rounds_from T consts count i (num_variables pb) st,
          mk_pb (values pb ++ replicate (3 * Poseidon_Round.nSBox T * count) Fr.zero)
                (constraints pb)).
Proof.
  induction count as [|count IH]; intros i rounds pb st Hlen Hi Hst.
  - simpl. rewrite Nat.mul_0_r, !app_nil_r. now destruct pb.
  - cbn [make_rounds_loop rounds_from].
    assert (Hstate :
      (if i =? n_begin then mret inputs
       else prev ← vec_back rounds; mret (Poseidon_Round.outputs prev)) = Ok st).
    { destruct (i =? n_begin); [now subst|].
      destruct Hst as (prev & Hlast & ->). unfold vec_back. now rewrite Hlast. }
    rewrite Hstate. cbn [mbind outcome_bind].
    rewrite (vec_at_lt _ _ Fr.zero) by lia. cbn [mbind outcome_bind].
    rewrite Round_ctor_spec.
    destruct (Nat.leb_spec (Poseidon_Round.nInputs T) (Poseidon_Round.param_t T)); [|lia].
    destruct (Nat.leb_spec (Poseidon_Round.nOutputs T) (Poseidon_Round.param_t T)); [|lia].
    cbn [mbind outcome_bind].
    rewrite (IH (S i) _ _ (Poseidon_Round.outputs
                             (Poseidon_Round.built T (num_variables pb)
                                (C_at consts i) (M consts) st))).
    + unfold num_variables. cbn [values constraints].
      rewrite length_app, length_replicate, <- !app_assoc, <- replicate_add.
      cbn [app]. fold (C_at consts i).
      repeat f_equal. lia.
    + lia.
    + lia.
    + destruct (Nat.eqb_spec (S i) n_begin); [lia|].
      eexists. rewrite last_snoc. split; reflexivity.
Qed.

Lemma make_rounds_spec (n_end : nat) (pb : ProtoboardT) :
  n_begin <= n_end ->
  n_end <= length (C consts) ->
  make_rounds T n_begin n_end pb inputs consts
  = Ok (rounds_from T consts (n_end - n_begin) n_begin (num_variables pb) inputs,
        mk_pb (values pb ++ replicate (3 * Poseidon_Round.nSBox T * (n_end - n_begin)) Fr.zero)
              (constraints pb)).
Proof.
  intros Hle H. unfold make_rounds.
  rewrite (make_rounds_loop_spec _ _ _ _ inputs); [reflexivity|lia|lia|].
  now rewrite Nat.eqb_refl.
Qed.

End MakeRounds.

Lemma rounds_from_length T consts count i base st :
  length (Master_Poseidon_gadget_T.rounds_from T consts count i base st) = count.
Proof.
  revert i base st. induction count as [|count IH]; intros; simpl; [|rewrite IH]; reflexivity.
Qed.

Lemma vec_back_chain_outputs (rs : list Poseidon_Round.t) (st : list linear_combination) :
  0 < length rs ->
  exists r, vec_back rs = Ok r
            /\ Poseidon_Round.outputs r = Poseidon_Round.chain_outputs st rs.
Proof.
  intros H. destruct rs as [|x rs] using rev_ind; [simpl in H; lia|].
  exists x. unfold Poseidon_Round.chain_outputs. rewrite vec_back_snoc, last_snoc. auto.
Qed.

Section MasterConstruction.

Import Master_Poseidon_gadget_T.

Variables (p : params) (consts : PoseidonConstants).
Hypothesis F_ge_4 : 4 <= param_F p.
Hypothesis P_ge_1 : 1 <= param_P p.
Hypothesis C_length : length (C consts) = param_F p + param_P p.

Lemma partial_begin_bounds : 2 <= partial_begin p /\ 2 * partial_begin p <= param_F p.
Proof.
  unfold partial_begin. split.
  - change 2 with (4 / 2) at 1. apply Nat.Div0.div_le_mono. exact F_ge_4.
  - apply Nat.Div0.mul_div_le.
Qed.

(** The constructor once the first round has passed its assertions: the
    object and the protoboard it leaves, or the assertion of the last
    round. *)
Lemma Master_ctor_cases (pb : ProtoboardT) (in_inputs : VariableArrayT) :
  nInputs p <= param_t p ->
  ctor p consts pb in_inputs
  = if nOutputs p <=? param_t p
    then Ok (layout p consts (num_variables pb) in_inputs,
             mk_pb (values pb ++ replicate (allocated p) Fr.zero) (constraints pb))
    else AssertFail "nOutputs <= param_t".
Proof.
  intros Hin.
  pose proof partial_begin_bounds as [Hpb2 HpbF].
  assert (Hend : partial_end p - partial_begin p = param_P p)
    by (unfold partial_end; lia).
  unfold ctor.
  rewrite (vec_at_lt _ _ Fr.zero) by lia. cbn [mbind outcome_bind].
  rewrite Round_ctor_spec. cbn [FirstRoundT Poseidon_Round.nInputs
    Poseidon_Round.nOutputs Poseidon_Round.param_t Poseidon_Round.nSBox].
  destruct (Nat.leb_spec (nInputs p) (param_t p)); [|lia].
  rewrite Nat.leb_refl. cbn [mbind outcome_bind].
  rewrite make_rounds_spec; cbn [FullRoundT Poseidon_Round.nInputs
    Poseidon_Round.nOutputs Poseidon_Round.param_t Poseidon_Round.nSBox];
    [|lia|lia|lia|unfold partial_begin in *; lia].
  cbn [mbind outcome_bind].
  match goal with |- context [vec_back ?rs] =>
    destruct (vec_back_chain_outputs rs []) as (r1 & -> & Hr1);
      [rewrite rounds_from_length; lia|] end.
  cbn [mbind outcome_bind]. rewrite Hr1.
  rewrite make_rounds_spec; cbn [PartialRoundT Poseidon_Round.nInputs
    Poseidon_Round.nOutputs Poseidon_Round.param_t Poseidon_Round.nSBox];
    [|lia|lia|unfold partial_end; lia|unfold partial_end, partial_begin in *; lia].
  cbn [mbind outcome_bind].
  match goal with |- context [vec_back ?rs] =>
    destruct (vec_back_chain_outputs rs []) as (r2 & -> & Hr2);
      [rewrite rounds_from_length; lia|] end.
  cbn [mbind outcome_bind]. rewrite Hr2.
  rewrite make_rounds_spec; cbn [FullRoundT Poseidon_Round.nInputs
    Poseidon_Round.nOutputs Poseidon_Round.param_t Poseidon_Round.nSBox];
    [|lia|lia|unfold partial_end, total_rounds, partial_begin in *; lia
     |unfold total_rounds; lia].
  cbn [mbind outcome_bind].
  match goal with |- context [vec_back ?rs] =>
    destruct (vec_back_chain_outputs rs []) as (r3 & -> & Hr3);
      [rewrite rounds_from_length; unfold partial_end, total_rounds in *; lia|] end.
  cbn [mbind outcome_bind]. rewrite Hr3.
  rewrite (vec_back_nonempty _ Fr.zero) by lia. cbn [mbind outcome_bind].
  rewrite Round_ctor_spec. cbn [LastRoundT Poseidon_Round.nInputs
    Poseidon_Round.nOutputs Poseidon_Round.param_t Poseidon_Round.nSBox].
  rewrite Nat.leb_refl.
  destruct (Nat.leb_spec (nOutputs p) (param_t p)); [|reflexivity].
  cbn [mbind outcome_bind mret outcome_ret].
  clear Hr1 Hr2 Hr3 r1 r2 r3.
  assert (Hsum : exists a b, partial_begin p - 1 = a
                             /\ total_rounds p - 1 - partial_end p = b
                             /\ param_F p = a + b + 2).
  { eexists _, _. split; [reflexivity|split; [reflexivity|]].
    unfold total_rounds, partial_end. lia. }
  destruct Hsum as (a & b & Ha & Hb & HF).
  unfold layout, allocated, num_variables.
  destruct (constrainOutputs p).
  - rewrite make_var_array_spec. unfold num_variables. cbn [values constraints].
    rewrite !length_app, !length_replicate, <- !app_assoc, <- !replicate_add, Hend.
    fold (C_at consts 0).
    match goal with |- context [values pb ++ replicate ?n Fr.zero] =>
      replace n with (3 * (param_t p * param_F p + param_c p * param_P p) + nOutputs p)
        by (rewrite Ha, Hb, HF; lia) end.
    reflexivity.
  - cbn [values constraints].
    rewrite !length_app, !length_replicate, <- !app_assoc, <- !replicate_add, Hend.
    fold (C_at consts 0).
    match goal with |- context [values pb ++ replicate ?n Fr.zero] =>
      replace n with (3 * (param_t p * param_F p + param_c p * param_P p) + 0)
        by (rewrite Ha, Hb, HF; lia) end.
    reflexivity.
Qed.

Lemma Master_ctor_spec (pb : ProtoboardT) (in_inputs : VariableArrayT) :
  nInputs p <= param_t p ->
  nOutputs p <= param_t p ->
  ctor p consts pb in_inputs
  = Ok (layout p consts (num_variables pb) in_inputs,
        mk_pb (values pb ++ replicate (allocated p) Fr.zero) (constraints pb)).
Proof.
  intros Hin Hout. rewrite Master_ctor_cases by exact Hin.
  destruct (Nat.leb_spec (nOutputs p) (param_t p)); [reflexivity|lia].
Qed.

End MasterConstruction.

(** ** Constraint emission *)

Lemma FifthPower_constraints_spec (g : FifthPower_gadget.t) (pb : ProtoboardT)
    (x : linear_combination) :
  FifthPower_gadget.generate_r1cs_constraints g pb x
  = mk_pb (values pb) (constraints pb ++ (Own <$> FifthPower_gadget.emitted g x)).
Proof.
  unfold FifthPower_gadget.generate_r1cs_constraints, add_r1cs_constraint.
  cbn [values constraints]. now rewrite <- !app_assoc.
Qed.

Lemma fold_emit {A : Type} (f : A -> list r1cs_constraint)
    (step : ProtoboardT -> A -> ProtoboardT) (l : list A) :
  (forall pb x, step pb x = mk_pb (values pb) (constraints pb ++ (Own <$> f x))) ->
  forall pb, fold_left step l pb
             = mk_pb (values pb) (constraints pb ++ (Own <$> flat_map f l)).
Proof.
  intros Hstep. induction l as [|x l IH]; intros pb; simpl.
  - rewrite app_nil_r. now destruct pb.
  - rewrite IH, Hstep. cbn [values constraints].
    now rewrite fmap_app, app_assoc.
Qed.

Lemma Round_constraints_spec (r : Poseidon_Round.t) (pb : ProtoboardT) :
  Poseidon_Round.generate_r1cs_constraints r pb
  = mk_pb (values pb) (constraints pb ++ (Own <$> Poseidon_Round.emitted r)).
Proof.
  unfold Poseidon_Round.generate_r1cs_constraints, Poseidon_Round.emitted.
  apply fold_emit. intros pb' h. unfold Poseidon_Round.sbox_input.
  destruct (h <? _); apply FifthPower_constraints_spec.
Qed.

Lemma constrain_outputs_spec (m : Master_Poseidon_gadget_T.t) (pb : ProtoboardT) :
  Master_Poseidon_gadget_T.constrain_outputs m pb
  = mk_pb (values pb)
          (constraints pb ++ (Own <$> Master_Poseidon_gadget_T.output_constraints m)).
Proof.
  unfold Master_Poseidon_gadget_T.constrain_outputs,
    Master_Poseidon_gadget_T.output_constraints.
  generalize 0 (Poseidon_Round.outputs (Master_Poseidon_gadget_T.last_round m)).
  intros i outs. revert i pb.
  induction outs as [|lc outs IH]; intros i pb; simpl.
  - rewrite app_nil_r. now destruct pb.
  - rewrite IH. unfold add_r1cs_constraint. cbn [values constraints].
    now rewrite <- app_assoc.
Qed.

Lemma Master_constraints_spec (m : Master_Poseidon_gadget_T.t) (pb : ProtoboardT) :
  Master_Poseidon_gadget_T.generate_r1cs_constraints m pb
  = mk_pb (values pb) (constraints pb ++ (Own <$> Master_Poseidon_gadget_T.emitted m)).
Proof.
  unfold Master_Poseidon_gadget_T.generate_r1cs_constraints,
    Master_Poseidon_gadget_T.emitted, Master_Poseidon_gadget_T.rounds.
  rewrite !(fold_emit Poseidon_Round.emitted) by (intros; apply Round_constraints_spec).
  rewrite !Round_constraints_spec. cbn [values constraints flat_map].
  rewrite !flat_map_app. cbn [flat_map]. rewrite app_nil_r.
  destruct (Master_Poseidon_gadget_T.constrainOutputs _).
  - rewrite constrain_outputs_spec. cbn [values constraints].
    now rewrite !fmap_app, <- !app_assoc.
  - now rewrite app_nil_r, !fmap_app, <- !app_assoc.
Qed.

Lemma length_flat_map_const {A B : Type} (f : A -> list B) (k : nat) (l : list A) :
  (forall x, length (f x) = k) -> length (flat_map f l) = k * length l.
Proof.
  intros Hf. induction l as [|x l IH]; simpl; [lia|].
  rewrite length_app, IH, Hf. lia.
Qed.

Lemma Round_emitted_length (r : Poseidon_Round.t) :
  length (Poseidon_Round.emitted r) = 3 * Poseidon_Round.nSBox (Poseidon_Round.tparams r).
Proof.
  unfold Poseidon_Round.emitted.
  rewrite (length_flat_map_const _ 3) by reflexivity. now rewrite length_seq.
Qed.

Lemma rounds_from_emitted_length T consts count i base st :
  length (flat_map Poseidon_Round.emitted
            (Master_Poseidon_gadget_T.rounds_from T consts count i base st))
  = 3 * Poseidon_Round.nSBox T * count.
Proof.
  revert i base st. induction count as [|count IH]; intros i base st.
  - simpl. lia.
  - cbn [Master_Poseidon_gadget_T.rounds_from flat_map].
    rewrite length_app, IH, Round_emitted_length. cbn. lia.
Qed.

Lemma output_constraints_from_length vars lcs i :
  length (Master_Poseidon_gadget_T.output_constraints_from vars lcs i) = length lcs.
Proof. revert i. induction lcs as [|lc lcs IH]; intros i; simpl; [|rewrite IH]; reflexivity. Qed.

Lemma make_outputs_length p in_C_i in_M in_state in_sboxes :
  length (Poseidon_Round.make_outputs p in_C_i in_M in_state in_sboxes)
  = Poseidon_Round.nOutputs p.
Proof. unfold Poseidon_Round.make_outputs. now rewrite length_fmap, length_seq. Qed.

(** The number of constraints of the gadget the constructor returns. *)
Section LayoutCount.

Import Master_Poseidon_gadget_T.

Variables (p : params) (consts : PoseidonConstants) (base : nat).
Variable in_inputs : VariableArrayT.
Hypothesis F_ge_4 : 4 <= param_F p.

Lemma layout_output_constraints_length :
  length (output_constraints (layout p consts base in_inputs)) = nOutputs p.
Proof.
  unfold output_constraints. rewrite output_constraints_from_length.
  cbn [layout last_round Poseidon_Round.built Poseidon_Round.outputs].
  now rewrite make_outputs_length.
Qed.

Lemma layout_rounds_emitted_length :
  length (flat_map Poseidon_Round.emitted (rounds (layout p consts base in_inputs)))
  = 3 * (param_t p * param_F p + param_c p * param_P p).
Proof.
  unfold rounds.
  cbn [layout first_round prefix_full_rounds partial_rounds suffix_full_rounds
       last_round flat_map].
  rewrite !length_app, !flat_map_app, !length_app, !rounds_from_emitted_length.
  cbn [flat_map]. rewrite !length_app, !Round_emitted_length. cbn [length].
  cbn [Poseidon_Round.built Poseidon_Round.tparams Poseidon_Round.nSBox
       FirstRoundT FullRoundT PartialRoundT LastRoundT].
  pose proof (Nat.Div0.mul_div_le (param_F p) 2) as Hdiv.
  assert (2 <= param_F p / 2)
    by (change 2 with (4 / 2) at 1; now apply Nat.Div0.div_le_mono).
  unfold total_rounds, partial_end, partial_begin in *.
  set (h := param_F p / 2) in *.
  replace (param_F p + param_P p - 1 - (h + param_P p))
    with (param_F p - 1 - h) by lia.
  assert (exists a b, h - 1 = a /\ param_F p - 1 - h = b /\ param_F p = a + b + 2)
    as (a & b & -> & -> & ->) by (eexists _, _; repeat split; lia).
  lia.
Qed.

Lemma layout_emitted_length :
  length (emitted (layout p consts base in_inputs))
  = 3 * (param_t p * param_F p + param_c p * param_P p)
    + (if constrainOutputs p then nOutputs p else 0).
Proof.
  unfold emitted. rewrite length_app, layout_rounds_emitted_length.
  change (tparams (layout p consts base in_inputs)) with p.
  destruct (constrainOutputs p); [|reflexivity].
  now rewrite layout_output_constraints_length.
Qed.

End LayoutCount.

(** ** The master gadget: rounds, constraints, assertions *)

(** C2.  With [constrain_outputs = true] the master gadget's
    [generate_r1cs_constraints] appends exactly
    [3 * (t*F + c*P) + nOutputs] constraints. *)
Theorem master_constraint_count (p : Master_Poseidon_gadget_T.params)
    (consts : PoseidonConstants) (pb : ProtoboardT) (in_inputs : VariableArrayT) :
  4 <= Master_Poseidon_gadget_T.param_F p ->
  1 <= Master_Poseidon_gadget_T.param_P p ->
  Master_Poseidon_gadget_T.nInputs p <= Master_Poseidon_gadget_T.param_t p ->
  Master_Poseidon_gadget_T.nOutputs p <= Master_Poseidon_gadget_T.param_t p ->
  length (C consts)
    = Master_Poseidon_gadget_T.param_F p + Master_Poseidon_gadget_T.param_P p ->
  Master_Poseidon_gadget_T.constrainOutputs p = true ->
  exists m pb',
    Master_Poseidon_gadget_T.ctor p consts pb in_inputs = Ok (m, pb')
    /\ length (constraints (Master_Poseidon_gadget_T.generate_r1cs_constraints m pb'))
       = length (constraints pb')
         + (3 * (Master_Poseidon_gadget_T.param_t p * Master_Poseidon_gadget_T.param_F p
                 + Master_Poseidon_gadget_T.param_c p * Master_Poseidon_gadget_T.param_P p)
            + Master_Poseidon_gadget_T.nOutputs p).
Proof.
  intros HF HP Hin Hout HC Hco.
  eexists _, _. split; [now apply Master_ctor_spec|].
  rewrite Master_constraints_spec. cbn [constraints].
  rewrite length_app, length_fmap, layout_emitted_length by exact HF.
  now rewrite Hco.
Qed.

(** C6, as the code has it.  The master gadget owns one first round,
    [F/2 - 1] full prefix rounds, [P] partial rounds, [F - F/2 - 1] full
    suffix rounds, that is [F/2 - 1] when [F] is even, and one last round;
    these are [F + P] rounds in all. *)
Theorem master_round_counts (p : Master_Poseidon_gadget_T.params)
    (consts : PoseidonConstants) (pb : ProtoboardT) (in_inputs : VariableArrayT) :
  4 <= Master_Poseidon_gadget_T.param_F p ->
  1 <= Master_Poseidon_gadget_T.param_P p ->
  Master_Poseidon_gadget_T.nInputs p <= Master_Poseidon_gadget_T.param_t p ->
  Master_Poseidon_gadget_T.nOutputs p <= Master_Poseidon_gadget_T.param_t p ->
  length (C consts)
    = Master_Poseidon_gadget_T.param_F p + Master_Poseidon_gadget_T.param_P p ->
  let F := Master_Poseidon_gadget_T.param_F p in
  let P := Master_Poseidon_gadget_T.param_P p in
  exists m pb',
    Master_Poseidon_gadget_T.ctor p consts pb in_inputs = Ok (m, pb')
    /\ length (Master_Poseidon_gadget_T.prefix_full_rounds m) = F / 2 - 1
    /\ length (Master_Poseidon_gadget_T.partial_rounds m) = P
    /\ length (Master_Poseidon_gadget_T.suffix_full_rounds m) = F - F / 2 - 1
    /\ (Nat.even F = true ->
        length (Master_Poseidon_gadget_T.suffix_full_rounds m) = F / 2 - 1)
    /\ length (Master_Poseidon_gadget_T.rounds m) = F + P
    /\ length (Master_Poseidon_gadget_T.rounds m)
       = 1 + length (Master_Poseidon_gadget_T.prefix_full_rounds m)
         + length (Master_Poseidon_gadget_T.partial_rounds m)
         + length (Master_Poseidon_gadget_T.suffix_full_rounds m) + 1.
Proof.
  intros HF HP Hin Hout HC F P.
  eexists _, _. split; [now apply Master_ctor_spec|].
  unfold Master_Poseidon_gadget_T.rounds.
  cbn [Master_Poseidon_gadget_T.layout Master_Poseidon_gadget_T.prefix_full_rounds
       Master_Poseidon_gadget_T.partial_rounds Master_Poseidon_gadget_T.suffix_full_rounds
       Master_Poseidon_gadget_T.first_round Master_Poseidon_gadget_T.last_round length].
  rewrite !length_app, !rounds_from_length. cbn [length].
  unfold Master_Poseidon_gadget_T.total_rounds, Master_Poseidon_gadget_T.partial_end,
    Master_Poseidon_gadget_T.partial_begin. fold F P.
  pose proof (Nat.Div0.mul_div_le F 2) as Hdiv.
  assert (2 <= F / 2) by (change 2 with (4 / 2) at 1; now apply Nat.Div0.div_le_mono).
  repeat split; try lia.
  intros Heven. apply Nat.even_spec in Heven. destruct Heven as [k Hk].
  rewrite Hk, Nat.mul_comm, Nat.div_mul by lia. lia.
Qed.

(** The matrix entries a round reads: in row [i], every column [j] below
    the largest of [param_t], [nSBox] and [nInputs]. *)
Lemma M_reads_spec (p : Poseidon_Round.params) (x : nat) :
  In x (Poseidon_Round.M_reads p)
  <-> exists i j,
        i < Poseidon_Round.nOutputs p
        /\ (j < Poseidon_Round.param_t p \/ j < Poseidon_Round.nSBox p
            \/ j < Poseidon_Round.nInputs p)
        /\ x = i * Poseidon_Round.param_t p + j.
Proof.
  unfold Poseidon_Round.M_reads. rewrite in_flat_map. split.
  - intros (i & Hi & Hx). apply in_seq in Hi. cbv zeta in Hx.
    rewrite !in_app_iff, <- !list_elem_of_In, !list_elem_of_fmap in Hx.
    destruct Hx as [(j & -> & Hj)|[(j & -> & Hj)|(j & -> & Hj)]];
      apply elem_of_seq in Hj; exists i, j; (split; [lia|split; [lia|reflexivity]]).
  - intros (i & j & Hi & Hj & ->). exists i. split; [apply in_seq; lia|].
    cbv zeta. rewrite !in_app_iff, <- !list_elem_of_In, !list_elem_of_fmap.
    destruct (Nat.lt_ge_cases j (Poseidon_Round.nSBox p)) as [Hs|Hs].
    + right. left. exists j. split; [reflexivity|]. apply elem_of_seq. lia.
    + destruct (Nat.lt_ge_cases j (Poseidon_Round.param_t p)) as [Ht|Ht].
      * left. exists j. split; [reflexivity|]. apply elem_of_seq. lia.
      * right. right. exists j. split; [reflexivity|]. apply elem_of_seq. lia.
Qed.

Lemma reads_in_range_M (p : Poseidon_Round.params) (in_M : list FieldT)
    (in_state : list linear_combination) :
  Poseidon_Round.reads_in_range p in_M in_state = true ->
  forall i j,
    i < Poseidon_Round.nOutputs p ->
    j < Poseidon_Round.param_t p \/ j < Poseidon_Round.nSBox p
    \/ j < Poseidon_Round.nInputs p ->
    i * Poseidon_Round.param_t p + j < length in_M.
Proof.
  unfold Poseidon_Round.reads_in_range. intros H i j Hi Hj.
  apply andb_prop in H. destruct H as [H _].
  rewrite forallb_forall in H. apply Nat.ltb_lt, H, M_reads_spec.
  exists i, j. auto.
Qed.

(** With the [t*t] matrix of [poseidon_params], the rounds the master
    builds read it within bounds exactly when [nInputs <= t], [c <= t] and
    [nOutputs <= t]. *)
Lemma master_M_reads_in_range (p : Master_Poseidon_gadget_T.params)
    (consts : PoseidonConstants) :
  let t := Master_Poseidon_gadget_T.param_t p in
  1 <= t ->
  length (M consts) = t * t ->
  Forall (fun T => Forall (fun i => i < length (M consts)) (Poseidon_Round.M_reads T))
         [Master_Poseidon_gadget_T.FirstRoundT p; Master_Poseidon_gadget_T.FullRoundT p;
          Master_Poseidon_gadget_T.PartialRoundT p; Master_Poseidon_gadget_T.LastRoundT p]
  <-> Master_Poseidon_gadget_T.nInputs p <= t
      /\ Master_Poseidon_gadget_T.param_c p <= t
      /\ Master_Poseidon_gadget_T.nOutputs p <= t.
Proof.
  intros t Ht HM. rewrite !Forall_cons, Forall_nil, !Forall_forall.
  setoid_rewrite list_elem_of_In. setoid_rewrite M_reads_spec. rewrite HM.
  cbn [Master_Poseidon_gadget_T.FirstRoundT Master_Poseidon_gadget_T.FullRoundT
       Master_Poseidon_gadget_T.PartialRoundT Master_Poseidon_gadget_T.LastRoundT
       Poseidon_Round.param_t Poseidon_Round.nSBox Poseidon_Round.nInputs
       Poseidon_Round.nOutputs].
  fold t. split.
  - intros (Hfirst & _ & Hpartial & Hlast & _). repeat split.
    + destruct (Nat.le_gt_cases (Master_Poseidon_gadget_T.nInputs p) t) as [|Hgt];
        [assumption|].
      assert (Hlt : (t - 1) * t + t < t * t)
        by (apply Hfirst; exists (t - 1), t; repeat split; lia).
      nia.
    + destruct (Nat.le_gt_cases (Master_Poseidon_gadget_T.param_c p) t) as [|Hgt];
        [assumption|].
      assert (Hlt : (t - 1) * t + t < t * t)
        by (apply Hpartial; exists (t - 1), t; repeat split; lia).
      nia.
    + destruct (Nat.le_gt_cases (Master_Poseidon_gadget_T.nOutputs p) t) as [|Hgt];
        [assumption|].
      assert (Hlt : t * t + 0 < t * t)
        by (apply Hlast; exists t, 0; repeat split; lia).
      lia.
  - intros (Hin & Hc & Hout).
    repeat split; try exact I; intros x (i & j & Hi & Hj & ->); nia.
Qed.

(** C9, as the code has it.  The constructor of a round builds its S-boxes
    and its output rows first; the two assertions of its body, whose
    diagnostics are the violated preconditions, run after that.  Where the
    rows have read [in_M] and [in_state] within their bounds, construction
    stops with the diagnostic of [nInputs <= param_t] when [nInputs > t],
    with that of [nOutputs <= param_t] when [nInputs <= t < nOutputs], and
    returns the round otherwise: no other assertion exists, and all of
    this happens in the constructor.  With a matrix of [t*t] entries the
    reads stay within bounds only if [nOutputs <= t], and for a round of
    [t] outputs only if also [nInputs <= t] and [nSBox <= t]. *)
Theorem round_ctor_assertions (p : Poseidon_Round.params) (pb : ProtoboardT)
    (in_C_i : FieldT) (in_M : list FieldT) (in_state : list linear_combination) :
  Poseidon_Round.reads_in_range p in_M in_state = true ->
  let t := Poseidon_Round.param_t p in
  let nSBox := Poseidon_Round.nSBox p in
  let nInputs := Poseidon_Round.nInputs p in
  let nOutputs := Poseidon_Round.nOutputs p in
  let built := Poseidon_Round.ctor p pb in_C_i in_M in_state in
  (t < nInputs -> built = AssertFail "nInputs <= param_t")
  /\ (nInputs <= t -> t < nOutputs -> built = AssertFail "nOutputs <= param_t")
  /\ (nInputs <= t -> nOutputs <= t -> exists r pb', built = Ok (r, pb'))
  /\ ((exists diagnostic, built = AssertFail diagnostic) <-> t < nInputs \/ t < nOutputs)
  /\ (1 <= t -> length in_M = t * t ->
      nOutputs <= t /\ (nOutputs = t -> nInputs <= t /\ nSBox <= t)).
Proof.
  intros Hrange t nSBox nInputs nOutputs built.
  assert (Hbuilt : built
    = if nInputs <=? t
      then if nOutputs <=? t
           then Ok (Poseidon_Round.built p (num_variables pb) in_C_i in_M in_state,
                    mk_pb (values pb ++ replicate (3 * Poseidon_Round.nSBox p) Fr.zero)
                          (constraints pb))
           else AssertFail "nOutputs <= param_t"
      else AssertFail "nInputs <= param_t")
    by apply Round_ctor_spec.
  pose proof (reads_in_range_M p in_M in_state Hrange) as HM.
  fold t nSBox nInputs nOutputs in HM.
  clearbody built. subst built.
  assert (Hshape : 1 <= t -> length in_M = t * t ->
                   nOutputs <= t /\ (nOutputs = t -> nInputs <= t /\ nSBox <= t)).
  { intros Ht Hlen. rewrite Hlen in HM.
    assert (Ho : nOutputs <= t).
    { destruct (Nat.le_gt_cases nOutputs t) as [|Hgt]; [assumption|].
      pose proof (HM t 0 Hgt (or_introl Ht)). lia. }
    split; [exact Ho|]. intros Heq. split.
    - destruct (Nat.le_gt_cases nInputs t) as [|Hgt]; [assumption|].
      assert (Hlt : (t - 1) * t + t < t * t)
        by (apply HM; [lia|right; right; exact Hgt]).
      nia.
    - destruct (Nat.le_gt_cases nSBox t) as [|Hgt]; [assumption|].
      assert (Hlt : (t - 1) * t + t < t * t)
        by (apply HM; [lia|right; left; exact Hgt]).
      nia. }
  destruct (Nat.leb_spec nInputs t) as [Hin|Hin];
    destruct (Nat.leb_spec nOutputs t) as [Hout|Hout];
    (split; [|split; [|split; [|split; [split|exact Hshape]]]]).
  all: try (intros; lia).
  - intros _ _. eexists _, _. reflexivity.
  - intros [d Hd]. discriminate Hd.
  - intros _ _. reflexivity.
  - intros _. eexists. reflexivity.
  - intros _. reflexivity.
  - intros _. eexists. reflexivity.
  - intros _. reflexivity.
  - intros _. eexists. reflexivity.
Qed.

(** ** The witness table *)

Lemma num_variables_set_val pb v x : num_variables (set_val pb v x) = num_variables pb.
Proof. destruct v; [reflexivity|]. unfold num_variables. simpl. apply length_insert. Qed.

Lemma constraints_set_val pb v x : constraints (set_val pb v x) = constraints pb.
Proof. now destruct v. Qed.

Lemma val_set_val_eq pb v x :
  1 <= v <= num_variables pb -> val (set_val pb v x) v = x.
Proof.
  intros [H1 H2]. destruct v as [|i]; [lia|]. unfold val, set_val, num_variables in *.
  simpl. rewrite list_lookup_insert_eq by lia. reflexivity.
Qed.

Lemma val_set_val_ne pb v x i : i <> v -> val (set_val pb v x) i = val pb i.
Proof.
  intros Hne. destruct v as [|j]; [reflexivity|]. destruct i as [|i]; [reflexivity|].
  unfold val, set_val. simpl. rewrite list_lookup_insert_ne by lia. reflexivity.
Qed.

Lemma num_variables_assign_values vars xs pb :
  num_variables (assign_values vars xs pb) = num_variables pb.
Proof.
  unfold assign_values. revert pb.
  induction (zip vars xs) as [|[v x] l IH]; intros pb; simpl; [reflexivity|].
  now rewrite IH, num_variables_set_val.
Qed.

Lemma constraints_assign_values vars xs pb :
  constraints (assign_values vars xs pb) = constraints pb.
Proof.
  unfold assign_values. revert pb.
  induction (zip vars xs) as [|[v x] l IH]; intros pb; simpl; [reflexivity|].
  now rewrite IH, constraints_set_val.
Qed.

(** ** Linear combinations over a range of variables *)

Lemma lc_val_agree (n : nat) (pb pb' : ProtoboardT) (lc : linear_combination) :
  (forall i, i <= n -> val pb' i = val pb i) ->
  lc_below n lc -> lc_val pb' lc = lc_val pb lc.
Proof.
  intros Hag Hlc. induction Hlc as [|lt lc Hlt Hlc IH].
  - reflexivity.
  - rewrite !lc_val_cons, IH, Hag by exact Hlt. reflexivity.
Qed.

Lemma is_satisfied_agree (n : nat) (pb pb' : ProtoboardT) (k : r1cs_constraint) :
  (forall i, i <= n -> val pb' i = val pb i) ->
  constraint_below n k -> is_satisfied pb k -> is_satisfied pb' k.
Proof.
  intros Hag (Ha & Hb & Hc) Hsat. unfold is_satisfied in *.
  now rewrite !(lc_val_agree n pb pb') by assumption.
Qed.

Lemma lc_below_mono (n n' : nat) (lc : linear_combination) :
  n <= n' -> lc_below n lc -> lc_below n' lc.
Proof.
  intros Hle H. eapply Forall_impl; [exact H|]. intros lt Hlt. simpl in Hlt. lia.
Qed.

Lemma lc_below_of_var n v : v <= n -> lc_below n (lc_of_var v).
Proof. intros H. repeat constructor. exact H. Qed.

Lemma lc_below_of_field n k : lc_below n (lc_of_field k).
Proof. repeat constructor. simpl. unfold ONE. lia. Qed.

Lemma lc_below_scale n lc k : lc_below n lc -> lc_below n (lc_scale lc k).
Proof.
  unfold lc_below, lc_scale. intros H. induction H; constructor; auto.
Qed.

Lemma lc_below_add n l1 l2 : lc_below n l1 -> lc_below n l2 -> lc_below n (lc_add l1 l2).
Proof.
  intros H1. revert l2. induction H1 as [|t1 r1 Ht1 Hr1 IH1]; intros l2 H2.
  - now destruct l2.
  - induction H2 as [|t2 r2 Ht2 Hr2 IH2].
    + now constructor.
    + simpl. destruct (index t1 <? index t2).
      * constructor; [exact Ht1|]. apply IH1. now constructor.
      * destruct (index t2 <? index t1).
        -- constructor; [exact Ht2|]. exact IH2.
        -- constructor; [exact Ht1|]. now apply IH1.
Qed.

(** ** Witness of an S-box *)

Lemma FifthPower_witness_spec (base : nat) (pb : ProtoboardT) (v : FieldT) :
  base + 3 <= num_variables pb ->
  let g := FifthPower_gadget.mk (base + 1) (base + 2) (base + 3) in
  let pb' := FifthPower_gadget.generate_r1cs_witness g pb v in
  num_variables pb' = num_variables pb
  /\ (forall i, i <= base \/ base + 3 < i -> val pb' i = val pb i)
  /\ FifthPower_gadget.witnessed pb' g v.
Proof.
  intros Hnv g pb'. subst g pb'. unfold FifthPower_gadget.generate_r1cs_witness.
  cbn [FifthPower_gadget.x2 FifthPower_gadget.x4 FifthPower_gadget.x5].
  split; [now rewrite !num_variables_set_val|]. split.
  - intros i Hi. rewrite !val_set_val_ne by lia. reflexivity.
  - unfold FifthPower_gadget.witnessed.
    cbn [FifthPower_gadget.x2 FifthPower_gadget.x4 FifthPower_gadget.x5].
    repeat split.
    + rewrite !val_set_val_ne by lia. apply val_set_val_eq. lia.
    + rewrite val_set_val_ne by lia. apply val_set_val_eq.
      rewrite num_variables_set_val. lia.
    + apply val_set_val_eq. rewrite !num_variables_set_val. lia.
Qed.

Lemma FifthPower_emitted_satisfied (pb : ProtoboardT) (g : FifthPower_gadget.t)
    (v : FieldT) (x : linear_combination) :
  FifthPower_gadget.witnessed pb g v ->
  lc_val pb x = Fr.of_Z v ->
  Forall (is_satisfied pb) (FifthPower_gadget.emitted g x).
Proof.
  intros (H2 & H4 & H5) Hx.
  assert (E2 : lc_val pb (lc_of_var (FifthPower_gadget.x2 g)) = Fr.mul v v)
    by (rewrite lc_val_of_var; rewrite H2; [reflexivity|apply canonical_mul]).
  assert (E4 : lc_val pb (lc_of_var (FifthPower_gadget.x4 g))
               = Fr.mul (Fr.mul v v) (Fr.mul v v))
    by (rewrite lc_val_of_var; rewrite H4; [reflexivity|apply canonical_mul]).
  assert (E5 : lc_val pb (lc_of_var (FifthPower_gadget.x5 g))
               = Fr.mul (Fr.mul (Fr.mul v v) (Fr.mul v v)) v)
    by (rewrite lc_val_of_var; rewrite H5; [reflexivity|apply canonical_mul]).
  unfold FifthPower_gadget.emitted.
  repeat constructor; unfold is_satisfied; cbn [a b c]; rewrite ?Hx, ?E2, ?E4, ?E5.
  - fr_ring.
  - reflexivity.
  - fr_ring.
Qed.

Lemma FifthPower_emitted_below (n : nat) (g : FifthPower_gadget.t) (x : linear_combination) :
  lc_below n x ->
  FifthPower_gadget.x2 g <= n -> FifthPower_gadget.x4 g <= n -> FifthPower_gadget.x5 g <= n ->
  Forall (constraint_below n) (FifthPower_gadget.emitted g x).
Proof.
  intros Hx H2 H4 H5. unfold FifthPower_gadget.emitted, constraint_below.
  repeat constructor; cbn [a b c]; auto using lc_below_of_var.
Qed.

(** ** Witness of a round *)

Lemma sbox_at_sboxes_from (base n h : nat) :
  h < n ->
  Poseidon_Round.sbox_at (Poseidon_Round.sboxes_from base n) h
  = FifthPower_gadget.mk (base + 3 * h + 1) (base + 3 * h + 2) (base + 3 * h + 3).
Proof.
  intros H. unfold Poseidon_Round.sbox_at, Poseidon_Round.sboxes_from.
  rewrite list_lookup_fmap, lookup_seq_lt by exact H. reflexivity.
Qed.

Section RoundWitness.

Import Poseidon_Round.

Variables (T : params) (base : nat) (in_C_i : FieldT) (in_M : list FieldT).
Variable st : list linear_combination.
Hypothesis st_below : Forall (lc_below base) st.

Let r : t := built T base in_C_i in_M st.
Let n : nat := nSBox T.

Lemma state_at_below (h : nat) : lc_below base (state_at st h).
Proof.
  unfold state_at. destruct (st !! h) as [lc|] eqn:Hl; simpl.
  - exact (Forall_lookup_1 _ _ _ _ st_below Hl).
  - constructor.
Qed.

Lemma sbox_value_agree (pb pb' : ProtoboardT) (h : nat) :
  (forall i, i <= base -> val pb' i = val pb i) ->
  sbox_value r pb' h = sbox_value r pb h.
Proof.
  intros Hag. unfold sbox_value. cbn [r built state tparams C_i].
  destruct (h <? nInputs T); [|reflexivity].
  now rewrite (lc_val_agree base pb pb') by auto using state_at_below.
Qed.

Lemma sbox_input_val (pb : ProtoboardT) (h : nat) :
  lc_val pb (sbox_input r h) = Fr.of_Z (sbox_value r pb h).
Proof.
  unfold sbox_input, sbox_value. cbn [r built state tparams C_i].
  destruct (h <? nInputs T).
  - rewrite lc_val_add, lc_val_of_field.
    generalize (lc_val pb (state_at st h)). intros v. fr_ring.
  - apply lc_val_of_field.
Qed.

Lemma sbox_input_below (h : nat) : lc_below base (sbox_input r h).
Proof.
  unfold sbox_input. cbn [r built state tparams C_i].
  destruct (h <? nInputs T).
  - apply lc_below_add; [apply state_at_below|apply lc_below_of_field].
  - apply lc_below_of_field.
Qed.

Lemma Round_emitted_below : Forall (constraint_below (base + 3 * n)) (emitted r).
Proof.
  unfold emitted. apply Forall_flat_map, Forall_forall. intros h Hh.
  apply elem_of_seq in Hh. cbn [r built tparams sboxes] in *. fold n in Hh |- *.
  rewrite sbox_at_sboxes_from by lia.
  apply FifthPower_emitted_below;
    cbn [FifthPower_gadget.x2 FifthPower_gadget.x4 FifthPower_gadget.x5]; try lia.
  apply (lc_below_mono base); [lia|apply sbox_input_below].
Qed.

Variable pb : ProtoboardT.
Hypothesis room : base + 3 * n <= num_variables pb.

Let step (pb0 : ProtoboardT) (h : nat) : ProtoboardT :=
  FifthPower_gadget.generate_r1cs_witness (sbox_at (sboxes r) h) pb0 (sbox_value r pb0 h).

Lemma Round_witness_prefix (k : nat) :
  k <= n ->
  let pbk := fold_left step (seq 0 k) pb in
  num_variables pbk = num_variables pb
  /\ (forall i, i <= base \/ base + 3 * k < i -> val pbk i = val pb i)
  /\ (forall h, h < k ->
        FifthPower_gadget.witnessed pbk (sbox_at (sboxes r) h) (sbox_value r pb h)).
Proof.
  induction k as [|k IH]; intros Hk pbk.
  - subst pbk. simpl. split; [reflexivity|]. split; [reflexivity|]. intros h Hh. lia.
  - subst pbk. rewrite seq_S, fold_left_app. cbn [fold_left Nat.add].
    destruct IH as (Hnv & Hframe & Hdone); [lia|].
    set (pbk := fold_left step (seq 0 k) pb) in *.
    assert (Hstep : step pbk k
                    = FifthPower_gadget.generate_r1cs_witness
                        (FifthPower_gadget.mk (base + 3 * k + 1) (base + 3 * k + 2)
                                              (base + 3 * k + 3))
                        pbk (sbox_value r pbk k)).
    { unfold step. cbn [r built sboxes]. fold n.
      rewrite sbox_at_sboxes_from by lia. reflexivity. }
    rewrite Hstep. clear Hstep.
    destruct (FifthPower_witness_spec (base + 3 * k) pbk (sbox_value r pbk k))
      as (Hnv' & Hframe' & Hnew); [lia|].
    cbv zeta in Hnv', Hframe', Hnew.
    split; [congruence|]. split.
    + intros i Hi. rewrite Hframe' by lia. apply Hframe. lia.
    + intros h Hh. destruct (Nat.eq_dec h k) as [->|Hne].
      * cbn [r built sboxes]. fold n. rewrite sbox_at_sboxes_from by lia.
        rewrite <- (sbox_value_agree pb pbk) by (intros; apply Hframe; lia).
        exact Hnew.
      * specialize (Hdone h ltac:(lia)). revert Hdone.
        cbn [r built sboxes]. fold n. rewrite sbox_at_sboxes_from by lia.
        unfold FifthPower_gadget.witnessed.
        cbn [FifthPower_gadget.x2 FifthPower_gadget.x4 FifthPower_gadget.x5].
        rewrite !Hframe' by lia. auto.
Qed.

Lemma Round_witness_spec :
  let pb' := generate_r1cs_witness r pb in
  num_variables pb' = num_variables pb
  /\ (forall i, i <= base \/ base + 3 * n < i -> val pb' i = val pb i)
  /\ Forall (is_satisfied pb') (emitted r).
Proof.
  intros pb'.
  assert (Hpb' : pb' = fold_left step (seq 0 n) pb) by reflexivity.
  destruct (Round_witness_prefix n (Nat.le_refl n)) as (Hnv & Hframe & Hdone).
  cbv zeta in Hnv, Hframe, Hdone. rewrite <- Hpb' in Hnv, Hframe, Hdone.
  split; [exact Hnv|]. split; [exact Hframe|].
  unfold emitted. apply Forall_flat_map, Forall_forall. intros h Hh.
  apply elem_of_seq in Hh. cbn [r built tparams] in Hh. fold n in Hh.
  apply (FifthPower_emitted_satisfied _ _ (sbox_value r pb h)).
  - apply Hdone. lia.
  - rewrite sbox_input_val. f_equal. apply sbox_value_agree.
    intros i Hi. apply Hframe. now left.
Qed.

End RoundWitness.

(** ** Outputs of a round, runs of rounds *)

Lemma Round_outputs_below (T : Poseidon_Round.params) (base : nat) (in_C_i : FieldT)
    (in_M : list FieldT) (st : list linear_combination) :
  Forall (lc_below base) st ->
  Forall (lc_below (base + 3 * Poseidon_Round.nSBox T))
         (Poseidon_Round.outputs (Poseidon_Round.built T base in_C_i in_M st)).
Proof.
  intros Hst. cbn [Poseidon_Round.built Poseidon_Round.outputs].
  unfold Poseidon_Round.make_outputs. apply Forall_fmap, Forall_forall. intros i _.
  cbn [compose]. rewrite make_output_shape.
  set (n := Poseidon_Round.nSBox T).
  assert (Hstart : lc_below (base + 3 * n)
                     (Poseidon_Round.constant_part T in_C_i in_M i
                        ++ Poseidon_Round.sbox_part T in_M
                             (Poseidon_Round.sboxes_from base n) i)).
  { apply Forall_app. split.
    - unfold Poseidon_Round.constant_part. destruct (_ <? _); repeat constructor.
      simpl. unfold ONE. lia.
    - unfold Poseidon_Round.sbox_part. fold n. apply Forall_fmap, Forall_forall.
      intros s Hs. apply elem_of_seq in Hs. cbn [compose index].
      rewrite sbox_at_sboxes_from by lia. cbn. lia. }
  revert Hstart.
  generalize (Poseidon_Round.constant_part T in_C_i in_M i
                ++ Poseidon_Round.sbox_part T in_M (Poseidon_Round.sboxes_from base n) i).
  induction (seq n (Poseidon_Round.nInputs T - n)) as [|k ks IH]; intros lc Hlc.
  - exact Hlc.
  - cbn [fold_left]. apply IH. apply lc_below_add; [exact Hlc|].
    apply lc_below_scale. apply (lc_below_mono base); [lia|].
    now apply state_at_below.
Qed.

Section Chains.

Import Poseidon_Round.

Lemma chain_outputs_cons (st : list linear_combination) (r : t) (rs : list t) :
  chain_outputs st (r :: rs) = chain_outputs (outputs r) rs.
Proof.
  unfold chain_outputs. destruct rs as [|r' rs]; [reflexivity|].
  change (last (r :: r' :: rs)) with (last (r' :: rs)).
  destruct (last (r' :: rs)) eqn:E; [reflexivity|].
  apply last_None in E. discriminate.
Qed.

Lemma chain_outputs_nonempty (st st' : list linear_combination) (rs : list t) :
  0 < length rs -> chain_outputs st rs = chain_outputs st' rs.
Proof.
  intros H. unfold chain_outputs.
  destruct rs as [|x rs] using rev_ind; [simpl in H; lia|]. now rewrite last_snoc.
Qed.

Lemma chain_app (rs1 rs2 : list t) :
  forall base st,
    chain base st (rs1 ++ rs2)
    <-> chain base st rs1 /\ chain (chain_end base rs1) (chain_outputs st rs1) rs2.
Proof.
  induction rs1 as [|r rs1 IH]; intros base st.
  - simpl. tauto.
  - cbn [app chain chain_end]. rewrite IH, chain_outputs_cons. tauto.
Qed.

Lemma chain_end_app (rs1 rs2 : list t) :
  forall base, chain_end base (rs1 ++ rs2) = chain_end (chain_end base rs1) rs2.
Proof. induction rs1 as [|r rs1 IH]; intros base; [reflexivity|apply IH]. Qed.

Lemma chain_outputs_app (st : list linear_combination) (rs1 rs2 : list t) :
  chain_outputs st (rs1 ++ rs2) = chain_outputs (chain_outputs st rs1) rs2.
Proof.
  revert st. induction rs1 as [|r rs1 IH]; intros st; [reflexivity|].
  cbn [app]. now rewrite !chain_outputs_cons, IH.
Qed.

Lemma chain_end_le (rs : list t) : forall base, base <= chain_end base rs.
Proof.
  induction rs as [|r rs IH]; intros base; cbn [chain_end]; [lia|].
  specialize (IH (base + 3 * nSBox (tparams r))). lia.
Qed.

(** Running the witnesses of a run of rounds: the table keeps its size,
    only the variables of the run change, the outputs mention no later
    variable, and every constraint of the run holds. *)
Lemma chain_witness (rs : list t) :
  forall base st pb,
    chain base st rs ->
    Forall (lc_below base) st ->
    chain_end base rs <= num_variables pb ->
    let pb' := fold_left (fun pb r => generate_r1cs_witness r pb) rs pb in
    num_variables pb' = num_variables pb
    /\ (forall i, i <= base \/ chain_end base rs < i -> val pb' i = val pb i)
    /\ Forall (lc_below (chain_end base rs)) (chain_outputs st rs)
    /\ Forall (constraint_below (chain_end base rs)) (flat_map emitted rs)
    /\ Forall (is_satisfied pb') (flat_map emitted rs).
Proof.
  induction rs as [|r rs IH]; intros base st pb Hchain Hst Hroom pb'.
  - subst pb'. simpl. repeat split; auto; constructor.
  - destruct Hchain as [Hr Hchain]. cbn [chain_end] in *.
    set (n := nSBox (tparams r)) in *.
    pose proof (chain_end_le rs (base + 3 * n)) as Hle.
    destruct (Round_witness_spec (tparams r) base (C_i r) (M r) st Hst pb)
      as (Hnv1 & Hframe1 & Hsat1); [fold n; lia|].
    cbv zeta in Hnv1, Hframe1, Hsat1. rewrite <- Hr in Hnv1, Hframe1, Hsat1.
    pose proof (Round_emitted_below (tparams r) base (C_i r) (M r) st Hst) as Hbelow1.
    rewrite <- Hr in Hbelow1. fold n in Hbelow1, Hframe1.
    pose proof (Round_outputs_below (tparams r) base (C_i r) (M r) st Hst) as Hout1.
    rewrite <- Hr in Hout1. fold n in Hout1.
    set (pb1 := generate_r1cs_witness r pb) in *.
    destruct (IH (base + 3 * n) (outputs r) pb1 Hchain Hout1)
      as (Hnv & Hframe & Hout & Hbelow & Hsat); [lia|].
    cbv zeta in Hnv, Hframe, Hout, Hbelow, Hsat.
    subst pb'. cbn [fold_left flat_map]. fold pb1.
    split; [congruence|]. split; [|split; [|split]].
    + intros i Hi. rewrite Hframe by lia. apply Hframe1. lia.
    + now rewrite chain_outputs_cons.
    + apply Forall_app. split; [|exact Hbelow].
      eapply Forall_impl; [exact Hbelow1|]. intros k (Ha & Hb & Hc).
      repeat split; eapply lc_below_mono; eauto.
    + apply Forall_app. split; [|exact Hsat].
      apply Forall_forall. intros k Hk.
      apply (is_satisfied_agree (base + 3 * n) pb1).
      * intros i Hi. apply Hframe. now left.
      * exact (proj1 (Forall_forall _ _) Hbelow1 k Hk).
      * exact (proj1 (Forall_forall _ _) Hsat1 k Hk).
Qed.

End Chains.

(** ** The rounds of the master gadget form one run *)

Lemma rounds_from_chain T consts count :
  forall i base st,
    Poseidon_Round.chain base st
      (Master_Poseidon_gadget_T.rounds_from T consts count i base st)
    /\ Poseidon_Round.chain_end base
         (Master_Poseidon_gadget_T.rounds_from T consts count i base st)
       = base + 3 * Poseidon_Round.nSBox T * count.
Proof.
  induction count as [|count IH]; intros i base st.
  - simpl. split; [exact I|lia].
  - cbn [Master_Poseidon_gadget_T.rounds_from Poseidon_Round.chain
         Poseidon_Round.chain_end].
    cbn [Poseidon_Round.built Poseidon_Round.tparams Poseidon_Round.C_i
         Poseidon_Round.M Poseidon_Round.outputs].
    destruct (IH (S i) (base + 3 * Poseidon_Round.nSBox T)
                 (Poseidon_Round.make_outputs T (Master_Poseidon_gadget_T.C_at consts i)
                    (M consts) st
                    (Poseidon_Round.sboxes_from base (Poseidon_Round.nSBox T))))
      as [Hc He].
    split; [split; [reflexivity|exact Hc]|]. rewrite He. lia.
Qed.

Section LayoutChain.

Import Master_Poseidon_gadget_T.

Variables (p : params) (consts : PoseidonConstants) (base : nat).
Variable in_inputs : VariableArrayT.
Hypothesis F_ge_4 : 4 <= param_F p.
Hypothesis P_ge_1 : 1 <= param_P p.

Let m : t := layout p consts base in_inputs.
Let st0 : list linear_combination := VariableArrayT_to_lc in_inputs.

Lemma layout_rounds_chain :
  Poseidon_Round.chain base st0 (rounds m)
  /\ Poseidon_Round.chain_end base (rounds m)
     = base + 3 * (param_t p * param_F p + param_c p * param_P p).
Proof.
  pose proof (Nat.Div0.mul_div_le (param_F p) 2) as Hdiv.
  assert (Hh : 2 <= param_F p / 2)
    by (change 2 with (4 / 2) at 1; now apply Nat.Div0.div_le_mono).
  unfold rounds.
  cbn [m layout first_round prefix_full_rounds partial_rounds suffix_full_rounds
       last_round].
  set (first := Poseidon_Round.built (FirstRoundT p) base (C_at consts 0) (M consts)
                  (VariableArrayT_to_lc in_inputs)).
  set (base1 := base + 3 * param_t p).
  set (prefix := rounds_from (FullRoundT p) consts (partial_begin p - 1) 1 base1
                   (Poseidon_Round.outputs first)).
  set (base2 := base1 + 3 * param_t p * (partial_begin p - 1)).
  set (partial := rounds_from (PartialRoundT p) consts (param_P p) (partial_begin p)
                    base2 (Poseidon_Round.chain_outputs [] prefix)).
  set (base3 := base2 + 3 * param_c p * param_P p).
  set (suffix := rounds_from (FullRoundT p) consts (total_rounds p - 1 - partial_end p)
                   (partial_end p) base3 (Poseidon_Round.chain_outputs [] partial)).
  set (base4 := base3 + 3 * param_t p * (total_rounds p - 1 - partial_end p)).
  set (last := Poseidon_Round.built (LastRoundT p) base4
                 (default Fr.zero (last (C consts))) (M consts)
                 (Poseidon_Round.chain_outputs [] suffix)).
  destruct (rounds_from_chain (FullRoundT p) consts (partial_begin p - 1) 1 base1
              (Poseidon_Round.outputs first)) as [Hc1 He1].
  destruct (rounds_from_chain (PartialRoundT p) consts (param_P p) (partial_begin p)
              base2 (Poseidon_Round.chain_outputs [] prefix)) as [Hc2 He2].
  destruct (rounds_from_chain (FullRoundT p) consts (total_rounds p - 1 - partial_end p)
              (partial_end p) base3 (Poseidon_Round.chain_outputs [] partial))
    as [Hc3 He3].
  fold prefix in Hc1, He1. fold partial in Hc2, He2. fold suffix in Hc3, He3.
  cbn [FullRoundT PartialRoundT Poseidon_Round.nSBox] in He1, He2, He3.
  fold base2 in He1. fold base3 in He2. fold base4 in He3.
  assert (Hl1 : 0 < length prefix)
    by (unfold prefix; rewrite rounds_from_length; unfold partial_begin; lia).
  assert (Hl2 : 0 < length partial)
    by (unfold partial; rewrite rounds_from_length; lia).
  assert (Hl3 : 0 < length suffix).
  { unfold suffix. rewrite rounds_from_length.
    unfold total_rounds, partial_end, partial_begin. lia. }
  split.
  - cbn [Poseidon_Round.chain]. split; [reflexivity|].
    change (Poseidon_Round.nSBox (Poseidon_Round.tparams first)) with (param_t p).
    fold base1.
    rewrite !chain_app, He1.
    rewrite (chain_outputs_nonempty (Poseidon_Round.outputs first) [] prefix) by exact Hl1.
    rewrite He2.
    rewrite (chain_outputs_nonempty (Poseidon_Round.chain_outputs [] prefix) []
               partial) by exact Hl2.
    rewrite He3.
    rewrite (chain_outputs_nonempty (Poseidon_Round.chain_outputs [] partial) []
               suffix) by exact Hl3.
    repeat split; try assumption.
  - cbn [Poseidon_Round.chain_end].
    change (Poseidon_Round.nSBox (Poseidon_Round.tparams first)) with (param_t p).
    fold base1. rewrite !chain_end_app, He1, He2, He3.
    cbn [Poseidon_Round.chain_end].
    change (Poseidon_Round.nSBox (Poseidon_Round.tparams last)) with (param_t p).
    subst base4 base3 base2 base1.
    unfold total_rounds, partial_end, partial_begin in *.
    set (h := param_F p / 2) in *.
    replace (param_F p + param_P p - 1 - (h + param_P p))
      with (param_F p - 1 - h) by lia.
    assert (exists a b, h - 1 = a /\ param_F p - 1 - h = b /\ param_F p = a + b + 2)
      as (a & b & -> & -> & ->) by (eexists _, _; repeat split; lia).
    lia.
Qed.

Lemma layout_output_vars :
  _output_vars m
  = if constrainOutputs p
    then seq (S (base + 3 * (param_t p * param_F p + param_c p * param_P p))) (nOutputs p)
    else [].
Proof.
  cbn [m layout _output_vars]. destruct (constrainOutputs p); [|reflexivity].
  f_equal. f_equal.
  pose proof (Nat.Div0.mul_div_le (param_F p) 2) as Hdiv.
  assert (Hh : 2 <= param_F p / 2)
    by (change 2 with (4 / 2) at 1; now apply Nat.Div0.div_le_mono).
  clear P_ge_1.
  unfold total_rounds, partial_end, partial_begin in *.
  set (h := param_F p / 2) in *.
  replace (param_F p + param_P p - 1 - (h + param_P p))
    with (param_F p - 1 - h) by lia.
  assert (exists a b, h - 1 = a /\ param_F p - 1 - h = b /\ param_F p = a + b + 2)
    as (a & b & -> & -> & ->) by (eexists _, _; repeat split; lia).
  lia.
Qed.

Lemma layout_rounds_outputs :
  Poseidon_Round.chain_outputs st0 (rounds m) = Poseidon_Round.outputs (last_round m).
Proof.
  unfold rounds, Poseidon_Round.chain_outputs.
  rewrite app_comm_cons, !app_assoc, last_snoc. reflexivity.
Qed.

End LayoutChain.

(** ** Witness of the output variables *)

Lemma Forall_output_constraints_from (P : r1cs_constraint -> Prop)
    (vars : VariableArrayT) (lcs : list linear_combination) :
  forall i,
    (forall j lc, lcs !! j = Some lc ->
                  P (ConstraintT lc (lc_of_var ONE) (lc_of_var (default 0 (vars !! (i + j)))))) ->
    Forall P (Master_Poseidon_gadget_T.output_constraints_from vars lcs i).
Proof.
  induction lcs as [|lc lcs IH]; intros i H; simpl; constructor.
  - specialize (H 0 lc eq_refl). now rewrite Nat.add_0_r in H.
  - apply IH. intros j lc' Hj. specialize (H (S j) lc' Hj).
    now replace (S i + j) with (i + S j) by lia.
Qed.

Section OutputWitness.

Variables (fb : nat) (outs : list linear_combination).
Hypothesis outs_below : Forall (lc_below fb) outs.

Let vars : VariableArrayT := seq (S fb) (length outs).

Variable pb : ProtoboardT.
Hypothesis room : fb + length outs <= num_variables pb.

Let step (pb0 : ProtoboardT) (n : nat) : ProtoboardT :=
  set_val pb0 (default 0 (vars !! n)) (lc_val pb0 (Poseidon_Round.state_at outs n)).

Lemma assign_outputs_prefix (k : nat) :
  k <= length outs ->
  let pbk := fold_left step (seq 0 k) pb in
  num_variables pbk = num_variables pb
  /\ (forall i, i <= fb \/ fb + k < i -> val pbk i = val pb i)
  /\ (forall j, j < k -> val pbk (S fb + j) = lc_val pb (Poseidon_Round.state_at outs j)).
Proof.
  induction k as [|k IH]; intros Hk pbk.
  - subst pbk. simpl. split; [reflexivity|]. split; [reflexivity|]. intros j Hj. lia.
  - subst pbk. rewrite seq_S, fold_left_app. cbn [fold_left Nat.add].
    destruct IH as (Hnv & Hframe & Hdone); [lia|].
    set (pbk := fold_left step (seq 0 k) pb) in *.
    assert (Hstep : step pbk k
                    = set_val pbk (S fb + k) (lc_val pb (Poseidon_Round.state_at outs k))).
    { unfold step, vars. rewrite lookup_seq_lt by lia. cbn [default id]. f_equal.
      apply (lc_val_agree fb); [intros; apply Hframe; lia|].
      now apply state_at_below. }
    rewrite Hstep. clear Hstep.
    split; [now rewrite num_variables_set_val|]. split.
    + intros i Hi. rewrite val_set_val_ne by lia. apply Hframe. lia.
    + intros j Hj. destruct (Nat.eq_dec j k) as [->|Hne].
      * apply val_set_val_eq. lia.
      * rewrite val_set_val_ne by lia. apply Hdone. lia.
Qed.

Lemma assign_outputs_satisfied :
  let pb' := fold_left step (seq 0 (length outs)) pb in
  num_variables pb' = num_variables pb
  /\ (forall i, i <= fb -> val pb' i = val pb i)
  /\ Forall (is_satisfied pb')
            (Master_Poseidon_gadget_T.output_constraints_from vars outs 0).
Proof.
  intros pb'.
  destruct (assign_outputs_prefix (length outs) (Nat.le_refl _)) as (Hnv & Hframe & Hdone).
  cbv zeta in Hnv, Hframe, Hdone. fold pb' in Hnv, Hframe, Hdone.
  split; [exact Hnv|]. split; [intros; apply Hframe; now left|].
  apply Forall_output_constraints_from. intros j lc Hj.
  pose proof (lookup_lt_Some _ _ _ Hj) as Hlt.
  unfold is_satisfied. cbn [a b c]. change (0 + j) with j.
  unfold vars. rewrite lookup_seq_lt by exact Hlt. cbn [default id].
  assert (Hlc : Poseidon_Round.state_at outs j = lc)
    by exact (f_equal (default []) Hj).
  rewrite (lc_val_of_var pb' ONE) by apply canonical_one.
  rewrite (lc_val_of_var pb' (S fb + j)) by (rewrite Hdone by lia; apply lc_val_canonical).
  rewrite Hdone, Hlc by lia.
  rewrite (lc_val_agree fb pb pb') by
    (try (intros; apply Hframe; now left);
     exact (Forall_lookup_1 _ _ _ _ outs_below Hj)).
  apply mul_one_r, lc_val_canonical.
Qed.

End OutputWitness.

(** ** Witness of the master gadget *)

Lemma Master_witness_rounds (m : Master_Poseidon_gadget_T.t) (pb : ProtoboardT) :
  Master_Poseidon_gadget_T.generate_r1cs_witness m pb
  = let pb1 := fold_left (fun pb r => Poseidon_Round.generate_r1cs_witness r pb)
                         (Master_Poseidon_gadget_T.rounds m) pb in
    if Master_Poseidon_gadget_T.constrainOutputs (Master_Poseidon_gadget_T.tparams m)
    then Master_Poseidon_gadget_T.assign_outputs m pb1 else pb1.
Proof.
  unfold Master_Poseidon_gadget_T.generate_r1cs_witness, Master_Poseidon_gadget_T.rounds.
  cbn [fold_left]. rewrite !fold_left_app. reflexivity.
Qed.

Section MasterWitness.

Import Master_Poseidon_gadget_T.

Variables (p : params) (consts : PoseidonConstants) (base : nat).
Variable in_inputs : VariableArrayT.
Hypothesis F_ge_4 : 4 <= param_F p.
Hypothesis P_ge_1 : 1 <= param_P p.
Hypothesis inputs_below : Forall (fun v => v <= base) in_inputs.

Let m : t := layout p consts base in_inputs.

(** Whatever the table holds for the variables that exist before the
    gadget, the witness satisfies every constraint of the gadget. *)
Lemma layout_witness_satisfied (pb : ProtoboardT) :
  base + allocated p <= num_variables pb ->
  Forall (is_satisfied (generate_r1cs_witness m pb)) (emitted m).
Proof.
  intros Hroom.
  set (fb := base + 3 * (param_t p * param_F p + param_c p * param_P p)).
  destruct (layout_rounds_chain p consts base in_inputs F_ge_4 P_ge_1) as [Hchain Hend].
  fold m in Hchain, Hend. fold fb in Hend.
  assert (Hst : Forall (lc_below base) (VariableArrayT_to_lc in_inputs)).
  { unfold VariableArrayT_to_lc. apply Forall_fmap.
    eapply Forall_impl; [exact inputs_below|]. intros v Hv. now apply lc_below_of_var. }
  destruct (chain_witness (rounds m) base _ pb Hchain Hst)
    as (Hnv & Hframe & Hout & Hbelow & Hsat).
  { rewrite Hend. unfold fb, allocated in *. lia. }
  cbv zeta in Hnv, Hframe, Hout, Hbelow, Hsat.
  rewrite Hend in Hframe, Hout, Hbelow.
  pose proof (layout_rounds_outputs p consts base in_inputs) as Hro.
  fold m in Hro. rewrite Hro in Hout. clear Hro.
  rewrite Master_witness_rounds. cbv zeta.
  set (pb1 := fold_left (fun pb r => Poseidon_Round.generate_r1cs_witness r pb)
                        (rounds m) pb) in *.
  unfold emitted. change (tparams m) with p.
  destruct (constrainOutputs p) eqn:Hco.
  - pose proof (layout_output_vars p consts base in_inputs F_ge_4) as Hvars.
    fold m in Hvars. rewrite Hco in Hvars. fold fb in Hvars.
    assert (Hlen : length (Poseidon_Round.outputs (last_round m)) = nOutputs p)
      by (cbn [m layout last_round Poseidon_Round.built Poseidon_Round.outputs];
          apply make_outputs_length).
    destruct (assign_outputs_satisfied fb _ Hout pb1) as (Hnv2 & Hframe2 & Hsat2).
    { rewrite Hlen, Hnv. unfold fb, allocated in *. rewrite Hco in Hroom. lia. }
    cbv zeta in Hnv2, Hframe2, Hsat2. rewrite Hlen, <- Hvars in Hsat2, Hframe2, Hnv2.
    assert (Hassign : assign_outputs m pb1
              = fold_left
                  (fun pb0 n =>
                     set_val pb0 (default 0 (_output_vars m !! n))
                       (lc_val pb0 (Poseidon_Round.state_at
                                      (Poseidon_Round.outputs (last_round m)) n)))
                  (seq 0 (nOutputs p)) pb1)
      by (unfold assign_outputs; now rewrite Hlen).
    rewrite Hassign. apply Forall_app. split.
    + apply Forall_forall. intros k Hk.
      apply (is_satisfied_agree fb pb1).
      * exact Hframe2.
      * exact (proj1 (Forall_forall _ _) Hbelow k Hk).
      * exact (proj1 (Forall_forall _ _) Hsat k Hk).
    + exact Hsat2.
  - rewrite app_nil_r. exact Hsat.
Qed.

End MasterWitness.

(** C1.  Witness soundness of the master gadget: whatever field values the
    input variables are given, once [generate_r1cs_witness] has run every
    constraint [(A, B, C)] that [generate_r1cs_constraints] emitted
    satisfies [eval(A) * eval(B) = eval(C)] under the witness table. *)
Theorem master_witness_sound (p : Master_Poseidon_gadget_T.params)
    (consts : PoseidonConstants) (pb : ProtoboardT) (in_inputs : VariableArrayT)
    (x : list FieldT) :
  4 <= Master_Poseidon_gadget_T.param_F p ->
  1 <= Master_Poseidon_gadget_T.param_P p ->
  Master_Poseidon_gadget_T.nInputs p <= Master_Poseidon_gadget_T.param_t p ->
  Master_Poseidon_gadget_T.nOutputs p <= Master_Poseidon_gadget_T.param_t p ->
  length (C consts)
    = Master_Poseidon_gadget_T.param_F p + Master_Poseidon_gadget_T.param_P p ->
  length in_inputs = Master_Poseidon_gadget_T.nInputs p ->
  Forall (fun v => 1 <= v <= num_variables pb) in_inputs ->
  length x = Master_Poseidon_gadget_T.nInputs p ->
  exists m pb',
    Master_Poseidon_gadget_T.ctor p consts pb in_inputs = Ok (m, pb')
    /\ let pbc := Master_Poseidon_gadget_T.generate_r1cs_constraints m pb' in
       let pbw := Master_Poseidon_gadget_T.generate_r1cs_witness m
                    (assign_values in_inputs x pbc) in
       Forall (fun e => exists k, e = Own k /\ is_satisfied pbw k)
              (drop (length (constraints pb')) (constraints pbc)).
Proof.
  intros HF HP Hin Hout HC Hlen Hvars Hx.
  eexists _, _. split; [now apply Master_ctor_spec|].
  cbv zeta. rewrite Master_constraints_spec. cbn [constraints values].
  rewrite drop_app_length. apply Forall_fmap.
  match goal with |- context [assign_values in_inputs x ?pb0] =>
    set (pbx := assign_values in_inputs x pb0) end.
  assert (Hbelow : Forall (fun v => v <= num_variables pb) in_inputs).
  { eapply Forall_impl; [exact Hvars|]. intros v Hv. simpl in Hv. lia. }
  assert (Hroom : num_variables pb + Master_Poseidon_gadget_T.allocated p
                  <= num_variables pbx).
  { unfold pbx. rewrite num_variables_assign_values. unfold num_variables. cbn [values].
    rewrite length_app, length_replicate. lia. }
  eapply Forall_impl.
  - exact (layout_witness_satisfied p consts (num_variables pb) in_inputs HF HP
             Hbelow pbx Hroom).
  - intros k Hk. exists k. split; [reflexivity|exact Hk].
Qed.

(** ** Constant generator *)

Lemma output_size_32 : output_size = 32%N.
Proof. reflexivity. Qed.

(** A bit length that is already a multiple of 8 still gets one more byte. *)
Lemma output_size_of_multiple_of_8 (bits : N) :
  (bits mod 8 = 0)%N -> output_size_of bits = (bits / 8 + 1)%N.
Proof.
  intros H. unfold output_size_of, n_bits_roundedup. rewrite H, N.sub_0_r.
  replace (bits + 8)%N with (bits + 1 * 8)%N by lia.
  now rewrite N.div_add by discriminate.
Qed.

Lemma u32_sub_1 (n : N) : (1 <= n < u32_modulus)%N -> u32_sub n 1 = (n - 1)%N.
Proof.
  intros H. unfold u32_sub, u32_modulus in *.
  rewrite (N.mod_small 1) by lia.
  replace (n + 4294967296 - 1)%N with ((n - 1) + 1 * 4294967296)%N by lia.
  rewrite N.Div0.mod_add. apply N.mod_small. lia.
Qed.

Lemma u32_add_small (x y : N) : (x + y < u32_modulus)%N -> u32_add x y = (x + y)%N.
Proof. intros H. unfold u32_add. now apply N.mod_small. Qed.

Lemma u32_mul_small (x y : N) : (x * y < u32_modulus)%N -> u32_mul x y = (x * y)%N.
Proof. intros H. unfold u32_mul. now apply N.mod_small. Qed.

Section ConstantStream.

Variable blake2b : N -> list byte -> list byte -> list byte.

Let decode (bytes : list byte) : FieldT := bytes_to_FieldT_littleendian bytes output_size.
Let rehash (bytes : list byte) : list byte := blake2b output_size [] bytes.

Lemma constant_stream_iter (seed : string) (k : nat) :
  constant_stream blake2b seed k
  = Nat.iter k rehash (rehash (list_byte_of_string seed)).
Proof. induction k as [|k IH]; simpl; [reflexivity|now rewrite IH]. Qed.

Lemma poseidon_constants_loop_spec (count : nat) :
  forall (output : list byte) (result : list FieldT),
    poseidon_constants_loop blake2b count output result
    = result ++ ((fun k => decode (Nat.iter (S k) rehash output)) <$> seq 0 count).
Proof.
  induction count as [|count IH]; intros output result.
  - simpl. now rewrite app_nil_r.
  - cbn [poseidon_constants_loop]. rewrite IH, <- app_assoc. f_equal.
    cbn [seq fmap list_fmap app]. f_equal.
    rewrite <- fmap_S_seq, <- list_fmap_compose.
    apply list_fmap_ext. intros _ k _. cbn [compose].
    now rewrite <- !Nat.iter_succ_r.
Qed.

(** The generator as a stream: element [k] decodes the [k]-th hash, and
    there are [1 + (n_constants - 1 mod 2^32)] elements. *)
Lemma poseidon_constants_spec (seed : string) (n_constants : N) :
  poseidon_constants blake2b seed n_constants
  = (fun k => decode (constant_stream blake2b seed k))
      <$> seq 0 (S (N.to_nat (u32_sub n_constants 1))).
Proof.
  unfold poseidon_constants, poseidon_constants_fill.
  rewrite poseidon_constants_loop_spec. cbn [app seq fmap list_fmap].
  f_equal. rewrite <- fmap_S_seq, <- list_fmap_compose.
  apply list_fmap_ext. intros _ k _. cbn [compose].
  now rewrite constant_stream_iter.
Qed.

Lemma poseidon_constants_length (seed : string) (n_constants : N) :
  length (poseidon_constants blake2b seed n_constants)
  = S (N.to_nat (u32_sub n_constants 1)).
Proof. now rewrite poseidon_constants_spec, length_fmap, length_seq. Qed.

(** For a count between [1] and [2^32 - 1] the generator is the stream the
    specification describes: [n] elements, [L = 32] bytes hashed and
    decoded for each, the seed hashed first and each output rehashed. *)
Lemma poseidon_constants_in_range (seed : string) (n_constants : N) :
  (1 <= n_constants < u32_modulus)%N ->
  length (poseidon_constants blake2b seed n_constants) = N.to_nat n_constants
  /\ forall k, k < N.to_nat n_constants ->
       poseidon_constants blake2b seed n_constants !! k
       = Some (bytes_to_FieldT_littleendian (constant_stream blake2b seed k) output_size).
Proof.
  intros Hn.
  assert (Hcount : S (N.to_nat (u32_sub n_constants 1)) = N.to_nat n_constants)
    by (rewrite u32_sub_1 by exact Hn; lia).
  split.
  - now rewrite poseidon_constants_length.
  - intros k Hk. rewrite poseidon_constants_spec, Hcount.
    rewrite list_lookup_fmap, lookup_seq_lt by exact Hk. reflexivity.
Qed.

End ConstantStream.

(** C4.  Given a seed and a count [n] between [1] and [2^32 - 1], the
    generator produces [n] field elements.  [L = (bitlen + (8 - bitlen mod
    8)) / 8] bytes are hashed for each of them, [32] for this field, and a
    bit length that is already a multiple of 8 still gets the full extra
    byte.  The first element is the little-endian value of
    [BLAKE2b(out = L, key = empty, data = seed)] reduced modulo the field
    order; each later element is the little-endian value, reduced likewise,
    of [BLAKE2b(out = L, key = empty, data = previous output bytes)]. *)
Theorem poseidon_constants_stream
    (blake2b : N -> list byte -> list byte -> list byte) (seed : string)
    (n_constants : N) :
  (1 <= n_constants < u32_modulus)%N ->
  let L := output_size in
  let n := N.to_nat n_constants in
  let decode (bytes : list byte) : FieldT :=
    (Z.of_N (le_bytes_to_N (take (N.to_nat L) bytes)) mod Fr.modulus)%Z in
  (L = (Fr.size_in_bits + (8 - Fr.size_in_bits mod 8)) / 8)%N
  /\ L = 32%N
  /\ (forall bits : N, (bits mod 8 = 0)%N -> output_size_of bits = (bits / 8 + 1)%N)
  /\ length (poseidon_constants blake2b seed n_constants) = n
  /\ exists outputs : list (list byte),
       length outputs = n
       /\ outputs !! 0 = Some (blake2b L [] (list_byte_of_string seed))
       /\ (forall k, S k < n -> outputs !! S k = blake2b L [] <$> outputs !! k)
       /\ poseidon_constants blake2b seed n_constants = decode <$> outputs.
Proof.
  intros Hn L n decode.
  assert (Hcount : S (N.to_nat (u32_sub n_constants 1)) = n)
    by (rewrite u32_sub_1 by exact Hn; subst n; lia).
  assert (Hpos : 0 < n) by (subst n; lia).
  split; [reflexivity|]. split; [reflexivity|].
  split; [exact output_size_of_multiple_of_8|].
  split; [now rewrite poseidon_constants_length|].
  exists (constant_stream blake2b seed <$> seq 0 n).
  split; [now rewrite length_fmap, length_seq|].
  split; [now rewrite list_lookup_fmap, lookup_seq_lt by exact Hpos|].
  split.
  - intros k Hk. rewrite !list_lookup_fmap, !lookup_seq_lt by lia. reflexivity.
  - rewrite poseidon_constants_spec, Hcount, <- list_fmap_compose.
    apply list_fmap_ext. intros _ k _. reflexivity.
Qed.

(** ** Matrix generator *)

Lemma fold_left_app_flat_map {A B : Type} (f : A -> list B) (l : list A) (acc : list B) :
  fold_left (fun acc x => acc ++ f x) l acc = acc ++ flat_map f l.
Proof.
  revert acc. induction l as [|x l IH]; intros acc; simpl.
  - now rewrite app_nil_r.
  - now rewrite IH, app_assoc.
Qed.

Lemma lookup_flat_map_rows {B : Type} (f : nat -> list B) (n rows : nat) :
  (forall i, length (f i) = n) ->
  forall start i j,
    i < rows -> j < n ->
    flat_map f (seq start rows) !! (i * n + j) = f (start + i) !! j.
Proof.
  intros Hlen. induction rows as [|rows IH]; intros start i j Hi Hj; [lia|].
  cbn [seq flat_map]. destruct i as [|i].
  - rewrite lookup_app_l by (rewrite Hlen; lia). now rewrite Nat.add_0_r.
  - rewrite Nat.mul_succ_l.
    rewrite lookup_app_r by (rewrite Hlen; nia). rewrite Hlen.
    replace (i * n + n + j - n) with (i * n + j) by nia.
    rewrite IH by lia. now replace (S start + i) with (start + S i) by lia.
Qed.

Section MatrixShape.

Variable blake2b : N -> list byte -> list byte -> list byte.
Variables (seed : string) (t : N).
Hypothesis t_small : (2 * t < u32_modulus)%N.

Let c : list FieldT := poseidon_constants blake2b seed (2 * t).
Let n : nat := N.to_nat t.

Lemma poseidon_matrix_row_spec (i : nat) :
  poseidon_matrix_row c t i
  = (fun j => Fr.inverse (Fr.sub (default Fr.zero (c !! i))
                                 (default Fr.zero (c !! (n + j)))))
      <$> seq 0 n.
Proof.
  unfold poseidon_matrix_row. fold n. apply list_fmap_ext. intros k j Hj.
  apply lookup_seq in Hj. destruct Hj as [-> Hj]. cbn [Nat.add].
  rewrite u32_add_small by (unfold u32_modulus, n in *; lia).
  replace (N.to_nat (t + N.of_nat k)) with (n + k) by (unfold n; lia).
  reflexivity.
Qed.

Lemma poseidon_matrix_fill_spec :
  poseidon_matrix_fill blake2b seed t [] = flat_map (poseidon_matrix_row c t) (seq 0 n).
Proof.
  unfold poseidon_matrix_fill.
  rewrite u32_mul_small by (unfold u32_modulus in *; lia).
  rewrite N.mul_comm. fold c n. now rewrite fold_left_app_flat_map.
Qed.

Lemma poseidon_matrix_fill_length :
  length (poseidon_matrix_fill blake2b seed t []) = n * n.
Proof.
  rewrite poseidon_matrix_fill_spec.
  rewrite (length_flat_map_const _ n).
  - now rewrite length_seq.
  - intros i. rewrite poseidon_matrix_row_spec. now rewrite length_fmap, length_seq.
Qed.

Lemma poseidon_matrix_fill_entry (i j : nat) :
  i < n -> j < n ->
  poseidon_matrix_fill blake2b seed t [] !! (i * n + j)
  = Some (Fr.inverse (Fr.sub (default Fr.zero (c !! i))
                             (default Fr.zero (c !! (n + j))))).
Proof.
  intros Hi Hj. rewrite poseidon_matrix_fill_spec.
  rewrite (lookup_flat_map_rows _ n n) by
    (try (intros i'; rewrite poseidon_matrix_row_spec;
          now rewrite length_fmap, length_seq); lia).
  cbn [Nat.add]. rewrite poseidon_matrix_row_spec.
  rewrite list_lookup_fmap, lookup_seq_lt by exact Hj. reflexivity.
Qed.

End MatrixShape.

(** C5.  For a state size [t] the matrix generator derives the [2t] field
    elements [c[0..2t)] from the seed "poseidon_matrix_0000" with the
    constant generator and produces a row-major matrix of exactly [t*t]
    elements, [M[i*t + j] = (c[i] - c[t+j])^-1] for all [i, j < t]; the
    round-constant vector of [poseidon_params] has exactly [F + P]
    elements. *)
Theorem poseidon_params_shape
    (blake2b : N -> list byte -> list byte -> list byte) (t F P : N) :
  (0 < t)%N -> (2 * t < u32_modulus)%N ->
  (0 < F + P < u32_modulus)%N ->
  let K := poseidon_params blake2b t F P in
  let c := poseidon_constants blake2b "poseidon_matrix_0000" (2 * t) in
  length c = N.to_nat (2 * t)
  /\ length (M K) = N.to_nat (t * t)
  /\ (forall i j, i < N.to_nat t -> j < N.to_nat t ->
        exists c_i c_tj,
          c !! i = Some c_i /\ c !! (N.to_nat t + j) = Some c_tj
          /\ M K !! (i * N.to_nat t + j) = Some (Fr.inverse (Fr.sub c_i c_tj)))
  /\ length (C K) = N.to_nat (F + P).
Proof.
  intros Ht Ht2 HFP K c.
  assert (Hc : length c = N.to_nat (2 * t)).
  { unfold c. apply poseidon_constants_in_range. lia. }
  split; [exact Hc|]. split; [|split].
  - unfold K. cbn [poseidon_params M].
    rewrite poseidon_matrix_fill_length by exact Ht2. lia.
  - intros i j Hi Hj.
    destruct (lookup_lt_is_Some_2 c i) as [c_i Hci]; [lia|].
    destruct (lookup_lt_is_Some_2 c (N.to_nat t + j)) as [c_tj Hctj]; [lia|].
    exists c_i, c_tj. split; [exact Hci|]. split; [exact Hctj|].
    unfold K. cbn [poseidon_params M].
    rewrite poseidon_matrix_fill_entry by assumption.
    fold c. now rewrite Hci, Hctj.
  - unfold K. cbn [poseidon_params C].
    change (poseidon_constants_fill blake2b "poseidon_constants" (u32_add F P) [])
      with (poseidon_constants blake2b "poseidon_constants" (u32_add F P)).
    rewrite u32_add_small by lia. apply poseidon_constants_in_range. lia.
Qed.

(** ** Witness generation writes values only *)

Lemma same_shape_refl pb : same_shape pb pb.
Proof. split; reflexivity. Qed.

Lemma same_shape_trans pb1 pb2 pb3 :
  same_shape pb1 pb2 -> same_shape pb2 pb3 -> same_shape pb1 pb3.
Proof. intros [H1 H2] [H3 H4]. split; congruence. Qed.

Lemma same_shape_set_val pb v x : same_shape pb (set_val pb v x).
Proof. split; [apply num_variables_set_val|apply constraints_set_val]. Qed.

Lemma same_shape_fold {A : Type} (step : ProtoboardT -> A -> ProtoboardT) (l : list A) :
  (forall pb x, same_shape pb (step pb x)) ->
  forall pb, same_shape pb (fold_left step l pb).
Proof.
  intros Hstep. induction l as [|x l IH]; intros pb; simpl.
  - apply same_shape_refl.
  - eapply same_shape_trans; [apply Hstep|apply IH].
Qed.

Lemma same_shape_FifthPower_witness g pb v :
  same_shape pb (FifthPower_gadget.generate_r1cs_witness g pb v).
Proof.
  unfold FifthPower_gadget.generate_r1cs_witness.
  repeat (eapply same_shape_trans; [|apply same_shape_set_val]).
  apply same_shape_refl.
Qed.

Lemma same_shape_Round_witness r pb :
  same_shape pb (Poseidon_Round.generate_r1cs_witness r pb).
Proof.
  unfold Poseidon_Round.generate_r1cs_witness. apply same_shape_fold.
  intros pb0 h. apply same_shape_FifthPower_witness.
Qed.

Lemma same_shape_Master_witness m pb :
  same_shape pb (Master_Poseidon_gadget_T.generate_r1cs_witness m pb).
Proof.
  rewrite Master_witness_rounds. cbv zeta.
  assert (H : same_shape pb
                (fold_left (fun pb0 r => Poseidon_Round.generate_r1cs_witness r pb0)
                           (Master_Poseidon_gadget_T.rounds m) pb))
    by (apply same_shape_fold; intros; apply same_shape_Round_witness).
  destruct (Master_Poseidon_gadget_T.constrainOutputs _); [|exact H].
  eapply same_shape_trans; [exact H|].
  unfold Master_Poseidon_gadget_T.assign_outputs. apply same_shape_fold.
  intros pb0 n. apply same_shape_set_val.
Qed.

(** ** Instance stamper *)

Section Stamper.

Import Poseidon_gadget_T.

Variables (p : Master.params) (consts : PoseidonConstants).

Lemma get_master_inv (st st' : statics) (m : Master.t) :
  get_master p consts st = Ok (m, st') ->
  master_ptr st' = Some m
  /\ swapAB_flag st' = swapAB_flag st
  /\ (forall m0, master_ptr st = Some m0 -> st' = st).
Proof.
  unfold get_master. destruct (master_ptr st) as [m0|] eqn:Hptr.
  - intros H. injection H as <- <-. repeat split; auto.
  - rewrite make_var_array_spec.
    destruct (Master.ctor p consts _ _) as [[m1 pb1]| |]; cbn; try discriminate.
    intros H. injection H as <- <-. cbn. repeat split; auto. discriminate.
Qed.

Lemma get_master_initialised (st : statics) (m : Master.t) :
  master_ptr st = Some m -> get_master p consts st = Ok (m, st).
Proof. intros H. unfold get_master. now rewrite H. Qed.

(** What a successful construction returns. *)
Lemma ctor_inv (st st' : statics) (pb pb' : ProtoboardT) (in_inputs : VariableArrayT)
    (g : t) :
  ctor p consts st pb in_inputs = Ok (g, st', pb') ->
  exists m out_0,
    get_master p consts st = Ok (m, st')
    /\ length in_inputs <= num_variables (master_pb st')
    /\ Master._output_vars m !! 0 = Some out_0
    /\ g = mk m in_inputs (num_variables pb + 1)
              (translate_with in_inputs (num_variables pb + 1) out_0)
    /\ pb' = mk_pb (values pb ++ replicate (num_variables (master_pb st')
                                            - length in_inputs) Fr.zero)
                   (constraints pb).
Proof.
  unfold ctor. destruct (get_master p consts st) as [[m st1]| |];
    cbn [mbind outcome_bind]; try discriminate.
  destruct (Nat.ltb_spec (num_variables (master_pb st1)) (length in_inputs));
    [discriminate|].
  rewrite make_var_array_spec.
  destruct (vec_at (Master._output_vars m) 0) as [out_0| |] eqn:Hout;
    cbn [mbind outcome_bind mret outcome_ret]; try discriminate.
  apply vec_at_Ok in Hout.
  intros Heq. injection Heq as <- <- <-. exists m, out_0. repeat split; auto.
Qed.

End Stamper.

Lemma stamped_constraints_length (g : Poseidon_gadget_T.t)
    (st : Poseidon_gadget_T.statics) (pb : ProtoboardT) :
  length (constraints (Poseidon_gadget_T.generate_r1cs_constraints g st pb))
  = length (constraints pb) + length (constraints (Poseidon_gadget_T.master_pb st)).
Proof.
  unfold Poseidon_gadget_T.generate_r1cs_constraints.
  assert (H : forall l pb0,
             length (constraints
                       (fold_left
                          (fun pb1 i =>
                             mk_pb (values pb1)
                               (constraints pb1
                                  ++ [LightInstance i
                                        (mk_translator
                                           (Poseidon_gadget_T.instance_inputs g)
                                           (Poseidon_gadget_T.instance_variables_offset g))]))
                          l pb0))
             = length (constraints pb0) + length l).
  { intros l. induction l as [|i l IH]; intros pb0; cbn [fold_left length]; [lia|].
    rewrite IH. cbn [constraints]. rewrite length_app. cbn [length]. lia. }
  now rewrite H, length_seq.
Qed.

(** C7.  The index translation of an instance constructed on a caller
    protoboard with [nInputs] input variables: [tau(0) = 0];
    [tau(k) = instance_inputs[k-1].index] for [k] in [[1, nInputs]];
    [tau(k) = offset + (k - 1 - nInputs)] for [k > nInputs], where [offset]
    is [num_variables() + 1] of the caller protoboard as it was before the
    auxiliary block of the instance was allocated. *)
Theorem stamper_translate (p : Master_Poseidon_gadget_T.params)
    (consts : PoseidonConstants) (st st' : Poseidon_gadget_T.statics)
    (pb_user pb_user' : ProtoboardT) (in_inputs : VariableArrayT)
    (g : Poseidon_gadget_T.t) :
  Poseidon_gadget_T.ctor p consts st pb_user in_inputs = Ok (g, st', pb_user') ->
  length in_inputs = Master_Poseidon_gadget_T.nInputs p ->
  let nInputs := Master_Poseidon_gadget_T.nInputs p in
  let offset := num_variables pb_user + 1 in
  let tau := Poseidon_gadget_T.translate g in
  Poseidon_gadget_T.instance_variables_offset g = offset
  /\ Poseidon_gadget_T.instance_inputs g = in_inputs
  /\ tau 0 = 0
  /\ (forall k, 1 <= k <= nInputs ->
        Poseidon_gadget_T.instance_inputs g !! (k - 1) = Some (tau k))
  /\ (forall k, nInputs < k -> tau k = offset + (k - 1 - nInputs)).
Proof.
  intros Hctor Hlen nInputs offset tau.
  destruct (ctor_inv _ _ _ _ _ _ _ _ Hctor) as (m & out_0 & _ & _ & _ & -> & _).
  subst tau. unfold Poseidon_gadget_T.translate, Poseidon_gadget_T.translate_with.
  cbn [Poseidon_gadget_T.instance_inputs Poseidon_gadget_T.instance_variables_offset].
  split; [reflexivity|]. split; [reflexivity|]. split; [reflexivity|]. split.
  - intros k Hk. destruct (Nat.eqb_spec k 0) as [->|_]; [lia|].
    destruct (Nat.leb_spec k (length in_inputs)) as [_|Hgt]; [|subst nInputs; lia].
    destruct (lookup_lt_is_Some_2 in_inputs (k - 1)) as [v Hv]; [subst nInputs; lia|].
    now rewrite Hv.
  - intros k Hk. destruct (Nat.eqb_spec k 0) as [->|_]; [lia|].
    destruct (Nat.leb_spec k (length in_inputs)) as [Hle|_]; [subst nInputs; lia|].
    subst offset nInputs. rewrite Hlen. lia.
Qed.

(** C10.  Constructing an instance on a caller protoboard allocates exactly
    [master.pb.num_variables() - nInputs] fresh variables (the values
    already there are kept) and appends no constraint; constraints are
    appended by [generate_r1cs_constraints] (one per master constraint) and
    not by [generate_r1cs_witness]; the auxiliary block of a second instance
    constructed next on the same protoboard starts where the block of the
    first ends, so the two blocks are disjoint. *)
Theorem stamper_ctor_allocation (p : Master_Poseidon_gadget_T.params)
    (consts : PoseidonConstants) (st st' : Poseidon_gadget_T.statics)
    (pb_user pb_user' : ProtoboardT) (in_inputs : VariableArrayT)
    (g : Poseidon_gadget_T.t) :
  Poseidon_gadget_T.ctor p consts st pb_user in_inputs = Ok (g, st', pb_user') ->
  length in_inputs = Master_Poseidon_gadget_T.nInputs p ->
  let aux := num_variables (Poseidon_gadget_T.master_pb st')
             - Master_Poseidon_gadget_T.nInputs p in
  num_variables pb_user' = num_variables pb_user + aux
  /\ values pb_user' = values pb_user ++ replicate aux Fr.zero
  /\ constraints pb_user' = constraints pb_user
  /\ length (constraints (Poseidon_gadget_T.generate_r1cs_constraints g st' pb_user'))
     = length (constraints pb_user')
       + length (constraints (Poseidon_gadget_T.master_pb st'))
  /\ constraints (Poseidon_gadget_T.generate_r1cs_witness g st' pb_user').2
     = constraints pb_user'
  /\ forall in_inputs2 g2 st2 pb_user2,
       Poseidon_gadget_T.ctor p consts st' pb_user' in_inputs2 = Ok (g2, st2, pb_user2) ->
       length in_inputs2 = Master_Poseidon_gadget_T.nInputs p ->
       Poseidon_gadget_T.instance_variables_offset g2
       = Poseidon_gadget_T.instance_variables_offset g + aux
       /\ num_variables pb_user2 = num_variables pb_user' + aux
       /\ forall i j, i < aux -> j < aux ->
            Poseidon_gadget_T.instance_variables_offset g + i
            <> Poseidon_gadget_T.instance_variables_offset g2 + j.
Proof.
  intros Hctor Hlen aux.
  destruct (ctor_inv _ _ _ _ _ _ _ _ Hctor) as (m & out_0 & Hgm & Hle & Hout & -> & ->).
  destruct (get_master_inv _ _ _ _ _ Hgm) as (Hptr & _ & _).
  rewrite Hlen in *. fold aux.
  assert (Hnv : num_variables
                  (mk_pb (values pb_user ++ replicate aux Fr.zero) (constraints pb_user))
                = num_variables pb_user + aux).
  { unfold num_variables. cbn [values]. now rewrite length_app, length_replicate. }
  split; [exact Hnv|]. split; [reflexivity|]. split; [reflexivity|]. split; [|split].
  - apply stamped_constraints_length.
  - unfold Poseidon_gadget_T.generate_r1cs_witness. cbn [snd].
    match goal with |- constraints (fold_left ?f ?l ?pb0) = _ =>
      exact (proj2 (same_shape_fold f l
                      (fun pb1 i => same_shape_set_val pb1 _ _) pb0)) end.
  - intros in2 g2 st2 pb2 Hctor2 Hlen2.
    destruct (ctor_inv _ _ _ _ _ _ _ _ Hctor2)
      as (m2 & out_2 & Hgm2 & Hle2 & Hout2 & -> & ->).
    rewrite (get_master_initialised _ _ _ _ Hptr) in Hgm2.
    injection Hgm2 as <- <-.
    cbn [Poseidon_gadget_T.instance_variables_offset]. rewrite Hlen2. fold aux.
    rewrite Hnv. split; [lia|]. split.
    + unfold num_variables. cbn [values].
      now rewrite !length_app, !length_replicate.
    + intros i j Hi Hj. lia.
Qed.

(** C8, as the code has it.  Once the master exists, an instance leaves the
    constraints and the variables of the master protoboard as they are:
    constructing a further instance changes nothing of it, and
    [generate_r1cs_witness], which does write the caller's inputs and the
    master's witness into its table, changes values only.  [swapAB] changes
    the master's constraints and nothing else, and it does so at most once:
    the first call sets the flag, every later call returns the state it is
    given. *)
Theorem stamper_master_frame (p : Master_Poseidon_gadget_T.params)
    (consts : PoseidonConstants) (g g' : Poseidon_gadget_T.t)
    (st : Poseidon_gadget_T.statics) (pb_user : ProtoboardT) :
  let after_witness := (Poseidon_gadget_T.generate_r1cs_witness g st pb_user).1 in
  let after_swap := Poseidon_gadget_T.swapAB g st in
  same_shape (Poseidon_gadget_T.master_pb st) (Poseidon_gadget_T.master_pb after_witness)
  /\ Poseidon_gadget_T.master_ptr after_witness = Poseidon_gadget_T.master_ptr st
  /\ Poseidon_gadget_T.swapAB_flag after_witness = Poseidon_gadget_T.swapAB_flag st
  /\ (forall m in_inputs g2 st2 pb2,
        Poseidon_gadget_T.master_ptr st = Some m ->
        Poseidon_gadget_T.ctor p consts st pb_user in_inputs = Ok (g2, st2, pb2) ->
        st2 = st)
  /\ values (Poseidon_gadget_T.master_pb after_swap)
     = values (Poseidon_gadget_T.master_pb st)
  /\ Poseidon_gadget_T.master_ptr after_swap = Poseidon_gadget_T.master_ptr st
  /\ Poseidon_gadget_T.swapAB_flag after_swap = true
  /\ Poseidon_gadget_T.swapAB g' after_swap = after_swap
  /\ (Poseidon_gadget_T.swapAB_flag st = true -> after_swap = st).
Proof.
  intros after_witness after_swap. subst after_witness after_swap.
  unfold Poseidon_gadget_T.generate_r1cs_witness, Poseidon_gadget_T.swapAB.
  cbn [fst Poseidon_gadget_T.master_pb Poseidon_gadget_T.master_ptr
       Poseidon_gadget_T.swapAB_flag].
  split; [|split; [reflexivity|split; [reflexivity|split]]].
  - eapply same_shape_trans; [|apply same_shape_Master_witness].
    apply same_shape_fold. intros pb0 i. apply same_shape_set_val.
  - intros m in_inputs g2 st2 pb2 Hptr Hctor.
    destruct (ctor_inv _ _ _ _ _ _ _ _ Hctor) as (m2 & _ & Hgm & _).
    rewrite (get_master_initialised _ _ _ _ Hptr) in Hgm. now injection Hgm as _ <-.
  - destruct (Poseidon_gadget_T.swapAB_flag st) eqn:Hflag.
    + rewrite Hflag. repeat split; auto.
    + cbn. repeat split; auto. discriminate.
Qed.

(** * Further properties of the code *)

(** ** Sums in the field *)

Lemma field_sum_app (l1 l2 : list FieldT) :
  field_sum (l1 ++ l2) = Fr.add (field_sum l1) (field_sum l2).
Proof.
  induction l1 as [|x l1 IH]; simpl.
  - symmetry. apply add_zero_l, field_sum_canonical.
  - rewrite IH. apply add_assoc.
Qed.

Lemma field_sum_fmap_add {A : Type} (f g : A -> FieldT) (l : list A) :
  field_sum ((fun x => Fr.add (f x) (g x)) <$> l)
  = Fr.add (field_sum (f <$> l)) (field_sum (g <$> l)).
Proof.
  induction l as [|x l IH]; [reflexivity|].
  rewrite !fmap_cons. cbn [field_sum fold_right]. fold (field_sum (f <$> l)).
  fold (field_sum (g <$> l)).
  fold (field_sum ((fun x => Fr.add (f x) (g x)) <$> l)). rewrite IH.
  generalize (f x) (g x). intros u v. abstract_sums. fr_ring.
Qed.

Lemma field_sum_zeros {A : Type} (l : list A) :
  field_sum ((fun _ => Fr.zero) <$> l) = Fr.zero.
Proof. induction l as [|x l IH]; [reflexivity|]. rewrite fmap_cons. simpl. now rewrite IH. Qed.

Lemma field_sum_fmap_ext {A : Type} (f g : A -> FieldT) (l : list A) :
  (forall x, x ∈ l -> f x = g x) -> field_sum (f <$> l) = field_sum (g <$> l).
Proof.
  intros H. f_equal. apply list_fmap_ext. intros i x Hx. apply H.
  eapply list_elem_of_lookup_2. exact Hx.
Qed.

(** ** The S-box: what its constraints force, what its witness gives *)

Lemma pow5_spec (v : FieldT) : Permutation.pow5 v = Fr.of_Z (v ^ 5).
Proof. unfold Permutation.pow5. fr_ring. Qed.

Lemma pow5_of_Z (v : FieldT) : Permutation.pow5 (Fr.of_Z v) = Permutation.pow5 v.
Proof. unfold Permutation.pow5. fr_ring. Qed.

Lemma lc_val_of_var_mod (pb : ProtoboardT) (v : VariableT) :
  lc_val pb (lc_of_var v) = Fr.of_Z (val pb v).
Proof.
  unfold lc_of_var. rewrite lc_val_cons, lc_val_nil. cbn [coeff index].
  generalize (val pb v). intros w. fr_ring.
Qed.

Lemma FifthPower_emitted_forces (pb : ProtoboardT) (g : FifthPower_gadget.t)
    (x : linear_combination) :
  Forall (is_satisfied pb) (FifthPower_gadget.emitted g x) ->
  Fr.of_Z (val pb (FifthPower_gadget.x5 g)) = Permutation.pow5 (lc_val pb x).
Proof.
  unfold FifthPower_gadget.emitted. intros H.
  apply Forall_cons in H as [H1 H]. apply Forall_cons in H as [H2 H].
  apply Forall_cons in H as [H3 _].
  unfold is_satisfied in H1, H2, H3. cbn [a b c] in H1, H2, H3.
  rewrite <- lc_val_of_var_mod, <- H3, <- H2, <- H1.
  unfold Permutation.pow5. generalize (lc_val pb x). intros v. fr_ring.
Qed.

Lemma emitted_entries_satisfied (pbw : ProtoboardT) (ks : list r1cs_constraint) :
  Forall (fun e => exists k, e = Own k /\ is_satisfied pbw k) (Own <$> ks)
  <-> Forall (is_satisfied pbw) ks.
Proof.
  rewrite Forall_fmap. split; intros H; eapply Forall_impl; try exact H; cbn.
  - intros k (k' & Heq & Hk). now injection Heq as ->.
  - intros k Hk. now exists k.
Qed.

Lemma entries_satisfiedb_spec (pb : ProtoboardT) (es : list constraint_entry) :
  entries_satisfiedb pb es = true ->
  Forall (fun e => exists k, e = Own k /\ is_satisfied pb k) es.
Proof.
  unfold entries_satisfiedb. induction es as [|e es IH]; cbn [forallb]; [constructor|].
  intros H. apply andb_prop in H as [He Hes]. constructor; [|now apply IH].
  destruct e as [k|]; [|discriminate]. exists k. split; [reflexivity|].
  now apply Z.eqb_eq.
Qed.

(** X1.  The three constraints of an S-box force its result: under every
    witness table that satisfies the constraints
    [generate_r1cs_constraints] appends for the input [x], the value of
    [result()] is the fifth power of the value of [x] (modulo the field
    order). *)
Theorem sbox_constraints_force_fifth_power (g : FifthPower_gadget.t)
    (pb pbw : ProtoboardT) (x : linear_combination) :
  let pbc := FifthPower_gadget.generate_r1cs_constraints g pb x in
  Forall (fun e => exists k, e = Own k /\ is_satisfied pbw k)
         (drop (length (constraints pb)) (constraints pbc)) ->
  Fr.of_Z (val pbw (FifthPower_gadget.result g)) = Fr.of_Z (lc_val pbw x ^ 5).
Proof.
  intros pbc. subst pbc. rewrite FifthPower_constraints_spec. cbn [constraints].
  rewrite drop_app_length, emitted_entries_satisfied. intros H.
  rewrite <- pow5_spec. now apply FifthPower_emitted_forces.
Qed.

(** X2.  An S-box constructed on a protoboard, constrained on an input [x]
    that mentions only variables that existed before, and given the value
    of [x] as its witness: the three constraints hold, [result()] holds the
    fifth power of the value of [x], three variables were allocated, and
    no variable that existed before has changed. *)
Theorem sbox_witness_satisfies (pb : ProtoboardT) (x : linear_combination) :
  lc_below (num_variables pb) x ->
  let g := (FifthPower_gadget.ctor pb).1 in
  let pb1 := (FifthPower_gadget.ctor pb).2 in
  let pbc := FifthPower_gadget.generate_r1cs_constraints g pb1 x in
  let pbw := FifthPower_gadget.generate_r1cs_witness g pbc (lc_val pbc x) in
  Forall (fun e => exists k, e = Own k /\ is_satisfied pbw k)
         (drop (length (constraints pb1)) (constraints pbc))
  /\ val pbw (FifthPower_gadget.result g) = Fr.of_Z (lc_val pb x ^ 5)
  /\ num_variables pbw = num_variables pb + 3
  /\ (forall v, v <= num_variables pb -> val pbw v = val pb v).
Proof.
  intros Hx g pb1 pbc pbw. subst g pb1 pbc pbw.
  rewrite FifthPower_ctor_spec. cbn [fst snd].
  rewrite FifthPower_constraints_spec. cbn [constraints values].
  rewrite drop_app_length, emitted_entries_satisfied.
  set (base := num_variables pb).
  set (pbc := mk_pb (values pb ++ replicate 3 Fr.zero) _).
  assert (Hnv : num_variables pbc = base + 3).
  { unfold num_variables, pbc, base. cbn [values].
    now rewrite length_app, length_replicate. }
  assert (Hold : forall v, v <= base -> val pbc v = val pb v).
  { intros [|i] Hv; [reflexivity|]. unfold val, pbc. cbn [values].
    rewrite lookup_app_l by (unfold base, num_variables in Hv; lia). reflexivity. }
  assert (Hxc : lc_val pbc x = lc_val pb x) by (now apply (lc_val_agree base)).
  destruct (FifthPower_witness_spec base pbc (lc_val pbc x)) as (Hnv' & Hframe & Hw);
    [lia|].
  cbv zeta in Hnv', Hframe, Hw.
  set (pbw := FifthPower_gadget.generate_r1cs_witness _ pbc _) in *.
  assert (Hxw : lc_val pbw x = lc_val pbc x).
  { apply (lc_val_agree base); [|exact Hx]. intros i Hi. apply Hframe. now left. }
  split; [|split; [|split]].
  - apply (FifthPower_emitted_satisfied _ _ (lc_val pbc x)); [exact Hw|].
    rewrite Hxw. symmetry. apply lc_val_canonical.
  - destruct Hw as (_ & _ & H5). unfold FifthPower_gadget.result. rewrite H5, Hxc.
    apply pow5_spec.
  - lia.
  - intros v Hv. rewrite Hframe by now left. now apply Hold.
Qed.

(** ** A round: what it costs, what its constraints force *)

Lemma mul_of_Z_r (x y : FieldT) : Fr.mul x (Fr.of_Z y) = Fr.mul x y.
Proof. fr_ring. Qed.

Lemma state_value (pb : ProtoboardT) (st : list linear_combination) (h : nat) :
  default Fr.zero ((lc_val pb <$> st) !! h) = lc_val pb (Poseidon_Round.state_at st h).
Proof.
  unfold Poseidon_Round.state_at. rewrite list_lookup_fmap.
  now destruct (st !! h).
Qed.

Section RoundSemantics.

Import Poseidon_Round.

Variables (T : params) (in_C_i : FieldT) (in_M : list FieldT).
Variables (st : list linear_combination) (sb : list FifthPower_gadget.t).
Hypothesis sbox_le : nSBox T <= param_t T.
Hypothesis inputs_le : nInputs T <= param_t T.

Let r : t := mk T in_C_i in_M st sb (make_outputs T in_C_i in_M st sb).

Variable pb : ProtoboardT.
Hypothesis sat : Forall (is_satisfied pb) (emitted r).

Let s : list FieldT := lc_val pb <$> st.

Lemma sbox_value_lane (h : nat) :
  sbox_value r pb h = Permutation.lane_input T in_C_i s h.
Proof.
  unfold sbox_value, Permutation.lane_input. cbn [r tparams C_i state].
  destruct (h <? nInputs T); [|reflexivity]. unfold s. now rewrite state_value.
Qed.

Lemma sbox_input_value (h : nat) :
  lc_val pb (sbox_input r h) = Fr.of_Z (sbox_value r pb h).
Proof.
  unfold sbox_input, sbox_value. cbn [r state tparams C_i].
  destruct (h <? nInputs T).
  - rewrite lc_val_add, lc_val_of_field.
    generalize (lc_val pb (state_at st h)). intros v. fr_ring.
  - apply lc_val_of_field.
Qed.

Lemma sbox_result_forced (h : nat) :
  h < nSBox T ->
  Fr.of_Z (val pb (FifthPower_gadget.result (sbox_at sb h)))
  = Permutation.pow5 (Permutation.lane_input T in_C_i s h).
Proof.
  intros Hh. unfold emitted in sat. rewrite Forall_flat_map, Forall_forall in sat.
  specialize (sat h). cbn [r tparams sboxes] in sat.
  rewrite (FifthPower_emitted_forces pb _ (sbox_input r h)).
  - now rewrite sbox_input_value, pow5_of_Z, sbox_value_lane.
  - apply sat, elem_of_seq. lia.
Qed.

Lemma linear_lanes_sum (i : nat) :
  field_sum ((fun j => Fr.mul (M_at in_M (i * param_t T + j))
                              (Permutation.lane_input T in_C_i s j))
               <$> seq (nSBox T) (param_t T - nSBox T))
  = Fr.add
      (field_sum ((fun j => Fr.mul in_C_i (M_at in_M (i * param_t T + j)))
                    <$> seq (nSBox T) (param_t T - nSBox T)))
      (field_sum ((fun k => Fr.mul (M_at in_M (i * param_t T + k))
                                   (lc_val pb (state_at st k)))
                    <$> seq (nSBox T) (nInputs T - nSBox T))).
Proof.
  set (g := fun j => if j <? nInputs T
                     then Fr.mul (M_at in_M (i * param_t T + j)) (lc_val pb (state_at st j))
                     else Fr.zero).
  rewrite (field_sum_fmap_ext _
             (fun j => Fr.add (Fr.mul in_C_i (M_at in_M (i * param_t T + j))) (g j))).
  2:{ intros j _. unfold Permutation.lane_input, g, s. rewrite state_value.
      generalize (M_at in_M (i * param_t T + j)) (lc_val pb (state_at st j)).
      intros m v. destruct (j <? nInputs T); fr_ring. }
  rewrite field_sum_fmap_add. f_equal.
  destruct (Nat.le_gt_cases (nInputs T) (nSBox T)) as [Hle|Hgt].
  - replace (nInputs T - nSBox T) with 0 by lia. cbn [seq fmap list_fmap].
    rewrite (field_sum_fmap_ext _ (fun _ => Fr.zero)); [apply field_sum_zeros|].
    intros j Hj. apply elem_of_seq in Hj. unfold g.
    destruct (Nat.ltb_spec j (nInputs T)); [lia|reflexivity].
  - replace (param_t T - nSBox T)
      with ((nInputs T - nSBox T) + (param_t T - nInputs T)) by lia.
    rewrite seq_app, fmap_app, field_sum_app.
    replace (nSBox T + (nInputs T - nSBox T)) with (nInputs T) by lia.
    rewrite (field_sum_fmap_ext g (fun _ => Fr.zero) (seq (nInputs T) _)).
    2:{ intros j Hj. apply elem_of_seq in Hj. unfold g.
        destruct (Nat.ltb_spec j (nInputs T)); [lia|reflexivity]. }
    rewrite field_sum_zeros, add_zero_r by apply field_sum_canonical.
    apply field_sum_fmap_ext. intros j Hj. apply elem_of_seq in Hj. unfold g.
    destruct (Nat.ltb_spec j (nInputs T)); [reflexivity|lia].
Qed.

Lemma sbox_lanes_sum (i : nat) :
  field_sum ((fun j => Fr.mul (M_at in_M (i * param_t T + j))
                              (Permutation.lane_output T in_C_i s j))
               <$> seq 0 (nSBox T))
  = field_sum ((fun j => Fr.mul (M_at in_M (i * param_t T + j))
                                (val pb (FifthPower_gadget.result (sbox_at sb j))))
                 <$> seq 0 (nSBox T)).
Proof.
  apply field_sum_fmap_ext. intros j Hj. apply elem_of_seq in Hj.
  unfold Permutation.lane_output. destruct (Nat.ltb_spec j (nSBox T)); [|lia].
  rewrite <- sbox_result_forced by lia. now rewrite mul_of_Z_r.
Qed.

Lemma output_row_value (i : nat) :
  lc_val pb (make_output T in_C_i in_M st sb i)
  = field_sum ((fun j => Fr.mul (M_at in_M (i * param_t T + j))
                                (Permutation.lane_output T in_C_i s j))
                 <$> seq 0 (param_t T)).
Proof.
  rewrite make_output_shape, lc_val_fold_state, lc_val_app.
  rewrite lc_val_constant_part, lc_val_sbox_part, constant_term_sum.
  assert (Hseq : seq 0 (param_t T)
                 = seq 0 (nSBox T) ++ seq (nSBox T) (param_t T - nSBox T)).
  { change (nSBox T) with (0 + nSBox T) at 2. rewrite <- seq_app. f_equal. lia. }
  rewrite Hseq, fmap_app, field_sum_app, sbox_lanes_sum.
  rewrite (field_sum_fmap_ext
             (fun j => Fr.mul (M_at in_M (i * param_t T + j))
                              (Permutation.lane_output T in_C_i s j))
             (fun j => Fr.mul (M_at in_M (i * param_t T + j))
                              (Permutation.lane_input T in_C_i s j))
             (seq (nSBox T) _)).
  2:{ intros j Hj. apply elem_of_seq in Hj. unfold Permutation.lane_output.
      destruct (Nat.ltb_spec j (nSBox T)); [lia|reflexivity]. }
  rewrite linear_lanes_sum. abstract_sums. fr_ring.
Qed.

Lemma outputs_values :
  lc_val pb <$> outputs r = Permutation.round_values T in_C_i in_M s.
Proof.
  cbn [r outputs]. unfold make_outputs, Permutation.round_values.
  rewrite <- list_fmap_compose. apply list_fmap_ext. intros _ i _. cbn [compose].
  apply output_row_value.
Qed.

End RoundSemantics.

(** The round the constructor returns, whenever it returns one. *)
Lemma Round_ctor_Ok (p : Poseidon_Round.params) (pb pb' : ProtoboardT) (in_C_i : FieldT)
    (in_M : list FieldT) (in_state : list linear_combination) (r : Poseidon_Round.t) :
  Poseidon_Round.ctor p pb in_C_i in_M in_state = Ok (r, pb') ->
  Poseidon_Round.nInputs p <= Poseidon_Round.param_t p
  /\ Poseidon_Round.nOutputs p <= Poseidon_Round.param_t p
  /\ r = Poseidon_Round.built p (num_variables pb) in_C_i in_M in_state
  /\ pb' = mk_pb (values pb ++ replicate (3 * Poseidon_Round.nSBox p) Fr.zero)
                 (constraints pb).
Proof.
  rewrite Round_ctor_spec.
  destruct (Nat.leb_spec (Poseidon_Round.nInputs p) (Poseidon_Round.param_t p));
    [|discriminate].
  destruct (Nat.leb_spec (Poseidon_Round.nOutputs p) (Poseidon_Round.param_t p));
    [|discriminate].
  intros Heq. injection Heq as <- <-. auto.
Qed.

Lemma sboxes_from_length (base n : nat) :
  length (Poseidon_Round.sboxes_from base n) = n.
Proof. unfold Poseidon_Round.sboxes_from. now rewrite length_fmap, length_seq. Qed.

(** X3.  What a round costs.  A constructor that returns has passed both
    assertions, has allocated three fresh zero variables for each of its
    [nSBox] S-boxes, consecutively, and nothing for the other lanes; it
    adds no constraint and has [nOutputs] output rows.
    [generate_r1cs_constraints] then appends exactly [3 * nSBox]
    constraints and touches no value. *)
Theorem round_allocation_and_cost (p : Poseidon_Round.params) (pb pb' pbx : ProtoboardT)
    (in_C_i : FieldT) (in_M : list FieldT) (in_state : list linear_combination)
    (r : Poseidon_Round.t) :
  Poseidon_Round.ctor p pb in_C_i in_M in_state = Ok (r, pb') ->
  let n := Poseidon_Round.nSBox p in
  let base := num_variables pb in
  Poseidon_Round.nInputs p <= Poseidon_Round.param_t p
  /\ Poseidon_Round.nOutputs p <= Poseidon_Round.param_t p
  /\ values pb' = values pb ++ replicate (3 * n) Fr.zero
  /\ constraints pb' = constraints pb
  /\ length (Poseidon_Round.sboxes r) = n
  /\ (forall h, h < n ->
        Poseidon_Round.sboxes r !! h
        = Some (FifthPower_gadget.mk (base + 3 * h + 1) (base + 3 * h + 2)
                                     (base + 3 * h + 3)))
  /\ length (Poseidon_Round.outputs r) = Poseidon_Round.nOutputs p
  /\ length (constraints (Poseidon_Round.generate_r1cs_constraints r pbx))
     = length (constraints pbx) + 3 * n
  /\ values (Poseidon_Round.generate_r1cs_constraints r pbx) = values pbx.
Proof.
  intros Hctor n base. apply Round_ctor_Ok in Hctor as (Hin & Hout & -> & ->).
  cbn [values constraints Poseidon_Round.built Poseidon_Round.sboxes
       Poseidon_Round.outputs].
  rewrite sboxes_from_length, make_outputs_length, Round_constraints_spec.
  cbn [values constraints].
  rewrite length_app, length_fmap, Round_emitted_length.
  cbn [Poseidon_Round.tparams]. repeat split; auto.
  intros h Hh. unfold Poseidon_Round.sboxes_from.
  rewrite list_lookup_fmap, lookup_seq_lt by exact Hh. reflexivity.
Qed.

(** X4.  What the constraints of a round force.  Under every witness table
    that satisfies the constraints [generate_r1cs_constraints] appends,
    output row [i] of the round evaluates to
    [sum_j M[i*t+j] * f_j(C_i + state_j)] over the [t] lanes, where [f_j] is
    the fifth power on the first [nSBox] lanes and the identity on the
    others, and lanes from [nInputs] on carry the constant alone. *)
Theorem round_constraints_force_outputs (p : Poseidon_Round.params)
    (pb pb' pbw : ProtoboardT) (in_C_i : FieldT) (in_M : list FieldT)
    (in_state : list linear_combination) (r : Poseidon_Round.t) :
  Poseidon_Round.ctor p pb in_C_i in_M in_state = Ok (r, pb') ->
  Poseidon_Round.nSBox p <= Poseidon_Round.param_t p ->
  Forall (fun e => exists k, e = Own k /\ is_satisfied pbw k)
         (drop (length (constraints pb'))
               (constraints (Poseidon_Round.generate_r1cs_constraints r pb'))) ->
  lc_val pbw <$> Poseidon_Round.outputs r
  = Permutation.round_values p in_C_i in_M (lc_val pbw <$> in_state).
Proof.
  intros Hctor Hsb. apply Round_ctor_Ok in Hctor as (Hin & Hout & -> & ->).
  rewrite Round_constraints_spec. cbn [constraints].
  rewrite drop_app_length, emitted_entries_satisfied. intros Hsat.
  now apply outputs_values.
Qed.

(** X5.  The witness of a round.  When the state mentions only variables
    that existed before the round was constructed, [generate_r1cs_witness]
    on any table that has the round's variables satisfies the constraints
    of the round, makes the output rows evaluate to the round function of
    the state values, and writes nothing but the round's own variables. *)
Theorem round_witness_computes (p : Poseidon_Round.params) (pb pb' pbx : ProtoboardT)
    (in_C_i : FieldT) (in_M : list FieldT) (in_state : list linear_combination)
    (r : Poseidon_Round.t) :
  Poseidon_Round.ctor p pb in_C_i in_M in_state = Ok (r, pb') ->
  Poseidon_Round.nSBox p <= Poseidon_Round.param_t p ->
  Forall (lc_below (num_variables pb)) in_state ->
  num_variables pb' <= num_variables pbx ->
  let pbw := Poseidon_Round.generate_r1cs_witness r pbx in
  Forall (fun e => exists k, e = Own k /\ is_satisfied pbw k)
         (drop (length (constraints pb'))
               (constraints (Poseidon_Round.generate_r1cs_constraints r pb')))
  /\ lc_val pbw <$> Poseidon_Round.outputs r
     = Permutation.round_values p in_C_i in_M (lc_val pbx <$> in_state)
  /\ same_shape pbx pbw
  /\ (forall v, v <= num_variables pb \/ num_variables pb' < v -> val pbw v = val pbx v).
Proof.
  intros Hctor Hsb Hst Hroom pbw.
  apply Round_ctor_Ok in Hctor as (Hin & Hout & -> & ->).
  assert (Hnv : num_variables (mk_pb (values pb ++ replicate (3 * Poseidon_Round.nSBox p)
                                                             Fr.zero) (constraints pb))
                = num_variables pb + 3 * Poseidon_Round.nSBox p).
  { unfold num_variables. cbn [values]. now rewrite length_app, length_replicate. }
  rewrite Hnv in *.
  destruct (Round_witness_spec p (num_variables pb) in_C_i in_M in_state Hst pbx Hroom)
    as (_ & Hframe & Hsat).
  cbv zeta in Hframe, Hsat. fold pbw in Hframe, Hsat.
  rewrite Round_constraints_spec. cbn [constraints].
  rewrite drop_app_length, emitted_entries_satisfied.
  split; [exact Hsat|]. split; [|split].
  - etrans; [exact (outputs_values p in_C_i in_M in_state _ Hsb Hin pbw Hsat)|].
    f_equal. apply list_fmap_ext. intros i lc Hlc.
    apply (lc_val_agree (num_variables pb)).
    + intros v Hv. apply Hframe. now left.
    + exact (Forall_lookup_1 _ _ _ _ Hst Hlc).
  - apply same_shape_Round_witness.
  - exact Hframe.
Qed.

(** ** Runs of rounds: what their constraints force *)

Lemma fold_left_ext_in {A B : Type} (f g : A -> B -> A) (l : list B) :
  (forall a x, x ∈ l -> f a x = g a x) ->
  forall a, fold_left f l a = fold_left g l a.
Proof.
  induction l as [|x l IH]; intros H a; [reflexivity|]. cbn [fold_left].
  rewrite H by apply list_elem_of_here.
  apply IH. intros a' x' Hx'. apply H. now apply list_elem_of_further.
Qed.

Lemma add_default_of_Z (x : FieldT) (o : option FieldT) :
  Fr.add x (default Fr.zero (Fr.of_Z <$> o)) = Fr.add x (default Fr.zero o).
Proof. destruct o as [v|]; cbn; [fr_ring|reflexivity]. Qed.

Lemma round_values_of_Z (T : Poseidon_Round.params) (C_i : FieldT) (in_M : list FieldT)
    (s : list FieldT) :
  Permutation.round_values T C_i in_M (Fr.of_Z <$> s)
  = Permutation.round_values T C_i in_M s.
Proof.
  unfold Permutation.round_values. apply list_fmap_ext. intros _ i _.
  apply field_sum_fmap_ext. intros j _. f_equal.
  assert (Hin : Permutation.lane_input T C_i (Fr.of_Z <$> s) j
                = Permutation.lane_input T C_i s j).
  { unfold Permutation.lane_input. destruct (j <? _); [|reflexivity].
    rewrite list_lookup_fmap. apply add_default_of_Z. }
  unfold Permutation.lane_output. now rewrite Hin.
Qed.

Lemma rounds_from_sound (T : Poseidon_Round.params) (consts : PoseidonConstants)
    (pb : ProtoboardT) (count : nat) :
  Poseidon_Round.nSBox T <= Poseidon_Round.param_t T ->
  Poseidon_Round.nInputs T <= Poseidon_Round.param_t T ->
  forall i base st,
    Forall (is_satisfied pb)
           (flat_map Poseidon_Round.emitted
                     (Master_Poseidon_gadget_T.rounds_from T consts count i base st)) ->
    lc_val pb <$> Poseidon_Round.chain_outputs st
                    (Master_Poseidon_gadget_T.rounds_from T consts count i base st)
    = fold_left (fun s k => Permutation.round_values T
                              (Master_Poseidon_gadget_T.C_at consts k) (M consts) s)
                (seq i count) (lc_val pb <$> st).
Proof.
  intros Hsb Hin. induction count as [|count IH]; intros i base st Hsat.
  - reflexivity.
  - cbn [Master_Poseidon_gadget_T.rounds_from flat_map seq fold_left] in *.
    apply Forall_app in Hsat as [Hsat1 Hsat2].
    rewrite chain_outputs_cons, IH by exact Hsat2. f_equal.
    now apply outputs_values.
Qed.

Lemma output_constraints_from_lookup (P : r1cs_constraint -> Prop)
    (vars : VariableArrayT) (lcs : list linear_combination) :
  forall i,
    Forall P (Master_Poseidon_gadget_T.output_constraints_from vars lcs i) ->
    forall j lc, lcs !! j = Some lc ->
      P (ConstraintT lc (lc_of_var ONE) (lc_of_var (default 0 (vars !! (i + j))))).
Proof.
  induction lcs as [|lc0 lcs IH]; intros i H j lc Hj; [discriminate|].
  cbn [Master_Poseidon_gadget_T.output_constraints_from] in H.
  apply Forall_cons in H as [H0 H]. destruct j as [|j].
  - injection Hj as <-. now rewrite Nat.add_0_r.
  - replace (i + S j) with (S i + j) by lia. now apply IH.
Qed.

Lemma constraint_below_mono (n n' : nat) (k : r1cs_constraint) :
  n <= n' -> constraint_below n k -> constraint_below n' k.
Proof. intros Hle (Ha & Hb & Hc). repeat split; eapply lc_below_mono; eauto. Qed.

Lemma num_variables_replicate (n : nat) :
  num_variables (mk_pb (replicate n Fr.zero) []) = n.
Proof. unfold num_variables. cbn [values]. apply length_replicate. Qed.

Section MasterSemantics.

Import Master_Poseidon_gadget_T.

Variables (p : params) (consts : PoseidonConstants) (base : nat).
Variable in_inputs : VariableArrayT.
Hypothesis F_ge_4 : 4 <= param_F p.
Hypothesis P_ge_1 : 1 <= param_P p.
Hypothesis inputs_below : Forall (fun v => v <= base) in_inputs.

Let m : t := layout p consts base in_inputs.
Let fb : nat := base + 3 * (param_t p * param_F p + param_c p * param_P p).
Let outs : list linear_combination := Poseidon_Round.outputs (last_round m).

Lemma last_outputs_length : length outs = nOutputs p.
Proof.
  unfold outs. cbn [m layout last_round Poseidon_Round.built Poseidon_Round.outputs].
  apply make_outputs_length.
Qed.

Lemma inputs_lc_below : Forall (lc_below base) (VariableArrayT_to_lc in_inputs).
Proof.
  unfold VariableArrayT_to_lc. apply Forall_fmap.
  eapply Forall_impl; [exact inputs_below|]. intros v Hv. now apply lc_below_of_var.
Qed.

Lemma fb_le_allocated : fb <= base + allocated p /\
  base + allocated p = fb + (if constrainOutputs p then nOutputs p else 0).
Proof. unfold fb, allocated. lia. Qed.

Lemma layout_rounds_witness (pb : ProtoboardT) :
  fb <= num_variables pb ->
  let pb1 := fold_left (fun pb r => Poseidon_Round.generate_r1cs_witness r pb)
                       (rounds m) pb in
  num_variables pb1 = num_variables pb
  /\ (forall i, i <= base \/ fb < i -> val pb1 i = val pb i)
  /\ Forall (lc_below fb) outs
  /\ Forall (constraint_below fb) (flat_map Poseidon_Round.emitted (rounds m))
  /\ Forall (is_satisfied pb1) (flat_map Poseidon_Round.emitted (rounds m)).
Proof.
  intros Hroom.
  destruct (layout_rounds_chain p consts base in_inputs F_ge_4 P_ge_1) as [Hchain Hend].
  fold m in Hchain, Hend. fold fb in Hend.
  destruct (chain_witness (rounds m) base _ pb Hchain inputs_lc_below)
    as (Hnv & Hframe & Hout & Hbelow & Hsat); [now rewrite Hend|].
  cbv zeta in Hnv, Hframe, Hout, Hbelow, Hsat.
  rewrite Hend in Hframe, Hout, Hbelow.
  pose proof (layout_rounds_outputs p consts base in_inputs) as Hro.
  fold m in Hro. rewrite Hro in Hout.
  cbv zeta. auto.
Qed.

Lemma output_vars_seq :
  constrainOutputs p = true -> _output_vars m = seq (S fb) (length outs).
Proof.
  intros Hco. pose proof (layout_output_vars p consts base in_inputs F_ge_4) as Hvars.
  fold m in Hvars. rewrite Hco in Hvars. now rewrite last_outputs_length.
Qed.

Lemma layout_emitted_below : Forall (constraint_below (base + allocated p)) (emitted m).
Proof.
  destruct fb_le_allocated as [Hle Halloc].
  destruct (layout_rounds_witness (mk_pb (replicate fb Fr.zero) []))
    as (_ & _ & Hout & Hbelow & _); [now rewrite num_variables_replicate|].
  unfold emitted. apply Forall_app. split.
  - eapply Forall_impl; [exact Hbelow|]. intros k. now apply constraint_below_mono.
  - change (tparams m) with p. destruct (constrainOutputs p) eqn:Hco; [|constructor].
    unfold output_constraints. rewrite output_vars_seq by exact Hco. fold outs.
    apply Forall_output_constraints_from. intros j lc Hj.
    pose proof (lookup_lt_Some _ _ _ Hj) as Hlt.
    rewrite lookup_seq_lt by exact Hlt. cbn [default id].
    rewrite last_outputs_length in Hlt.
    repeat split; cbn [a b c].
    + apply (lc_below_mono fb); [exact Hle|].
      exact (Forall_lookup_1 _ _ _ _ Hout Hj).
    + apply lc_below_of_var. unfold ONE. lia.
    + apply lc_below_of_var. lia.
Qed.

Lemma assign_outputs_layout (pb1 : ProtoboardT) :
  constrainOutputs p = true ->
  assign_outputs m pb1
  = fold_left
      (fun pb0 n =>
         set_val pb0 (default 0 (seq (S fb) (length outs) !! n))
                 (lc_val pb0 (Poseidon_Round.state_at outs n)))
      (seq 0 (length outs)) pb1.
Proof. intros Hco. unfold assign_outputs. now rewrite output_vars_seq. Qed.

Lemma layout_witness_frame (pb : ProtoboardT) :
  base + allocated p <= num_variables pb ->
  let pbw := generate_r1cs_witness m pb in
  (forall v, v <= base \/ base + allocated p < v -> val pbw v = val pb v)
  /\ (constrainOutputs p = true ->
      forall j, j < nOutputs p ->
        val pbw (S fb + j) = lc_val pbw (Poseidon_Round.state_at outs j)).
Proof.
  intros Hroom pbw. destruct fb_le_allocated as [Hle Halloc].
  destruct (layout_rounds_witness pb) as (Hnv & Hframe & Hout & _ & _); [lia|].
  cbv zeta in Hnv, Hframe. subst pbw. rewrite Master_witness_rounds. cbv zeta.
  set (pb1 := fold_left (fun pb r => Poseidon_Round.generate_r1cs_witness r pb)
                        (rounds m) pb) in *.
  change (tparams m) with p. destruct (constrainOutputs p) eqn:Hco.
  - rewrite assign_outputs_layout by exact Hco.
    destruct (assign_outputs_prefix fb outs Hout pb1) with (k := length outs)
      as (_ & Hframe2 & Hdone);
      [rewrite last_outputs_length, Hnv; lia|lia|].
    cbv zeta in Hframe2, Hdone. pose proof last_outputs_length as Hlen.
    split.
    + intros v Hv. rewrite Hframe2 by lia. apply Hframe. lia.
    + intros _ j Hj. rewrite Hdone by lia.
      symmetry. apply (lc_val_agree fb).
      * intros i Hi. apply Hframe2. now left.
      * now apply state_at_below.
  - split; [|discriminate]. intros v Hv. apply Hframe. lia.
Qed.

Hypothesis c_le_t : param_c p <= param_t p.
Hypothesis inputs_le_t : nInputs p <= param_t p.
Hypothesis C_length : length (C consts) = param_F p + param_P p.

Lemma permutation_segments (s0 : list FieldT) :
  Permutation.permutation p consts s0
  = Permutation.round_values (LastRoundT p) (default Fr.zero (last (C consts))) (M consts)
      (fold_left (fun s k => Permutation.round_values (FullRoundT p) (C_at consts k)
                               (M consts) s)
         (seq (partial_end p) (total_rounds p - 1 - partial_end p))
         (fold_left (fun s k => Permutation.round_values (PartialRoundT p) (C_at consts k)
                                  (M consts) s)
            (seq (partial_begin p) (param_P p))
            (fold_left (fun s k => Permutation.round_values (FullRoundT p) (C_at consts k)
                                     (M consts) s)
               (seq 1 (partial_begin p - 1))
               (Permutation.round_values (FirstRoundT p) (C_at consts 0) (M consts) s0)))).
Proof.
  pose proof (partial_begin_bounds p F_ge_4) as [Hpb2 HpbF].
  assert (Hpe : partial_end p = partial_begin p + param_P p) by reflexivity.
  assert (Htot : total_rounds p = param_F p + param_P p) by reflexivity.
  assert (Hlast : default Fr.zero (last (C consts)) = C_at consts (total_rounds p - 1)).
  { unfold C_at. rewrite last_lookup, C_length, Htot. do 2 f_equal. lia. }
  assert (Hseq : seq 0 (total_rounds p)
                 = [0] ++ seq 1 (partial_begin p - 1) ++ seq (partial_begin p) (param_P p)
                   ++ seq (partial_end p) (total_rounds p - 1 - partial_end p)
                   ++ [total_rounds p - 1]).
  { replace (total_rounds p)
      with (1 + ((partial_begin p - 1)
                 + (param_P p + ((total_rounds p - 1 - partial_end p) + 1)))) at 1 by lia.
    rewrite !seq_app. cbn [seq]. do 2 f_equal.
    - f_equal; [f_equal; lia|]. f_equal; [f_equal; lia|]. f_equal. lia. }
  unfold Permutation.permutation. rewrite Hseq, !fold_left_app. cbn [fold_left].
  rewrite Hlast.
  assert (Hkind_last : Permutation.round_kind p (total_rounds p - 1) = LastRoundT p).
  { unfold Permutation.round_kind.
    destruct (Nat.eqb_spec (total_rounds p - 1) 0); [lia|].
    destruct (Nat.ltb_spec (total_rounds p - 1) (partial_begin p)); [lia|].
    destruct (Nat.ltb_spec (total_rounds p - 1) (partial_end p)); [lia|].
    destruct (Nat.ltb_spec (total_rounds p - 1) (total_rounds p - 1)); [lia|].
    reflexivity. }
  rewrite Hkind_last. f_equal.
  change (Permutation.round_kind p 0) with (FirstRoundT p).
  rewrite (fold_left_ext_in
             (fun s i => Permutation.round_values (Permutation.round_kind p i)
                           (C_at consts i) (M consts) s)
             (fun s k => Permutation.round_values (FullRoundT p) (C_at consts k)
                           (M consts) s) (seq (partial_end p) _)).
  2:{ intros s k Hk. apply elem_of_seq in Hk. f_equal. unfold Permutation.round_kind.
      destruct (Nat.eqb_spec k 0); [lia|].
      destruct (Nat.ltb_spec k (partial_begin p)); [lia|].
      destruct (Nat.ltb_spec k (partial_end p)); [lia|].
      destruct (Nat.ltb_spec k (total_rounds p - 1)); [reflexivity|lia]. }
  f_equal.
  rewrite (fold_left_ext_in
             (fun s i => Permutation.round_values (Permutation.round_kind p i)
                           (C_at consts i) (M consts) s)
             (fun s k => Permutation.round_values (PartialRoundT p) (C_at consts k)
                           (M consts) s) (seq (partial_begin p) _)).
  2:{ intros s k Hk. apply elem_of_seq in Hk. f_equal. unfold Permutation.round_kind.
      destruct (Nat.eqb_spec k 0); [lia|].
      destruct (Nat.ltb_spec k (partial_begin p)); [lia|].
      destruct (Nat.ltb_spec k (partial_end p)); [reflexivity|lia]. }
  f_equal.
  apply fold_left_ext_in.
  intros s k Hk. apply elem_of_seq in Hk. f_equal. unfold Permutation.round_kind.
  destruct (Nat.eqb_spec k 0); [lia|].
  destruct (Nat.ltb_spec k (partial_begin p)); [reflexivity|lia].
Qed.

Lemma inputs_values (pbw : ProtoboardT) :
  lc_val pbw <$> VariableArrayT_to_lc in_inputs = Fr.of_Z <$> (val pbw <$> in_inputs).
Proof.
  unfold VariableArrayT_to_lc. rewrite <- !list_fmap_compose.
  apply list_fmap_ext. intros _ v _. cbn [compose]. apply lc_val_of_var_mod.
Qed.

Lemma layout_rounds_sound (pbw : ProtoboardT) :
  Forall (is_satisfied pbw) (flat_map Poseidon_Round.emitted (rounds m)) ->
  lc_val pbw <$> outs = Permutation.permutation p consts (val pbw <$> in_inputs).
Proof.
  pose proof (partial_begin_bounds p F_ge_4) as [Hpb2 HpbF].
  rewrite permutation_segments. unfold outs, rounds.
  cbn [m layout first_round prefix_full_rounds partial_rounds suffix_full_rounds
       last_round].
  set (first := Poseidon_Round.built (FirstRoundT p) base (C_at consts 0) (M consts)
                  (VariableArrayT_to_lc in_inputs)).
  set (base1 := base + 3 * param_t p).
  set (prefix := rounds_from (FullRoundT p) consts (partial_begin p - 1) 1 base1
                   (Poseidon_Round.outputs first)).
  set (base2 := base1 + 3 * param_t p * (partial_begin p - 1)).
  set (partial := rounds_from (PartialRoundT p) consts (param_P p) (partial_begin p)
                    base2 (Poseidon_Round.chain_outputs [] prefix)).
  set (base3 := base2 + 3 * param_c p * param_P p).
  set (suffix := rounds_from (FullRoundT p) consts (total_rounds p - 1 - partial_end p)
                   (partial_end p) base3 (Poseidon_Round.chain_outputs [] partial)).
  set (base4 := base3 + 3 * param_t p * (total_rounds p - 1 - partial_end p)).
  set (last := Poseidon_Round.built (LastRoundT p) base4
                 (default Fr.zero (last (C consts))) (M consts)
                 (Poseidon_Round.chain_outputs [] suffix)).
  cbn [flat_map]. rewrite !flat_map_app. cbn [flat_map]. rewrite app_nil_r.
  intros Hsat.
  apply Forall_app in Hsat as [Hs1 Hsat]. apply Forall_app in Hsat as [Hs2 Hsat].
  apply Forall_app in Hsat as [Hs3 Hsat]. apply Forall_app in Hsat as [Hs4 Hs5].
  assert (Hl1 : 0 < length prefix)
    by (unfold prefix; rewrite rounds_from_length; lia).
  assert (Hl2 : 0 < length partial)
    by (unfold partial; rewrite rounds_from_length; lia).
  assert (Hl3 : 0 < length suffix).
  { unfold suffix. rewrite rounds_from_length.
    unfold total_rounds, partial_end, partial_begin in *. lia. }
  assert (E1 : lc_val pbw <$> Poseidon_Round.outputs first
               = Permutation.round_values (FirstRoundT p) (C_at consts 0) (M consts)
                   (val pbw <$> in_inputs)).
  { unfold first, Poseidon_Round.built.
    rewrite outputs_values; cbn [FirstRoundT Poseidon_Round.nSBox
      Poseidon_Round.param_t Poseidon_Round.nInputs]; try lia; [|exact Hs1].
    now rewrite inputs_values, round_values_of_Z. }
  assert (E2 : lc_val pbw <$> Poseidon_Round.chain_outputs [] prefix
               = fold_left (fun s k => Permutation.round_values (FullRoundT p)
                                         (C_at consts k) (M consts) s)
                           (seq 1 (partial_begin p - 1))
                           (lc_val pbw <$> Poseidon_Round.outputs first)).
  { rewrite (chain_outputs_nonempty [] (Poseidon_Round.outputs first)) by exact Hl1.
    apply rounds_from_sound; cbn; try lia. exact Hs2. }
  assert (E3 : lc_val pbw <$> Poseidon_Round.chain_outputs [] partial
               = fold_left (fun s k => Permutation.round_values (PartialRoundT p)
                                         (C_at consts k) (M consts) s)
                           (seq (partial_begin p) (param_P p))
                           (lc_val pbw <$> Poseidon_Round.chain_outputs [] prefix)).
  { rewrite (chain_outputs_nonempty [] (Poseidon_Round.chain_outputs [] prefix))
      by exact Hl2.
    apply rounds_from_sound; cbn; try lia. exact Hs3. }
  assert (E4 : lc_val pbw <$> Poseidon_Round.chain_outputs [] suffix
               = fold_left (fun s k => Permutation.round_values (FullRoundT p)
                                         (C_at consts k) (M consts) s)
                           (seq (partial_end p) (total_rounds p - 1 - partial_end p))
                           (lc_val pbw <$> Poseidon_Round.chain_outputs [] partial)).
  { rewrite (chain_outputs_nonempty [] (Poseidon_Round.chain_outputs [] partial))
      by exact Hl3.
    apply rounds_from_sound; cbn; try lia. exact Hs4. }
  unfold last, Poseidon_Round.built.
  rewrite outputs_values; cbn [LastRoundT Poseidon_Round.nSBox
    Poseidon_Round.param_t Poseidon_Round.nInputs]; try lia; [|exact Hs5].
  now rewrite E4, E3, E2, E1.
Qed.

Lemma layout_outputs_sound (pbw : ProtoboardT) :
  constrainOutputs p = true ->
  Forall (is_satisfied pbw) (output_constraints m) ->
  (fun v => Fr.of_Z (val pbw v)) <$> _output_vars m = lc_val pbw <$> outs.
Proof.
  intros Hco Hsat. unfold output_constraints in Hsat. fold outs in Hsat.
  rewrite output_vars_seq in Hsat |- * by exact Hco.
  apply list_eq. intros j. rewrite !list_lookup_fmap.
  destruct (outs !! j) as [lc|] eqn:Hj.
  - pose proof (lookup_lt_Some _ _ _ Hj) as Hlt.
    pose proof (output_constraints_from_lookup _ _ _ 0 Hsat j lc Hj) as Hk.
    change (0 + j) with j in Hk.
    rewrite lookup_seq_lt in Hk |- * by exact Hlt. cbn [default id] in Hk.
    unfold is_satisfied in Hk. cbn [a b c] in Hk.
    rewrite !lc_val_of_var_mod in Hk. cbn [fmap option_fmap option_map]. f_equal.
    rewrite <- Hk. change (val pbw ONE) with Fr.one.
    rewrite mul_of_Z_r. apply mul_one_r, lc_val_canonical.
  - apply lookup_ge_None_1 in Hj. rewrite lookup_seq_ge by exact Hj. reflexivity.
Qed.

End MasterSemantics.

Lemma layout_sound (p : Master_Poseidon_gadget_T.params) (consts : PoseidonConstants)
    (base : nat) (in_inputs : VariableArrayT) (pbw : ProtoboardT) :
  4 <= Master_Poseidon_gadget_T.param_F p ->
  1 <= Master_Poseidon_gadget_T.param_P p ->
  Master_Poseidon_gadget_T.param_c p <= Master_Poseidon_gadget_T.param_t p ->
  Master_Poseidon_gadget_T.nInputs p <= Master_Poseidon_gadget_T.param_t p ->
  length (C consts)
    = Master_Poseidon_gadget_T.param_F p + Master_Poseidon_gadget_T.param_P p ->
  let m := Master_Poseidon_gadget_T.layout p consts base in_inputs in
  let y := Permutation.permutation p consts (val pbw <$> in_inputs) in
  Forall (is_satisfied pbw) (Master_Poseidon_gadget_T.emitted m) ->
  lc_val pbw <$> Poseidon_Round.outputs (Master_Poseidon_gadget_T.last_round m) = y
  /\ (Master_Poseidon_gadget_T.constrainOutputs p = true ->
      (fun v => Fr.of_Z (val pbw v)) <$> Master_Poseidon_gadget_T._output_vars m = y).
Proof.
  intros HF HP Hc Hin HC m y Hsat.
  unfold Master_Poseidon_gadget_T.emitted in Hsat. apply Forall_app in Hsat as [Hr Ho].
  assert (Hy : lc_val pbw <$> Poseidon_Round.outputs (Master_Poseidon_gadget_T.last_round m)
               = y) by (now apply layout_rounds_sound).
  split; [exact Hy|]. intros Hco. rewrite <- Hy.
  change (Master_Poseidon_gadget_T.tparams m) with p in Ho. rewrite Hco in Ho.
  now apply layout_outputs_sound.
Qed.

Lemma layout_witness_values (p : Master_Poseidon_gadget_T.params)
    (consts : PoseidonConstants) (base : nat) (in_inputs : VariableArrayT)
    (pbx : ProtoboardT) :
  4 <= Master_Poseidon_gadget_T.param_F p ->
  1 <= Master_Poseidon_gadget_T.param_P p ->
  Master_Poseidon_gadget_T.param_c p <= Master_Poseidon_gadget_T.param_t p ->
  Master_Poseidon_gadget_T.nInputs p <= Master_Poseidon_gadget_T.param_t p ->
  length (C consts)
    = Master_Poseidon_gadget_T.param_F p + Master_Poseidon_gadget_T.param_P p ->
  Forall (fun v => v <= base) in_inputs ->
  base + Master_Poseidon_gadget_T.allocated p <= num_variables pbx ->
  let m := Master_Poseidon_gadget_T.layout p consts base in_inputs in
  let pbw := Master_Poseidon_gadget_T.generate_r1cs_witness m pbx in
  let y := Permutation.permutation p consts (val pbx <$> in_inputs) in
  lc_val pbw <$> Poseidon_Round.outputs (Master_Poseidon_gadget_T.last_round m) = y
  /\ (Master_Poseidon_gadget_T.constrainOutputs p = true ->
      val pbw <$> Master_Poseidon_gadget_T._output_vars m = y).
Proof.
  intros HF HP Hc Hin HC Hbelow Hroom m pbw y.
  pose proof (layout_witness_satisfied p consts base in_inputs HF HP Hbelow pbx Hroom)
    as Hsat. fold m pbw in Hsat.
  destruct (layout_witness_frame p consts base in_inputs HF HP Hbelow pbx Hroom)
    as [Hframe Hvars]. cbv zeta in Hframe, Hvars. fold m pbw in Hframe, Hvars.
  destruct (layout_sound p consts base in_inputs pbw HF HP Hc Hin HC Hsat) as [Hy _].
  fold m in Hy.
  assert (Hx : val pbw <$> in_inputs = val pbx <$> in_inputs).
  { apply list_fmap_ext. intros i v Hv. apply Hframe. left.
    exact (Forall_lookup_1 _ _ _ _ Hbelow Hv). }
  rewrite Hx in Hy. fold y in Hy. split; [exact Hy|].
  intros Hco. rewrite <- Hy. clear Hy Hsat. subst y m.
  rewrite (output_vars_seq p consts base in_inputs HF Hco).
  rewrite (last_outputs_length p consts base in_inputs).
  apply list_eq. intros j. rewrite !list_lookup_fmap.
  destruct (Nat.lt_ge_cases j (Master_Poseidon_gadget_T.nOutputs p)) as [Hj|Hj].
  - rewrite lookup_seq_lt by exact Hj. cbn [fmap option_fmap option_map].
    rewrite (Hvars Hco j Hj). unfold Poseidon_Round.state_at.
    destruct (lookup_lt_is_Some_2
                (Poseidon_Round.outputs
                   (Master_Poseidon_gadget_T.last_round
                      (Master_Poseidon_gadget_T.layout p consts base in_inputs))) j)
      as [lc Hlc]; [now rewrite (last_outputs_length p consts base in_inputs)|].
    now rewrite Hlc.
  - rewrite lookup_seq_ge by exact Hj.
    rewrite lookup_ge_None_2; [reflexivity|].
    now rewrite (last_outputs_length p consts base in_inputs).
Qed.

Lemma num_variables_app_replicate (pb : ProtoboardT) (n : nat) :
  num_variables (mk_pb (values pb ++ replicate n Fr.zero) (constraints pb))
  = num_variables pb + n.
Proof. unfold num_variables. cbn [values]. now rewrite length_app, length_replicate. Qed.

(** ** The master gadget: allocation, parameters without rounds *)

(** X6.  What the master gadget allocates and emits, with or without
    constrained outputs.  The constructor appends
    [3 * (t*F + c*P)] zero variables for the S-boxes and, when
    [constrainOutputs] is set, [nOutputs] more, which are [_output_vars];
    without [constrainOutputs] there is no output variable.  It adds no
    constraint.  [generate_r1cs_constraints] appends as many constraints as
    the constructor allocated variables and touches no value. *)
Theorem master_allocation (p : Master_Poseidon_gadget_T.params)
    (consts : PoseidonConstants) (pb pbx : ProtoboardT) (in_inputs : VariableArrayT) :
  4 <= Master_Poseidon_gadget_T.param_F p ->
  1 <= Master_Poseidon_gadget_T.param_P p ->
  Master_Poseidon_gadget_T.nInputs p <= Master_Poseidon_gadget_T.param_t p ->
  Master_Poseidon_gadget_T.nOutputs p <= Master_Poseidon_gadget_T.param_t p ->
  length (C consts)
    = Master_Poseidon_gadget_T.param_F p + Master_Poseidon_gadget_T.param_P p ->
  let n := 3 * (Master_Poseidon_gadget_T.param_t p * Master_Poseidon_gadget_T.param_F p
                + Master_Poseidon_gadget_T.param_c p * Master_Poseidon_gadget_T.param_P p) in
  let k := if Master_Poseidon_gadget_T.constrainOutputs p
           then Master_Poseidon_gadget_T.nOutputs p else 0 in
  exists m pb',
    Master_Poseidon_gadget_T.ctor p consts pb in_inputs = Ok (m, pb')
    /\ values pb' = values pb ++ replicate (n + k) Fr.zero
    /\ constraints pb' = constraints pb
    /\ Master_Poseidon_gadget_T._output_vars m
       = (if Master_Poseidon_gadget_T.constrainOutputs p
          then seq (num_variables pb + n + 1) (Master_Poseidon_gadget_T.nOutputs p)
          else [])
    /\ length (constraints (Master_Poseidon_gadget_T.generate_r1cs_constraints m pbx))
       = length (constraints pbx) + n + k
    /\ values (Master_Poseidon_gadget_T.generate_r1cs_constraints m pbx) = values pbx.
Proof.
  intros HF HP Hin Hout HC n k.
  eexists _, _. split; [now apply Master_ctor_spec|].
  cbn [values constraints]. split; [reflexivity|]. split; [reflexivity|]. split; [|split].
  - rewrite layout_output_vars by exact HF. fold n.
    destruct (Master_Poseidon_gadget_T.constrainOutputs p); [|reflexivity].
    f_equal. lia.
  - rewrite Master_constraints_spec. cbn [constraints].
    rewrite length_app, length_fmap, layout_emitted_length by exact HF. fold n k. lia.
  - now rewrite Master_constraints_spec.
Qed.

(** X7.  Parameter sets without a round to take [back()] of.  With
    [2 <= F <= 3] the vector of full prefix rounds is empty, with [P = 0]
    the vector of partial rounds is empty; no assertion guards either, and
    the constructor goes on to call [back()] on the empty vector. *)
Theorem master_ctor_back_of_empty (p : Master_Poseidon_gadget_T.params)
    (consts : PoseidonConstants) (pb : ProtoboardT) (in_inputs : VariableArrayT) :
  Master_Poseidon_gadget_T.nInputs p <= Master_Poseidon_gadget_T.param_t p ->
  length (C consts)
    = Master_Poseidon_gadget_T.param_F p + Master_Poseidon_gadget_T.param_P p ->
  2 <= Master_Poseidon_gadget_T.param_F p <= 3
  \/ (4 <= Master_Poseidon_gadget_T.param_F p /\ Master_Poseidon_gadget_T.param_P p = 0) ->
  Master_Poseidon_gadget_T.ctor p consts pb in_inputs = Undefined.
Proof.
  intros Hin HC Hcase. unfold Master_Poseidon_gadget_T.ctor.
  rewrite (vec_at_lt _ _ Fr.zero) by lia. cbn [mbind outcome_bind].
  rewrite Round_ctor_spec.
  cbn [Master_Poseidon_gadget_T.FirstRoundT Poseidon_Round.nInputs
       Poseidon_Round.nOutputs Poseidon_Round.param_t Poseidon_Round.nSBox].
  destruct (Nat.leb_spec (Master_Poseidon_gadget_T.nInputs p)
                         (Master_Poseidon_gadget_T.param_t p)); [|lia].
  rewrite Nat.leb_refl. cbn [mbind outcome_bind].
  destruct Hcase as [HF|[HF HP]].
  - assert (Hpb : Master_Poseidon_gadget_T.partial_begin p = 1).
    { unfold Master_Poseidon_gadget_T.partial_begin.
      assert (Master_Poseidon_gadget_T.param_F p = 2
              \/ Master_Poseidon_gadget_T.param_F p = 3) as [-> | ->] by lia;
        reflexivity. }
    rewrite Hpb. reflexivity.
  - pose proof (partial_begin_bounds p HF) as [Hpb2 HpbF].
    rewrite make_rounds_spec;
      cbn [Master_Poseidon_gadget_T.FullRoundT Poseidon_Round.nInputs
           Poseidon_Round.nOutputs Poseidon_Round.param_t Poseidon_Round.nSBox];
      [|lia|lia|lia|lia].
    cbn [mbind outcome_bind].
    match goal with |- context [vec_back ?rs] =>
      destruct (vec_back_chain_outputs rs []) as (r1 & -> & Hr1);
        [rewrite rounds_from_length; lia|] end.
    cbn [mbind outcome_bind].
    unfold Master_Poseidon_gadget_T.make_rounds, Master_Poseidon_gadget_T.partial_end.
    rewrite HP, Nat.add_0_r, Nat.sub_diag. reflexivity.
Qed.

(** ** The master gadget: well-formed constraints, frame, function *)

(** X8.  The constraints of the master gadget are closed: every entry
    [generate_r1cs_constraints] appends is a constraint of the
    protoboard's own, and it mentions no variable beyond those the
    protoboard has once the constructor has returned. *)
Theorem master_constraints_closed (p : Master_Poseidon_gadget_T.params)
    (consts : PoseidonConstants) (pb : ProtoboardT) (in_inputs : VariableArrayT) :
  4 <= Master_Poseidon_gadget_T.param_F p ->
  1 <= Master_Poseidon_gadget_T.param_P p ->
  Master_Poseidon_gadget_T.nInputs p <= Master_Poseidon_gadget_T.param_t p ->
  Master_Poseidon_gadget_T.nOutputs p <= Master_Poseidon_gadget_T.param_t p ->
  length (C consts)
    = Master_Poseidon_gadget_T.param_F p + Master_Poseidon_gadget_T.param_P p ->
  Forall (fun v => v <= num_variables pb) in_inputs ->
  exists m pb',
    Master_Poseidon_gadget_T.ctor p consts pb in_inputs = Ok (m, pb')
    /\ Forall (fun e => exists k, e = Own k /\ constraint_below (num_variables pb') k)
              (drop (length (constraints pb'))
                    (constraints (Master_Poseidon_gadget_T.generate_r1cs_constraints m pb'))).
Proof.
  intros HF HP Hin Hout HC Hbelow.
  eexists _, _. split; [now apply Master_ctor_spec|].
  rewrite Master_constraints_spec. cbn [constraints].
  rewrite drop_app_length, Forall_fmap, num_variables_app_replicate.
  eapply Forall_impl; [now apply layout_emitted_below|].
  intros k Hk. now exists k.
Qed.

(** X9.  [generate_r1cs_witness] of the master gadget writes the gadget's
    own variables and nothing else: on a table that has them, the number
    of variables and the constraints stay as they are, and so does the
    value of every variable allocated before the constructor ran (the
    inputs among them) or after it returned. *)
Theorem master_witness_frame (p : Master_Poseidon_gadget_T.params)
    (consts : PoseidonConstants) (pb pbx : ProtoboardT) (in_inputs : VariableArrayT) :
  4 <= Master_Poseidon_gadget_T.param_F p ->
  1 <= Master_Poseidon_gadget_T.param_P p ->
  Master_Poseidon_gadget_T.nInputs p <= Master_Poseidon_gadget_T.param_t p ->
  Master_Poseidon_gadget_T.nOutputs p <= Master_Poseidon_gadget_T.param_t p ->
  length (C consts)
    = Master_Poseidon_gadget_T.param_F p + Master_Poseidon_gadget_T.param_P p ->
  Forall (fun v => v <= num_variables pb) in_inputs ->
  exists m pb',
    Master_Poseidon_gadget_T.ctor p consts pb in_inputs = Ok (m, pb')
    /\ (num_variables pb' <= num_variables pbx ->
        let pbw := Master_Poseidon_gadget_T.generate_r1cs_witness m pbx in
        same_shape pbx pbw
        /\ forall v, v <= num_variables pb \/ num_variables pb' < v ->
                     val pbw v = val pbx v).
Proof.
  intros HF HP Hin Hout HC Hbelow.
  eexists _, _. split; [now apply Master_ctor_spec|].
  rewrite num_variables_app_replicate. intros Hroom pbw.
  split; [apply same_shape_Master_witness|].
  now apply layout_witness_frame.
Qed.

(** X10.  What the constraints of the master gadget force.  Under every
    witness table that satisfies the constraints
    [generate_r1cs_constraints] appends, the output rows of the last round
    evaluate to the permutation of the values of the input variables:
    [F + P] rounds, round [i] with the constant [C[i]], the S-box on all
    [t] lanes in the full rounds and on the first [c] lanes in the partial
    rounds.  With [constrainOutputs] the output variables hold the same
    values, modulo the field order. *)
Theorem master_constraints_force_permutation (p : Master_Poseidon_gadget_T.params)
    (consts : PoseidonConstants) (pb pbw : ProtoboardT) (in_inputs : VariableArrayT) :
  4 <= Master_Poseidon_gadget_T.param_F p ->
  1 <= Master_Poseidon_gadget_T.param_P p ->
  Master_Poseidon_gadget_T.param_c p <= Master_Poseidon_gadget_T.param_t p ->
  Master_Poseidon_gadget_T.nInputs p <= Master_Poseidon_gadget_T.param_t p ->
  Master_Poseidon_gadget_T.nOutputs p <= Master_Poseidon_gadget_T.param_t p ->
  length (C consts)
    = Master_Poseidon_gadget_T.param_F p + Master_Poseidon_gadget_T.param_P p ->
  exists m pb',
    Master_Poseidon_gadget_T.ctor p consts pb in_inputs = Ok (m, pb')
    /\ (Forall (fun e => exists k, e = Own k /\ is_satisfied pbw k)
               (drop (length (constraints pb'))
                     (constraints (Master_Poseidon_gadget_T.generate_r1cs_constraints m pb'))) ->
        let y := Permutation.permutation p consts (val pbw <$> in_inputs) in
        length y = Master_Poseidon_gadget_T.nOutputs p
        /\ lc_val pbw <$> Poseidon_Round.outputs (Master_Poseidon_gadget_T.last_round m) = y
        /\ (Master_Poseidon_gadget_T.constrainOutputs p = true ->
            (fun v => Fr.of_Z (val pbw v)) <$> Master_Poseidon_gadget_T._output_vars m = y)).
Proof.
  intros HF HP Hc Hin Hout HC.
  eexists _, _. split; [now apply Master_ctor_spec|].
  rewrite Master_constraints_spec. cbn [constraints].
  rewrite drop_app_length, emitted_entries_satisfied. intros Hsat. cbv zeta.
  destruct (layout_sound p consts (num_variables pb) in_inputs pbw HF HP Hc Hin HC Hsat)
    as [Hy Hvars].
  split; [|split; assumption].
  rewrite <- Hy, length_fmap. apply last_outputs_length.
Qed.

(** X11.  What the witness of the master gadget computes.  On every table
    that has the gadget's variables, [generate_r1cs_witness] leaves in the
    output rows of the last round, and with [constrainOutputs] in the
    output variables, the permutation of the values the input variables
    held when it was called. *)
Theorem master_witness_computes_permutation (p : Master_Poseidon_gadget_T.params)
    (consts : PoseidonConstants) (pb pbx : ProtoboardT) (in_inputs : VariableArrayT) :
  4 <= Master_Poseidon_gadget_T.param_F p ->
  1 <= Master_Poseidon_gadget_T.param_P p ->
  Master_Poseidon_gadget_T.param_c p <= Master_Poseidon_gadget_T.param_t p ->
  Master_Poseidon_gadget_T.nInputs p <= Master_Poseidon_gadget_T.param_t p ->
  Master_Poseidon_gadget_T.nOutputs p <= Master_Poseidon_gadget_T.param_t p ->
  length (C consts)
    = Master_Poseidon_gadget_T.param_F p + Master_Poseidon_gadget_T.param_P p ->
  Forall (fun v => v <= num_variables pb) in_inputs ->
  exists m pb',
    Master_Poseidon_gadget_T.ctor p consts pb in_inputs = Ok (m, pb')
    /\ (num_variables pb' <= num_variables pbx ->
        let pbw := Master_Poseidon_gadget_T.generate_r1cs_witness m pbx in
        let y := Permutation.permutation p consts (val pbx <$> in_inputs) in
        lc_val pbw <$> Poseidon_Round.outputs (Master_Poseidon_gadget_T.last_round m) = y
        /\ (Master_Poseidon_gadget_T.constrainOutputs p = true ->
            val pbw <$> Master_Poseidon_gadget_T._output_vars m = y)).
Proof.
  intros HF HP Hc Hin Hout HC Hbelow.
  eexists _, _. split; [now apply Master_ctor_spec|].
  rewrite num_variables_app_replicate. intros Hroom.
  now apply layout_witness_values.
Qed.

(** ** The constant generator: buffer size, appending, prefixes *)

(** X12.  The size of the hash buffer.  For every bit length the buffer
    has [bits / 8 + 1] bytes: it holds every bit of a field element, it is
    at most one byte longer than the bits need, and it is one whole byte
    longer when the bit length is a multiple of 8.  For the 254-bit field
    it has 32 bytes. *)
Theorem output_size_rounds_up (bits : N) :
  (output_size_of bits = bits / 8 + 1
   /\ bits < 8 * output_size_of bits <= bits + 8
   /\ (bits mod 8 = 0 -> 8 * output_size_of bits = bits + 8)
   /\ output_size = 32)%N.
Proof.
  pose proof (N.mod_upper_bound bits 8 ltac:(discriminate)) as Hr.
  pose proof (N.div_mod bits 8 ltac:(discriminate)) as Hdm.
  assert (Hsize : output_size_of bits = (bits / 8 + 1)%N).
  { unfold output_size_of, n_bits_roundedup.
    replace (bits + (8 - bits mod 8))%N with ((bits / 8 + 1) * 8)%N.
    - now apply N.div_mul.
    - revert Hr Hdm. generalize (bits / 8)%N (bits mod 8)%N. intros q r Hr Hdm. lia. }
  rewrite Hsize. revert Hr Hdm. generalize (bits / 8)%N (bits mod 8)%N.
  intros q r Hr Hdm. split; [reflexivity|]. split; [lia|]. split; [lia|reflexivity].
Qed.

(** X13.  The fill functions append.  [poseidon_constants_fill] and
    [poseidon_matrix_fill] keep what the vector they are given already
    holds and add, after it, what [poseidon_constants] and
    [poseidon_matrix] return from an empty vector. *)
Theorem constants_fill_appends (blake2b : N -> list byte -> list byte -> list byte)
    (seed : string) (n_constants t : N) (result : list FieldT) :
  poseidon_constants_fill blake2b seed n_constants result
  = result ++ poseidon_constants blake2b seed n_constants
  /\ poseidon_matrix_fill blake2b seed t result
     = result ++ poseidon_matrix blake2b seed t.
Proof.
  split.
  - unfold poseidon_constants, poseidon_constants_fill.
    rewrite !poseidon_constants_loop_spec. cbn [app]. now rewrite <- app_assoc.
  - unfold poseidon_matrix, poseidon_matrix_fill.
    now rewrite !fold_left_app_flat_map.
Qed.

(** X14.  The constants form one stream.  For counts within [unsigned],
    the constants generated for a smaller count are the first elements of
    the constants generated from the same seed for a larger count. *)
Theorem poseidon_constants_prefix (blake2b : N -> list byte -> list byte -> list byte)
    (seed : string) (n m : N) :
  (1 <= n)%N -> (n <= m)%N -> (m < u32_modulus)%N ->
  poseidon_constants blake2b seed n
  = take (N.to_nat n) (poseidon_constants blake2b seed m).
Proof.
  intros H1 Hnm Hm. rewrite !poseidon_constants_spec.
  rewrite !u32_sub_1 by lia. rewrite <- fmap_take, take_seq. do 2 f_equal. lia.
Qed.

(** X15.  The generated tables fit the master gadget.  With the tables
    [poseidon_params<t, F, P>()] of a parameter set within [unsigned], the
    vector of round constants has one element for each of the [F + P]
    rounds and the matrix has [t * t] elements, and whenever [4 <= F],
    [1 <= P] and the two assertions hold, the constructor of the master
    gadget returns. *)
Theorem master_ctor_with_generated_tables
    (blake2b : N -> list byte -> list byte -> list byte)
    (p : Master_Poseidon_gadget_T.params) (pb : ProtoboardT) (in_inputs : VariableArrayT) :
  let t := Master_Poseidon_gadget_T.param_t p in
  let F := Master_Poseidon_gadget_T.param_F p in
  let P := Master_Poseidon_gadget_T.param_P p in
  let consts := poseidon_params blake2b (N.of_nat t) (N.of_nat F) (N.of_nat P) in
  (2 * N.of_nat t < u32_modulus)%N -> (N.of_nat (F + P) < u32_modulus)%N ->
  4 <= F -> 1 <= P ->
  Master_Poseidon_gadget_T.nInputs p <= t ->
  Master_Poseidon_gadget_T.nOutputs p <= t ->
  length (C consts) = F + P
  /\ length (M consts) = t * t
  /\ exists m pb', Master_Poseidon_gadget_T.ctor p consts pb in_inputs = Ok (m, pb').
Proof.
  intros t F P consts Ht2 HFP HF HP Hin Hout.
  assert (HC : length (C consts) = F + P).
  { unfold consts. cbn [poseidon_params C].
    change (poseidon_constants_fill blake2b "poseidon_constants"
              (u32_add (N.of_nat F) (N.of_nat P)) [])
      with (poseidon_constants blake2b "poseidon_constants"
              (u32_add (N.of_nat F) (N.of_nat P))).
    rewrite u32_add_small by lia.
    assert (Hrange : (1 <= N.of_nat F + N.of_nat P < u32_modulus)%N) by lia.
    rewrite (proj1 (poseidon_constants_in_range blake2b _ _ Hrange)). lia. }
  split; [exact HC|]. split.
  - unfold consts. cbn [poseidon_params M].
    rewrite poseidon_matrix_fill_length by exact Ht2. now rewrite Nat2N.id.
  - eexists _, _. now apply Master_ctor_spec.
Qed.

(** ** The instance stamper: statics, translation, witness *)

(** Writing a run of consecutive variables. *)
Lemma fold_set_val_range (f : nat -> FieldT) (o k : nat) (pb : ProtoboardT) :
  1 <= o -> o + k <= num_variables pb + 1 ->
  let pb' := fold_left (fun pb0 i => set_val pb0 (o + i) (f i)) (seq 0 k) pb in
  same_shape pb pb'
  /\ (forall i, i < k -> val pb' (o + i) = f i)
  /\ (forall v, v < o \/ o + k <= v -> val pb' v = val pb v).
Proof.
  intros Ho. induction k as [|k IH]; intros Hk pb'.
  - subst pb'. cbn. split; [apply same_shape_refl|]. split; [lia|reflexivity].
  - subst pb'. rewrite seq_S, fold_left_app. cbn [fold_left Nat.add].
    destruct IH as (Hshape & Hdone & Hframe); [lia|].
    set (pbk := fold_left (fun pb0 i => set_val pb0 (o + i) (f i)) (seq 0 k) pb) in *.
    split; [|split].
    + eapply same_shape_trans; [exact Hshape|apply same_shape_set_val].
    + intros i Hi. destruct (Nat.eq_dec i k) as [->|Hne].
      * apply val_set_val_eq. rewrite (proj1 Hshape). lia.
      * rewrite val_set_val_ne by lia. apply Hdone. lia.
    + intros v Hv. rewrite val_set_val_ne by lia. apply Hframe. lia.
Qed.

Lemma swapAB_satisfied (pb : ProtoboardT) (k : r1cs_constraint) :
  is_satisfied pb (ConstraintT (b k) (a k) (c k)) <-> is_satisfied pb k.
Proof. unfold is_satisfied. cbn [a b c]. now rewrite mul_comm. Qed.

Lemma translate_lc_val (tr : translator) (n : nat) (mpb pb : ProtoboardT)
    (lc : linear_combination) :
  (forall j, j <= n ->
     val pb (Poseidon_gadget_T.translate_with (tr_inputs tr) (tr_offset tr) j) = val mpb j) ->
  lc_below n lc ->
  lc_val pb (Stamping.translate_lc tr lc) = lc_val mpb lc.
Proof.
  intros Htr Hlc. unfold Stamping.translate_lc.
  induction Hlc as [|lt lc Hlt Hlc IH]; [reflexivity|].
  rewrite fmap_cons, !lc_val_cons, IH. cbn [index coeff]. now rewrite Htr.
Qed.

Section StamperSemantics.

Import Poseidon_gadget_T.

Variables (p : Master.params) (consts : PoseidonConstants).
Hypothesis F_ge_4 : 4 <= Master.param_F p.
Hypothesis P_ge_1 : 1 <= Master.param_P p.
Hypothesis inputs_le_t : Master.nInputs p <= Master.param_t p.
Hypothesis outputs_le_t : Master.nOutputs p <= Master.param_t p.
Hypothesis C_length : length (C consts) = Master.param_F p + Master.param_P p.

Let n : nat := Master.nInputs p.
Let m0 : Master.t := Master.layout p consts n (seq 1 n).
Let nv : nat := n + Master.allocated p.

Lemma get_master_initial :
  get_master p consts initial_statics
  = Ok (m0, mk_statics (mk_pb (replicate nv Fr.zero) (Own <$> Master.emitted m0))
                       (Some m0) false).
Proof.
  unfold get_master. cbn [master_ptr initial_statics master_pb swapAB_flag].
  rewrite make_var_array_spec. cbn [values constraints empty_pb app num_variables length].
  rewrite Master_ctor_spec by assumption.
  cbn [mbind outcome_bind mret outcome_ret]. rewrite Master_constraints_spec.
  cbn [values constraints app]. rewrite num_variables_replicate, <- replicate_add.
  reflexivity.
Qed.

Lemma master_ready_inv (st : statics) :
  Stamping.master_ready p consts st ->
  master_ptr st = Some m0
  /\ num_variables (master_pb st) = nv
  /\ constraints (master_pb st)
     = if swapAB_flag st then map constraint_swapAB (Own <$> Master.emitted m0)
       else Own <$> Master.emitted m0.
Proof.
  intros (m & st0 & Hgm & Hptr & Hnv & Hcs). rewrite get_master_initial in Hgm.
  injection Hgm as <- <-. cbn [master_pb constraints] in Hnv, Hcs.
  unfold num_variables in Hnv at 2. cbn [values] in Hnv.
  rewrite length_replicate in Hnv. auto.
Qed.

Lemma ctor_instance (st st' : statics) (pb pb' : ProtoboardT)
    (in_inputs : VariableArrayT) (g : t) :
  st = initial_statics \/ Stamping.master_ready p consts st ->
  ctor p consts st pb in_inputs = Ok (g, st', pb') ->
  Stamping.master_ready p consts st' /\ master g = m0
  /\ instance_inputs g = in_inputs
  /\ instance_variables_offset g = num_variables pb + 1
  /\ length in_inputs <= nv
  /\ pb' = mk_pb (values pb ++ replicate (nv - length in_inputs) Fr.zero) (constraints pb)
  /\ exists out_0, Master._output_vars m0 !! 0 = Some out_0 /\ res g = translate g out_0.
Proof.
  intros Hst Hctor.
  destruct (ctor_inv _ _ _ _ _ _ _ _ Hctor) as (m & out_0 & Hgm & Hle & Hout & -> & ->).
  assert (Hm : m = m0 /\ Stamping.master_ready p consts st').
  { destruct Hst as [->|Hready].
    - rewrite get_master_initial in Hgm. injection Hgm as <- <-. split; [reflexivity|].
      eexists _, _. split; [apply get_master_initial|]. cbn. auto.
    - destruct (master_ready_inv st Hready) as (Hptr & _).
      rewrite (get_master_initialised _ _ _ _ Hptr) in Hgm.
      injection Hgm as <- <-. auto. }
  destruct Hm as [-> Hready].
  destruct (master_ready_inv st' Hready) as (_ & Hnv & _). rewrite Hnv in *.
  cbn [master instance_inputs instance_variables_offset res].
  repeat split; auto. exists out_0. split; [exact Hout|reflexivity].
Qed.

Section Instance.

Variables (g : t) (st : statics) (pbu : ProtoboardT).
Hypothesis ready : Stamping.master_ready p consts st.
Hypothesis g_master : master g = m0.
Hypothesis g_inputs : length (instance_inputs g) = n.
Hypothesis g_below :
  Forall (fun v => v < instance_variables_offset g) (instance_inputs g).
Hypothesis g_offset : 1 <= instance_variables_offset g.
Hypothesis g_room :
  instance_variables_offset g + Master.allocated p <= num_variables pbu + 1.

Let st' : statics := (generate_r1cs_witness g st pbu).1.
Let pbu' : ProtoboardT := (generate_r1cs_witness g st pbu).2.

(** The master's table once the inputs are in and its witness has run. *)
Lemma stamper_master_table :
  Stamping.master_ready p consts st'
  /\ Forall (is_satisfied (master_pb st')) (Master.emitted m0)
  /\ val (master_pb st') <$> seq 1 n = val pbu <$> instance_inputs g
  /\ (Master.param_c p <= Master.param_t p ->
      Master.constrainOutputs p = true ->
      val (master_pb st') <$> Master._output_vars m0
      = Permutation.permutation p consts (val pbu <$> instance_inputs g)).
Proof.
  clear g_below g_offset g_room.
  destruct (master_ready_inv st ready) as (Hptr & Hnv & Hcs).
  unfold st', generate_r1cs_witness. cbn [fst master_pb]. rewrite g_inputs, g_master.
  set (f := fun i => val pbu (default 0 (instance_inputs g !! i))).
  destruct (fold_set_val_range f 1 n (master_pb st)) as (Hshape1 & Hdone1 & Hframe1);
    [lia|rewrite Hnv; unfold nv; lia|].
  cbv zeta in Hshape1, Hdone1, Hframe1. unfold f in Hshape1, Hdone1, Hframe1.
  set (mpb1 := fold_left _ (seq 0 n) (master_pb st)) in *.
  assert (Hroom : n + Master.allocated p <= num_variables mpb1)
    by (rewrite (proj1 Hshape1), Hnv; unfold nv; lia).
  assert (Hseq : Forall (fun v => v <= n) (seq 1 n)).
  { apply Forall_forall. intros v Hv. apply elem_of_seq in Hv. lia. }
  assert (Hin1 : val mpb1 <$> seq 1 n = val pbu <$> instance_inputs g).
  { apply list_eq. intros i. rewrite !list_lookup_fmap.
    destruct (Nat.lt_ge_cases i n) as [Hi|Hi].
    - rewrite lookup_seq_lt by exact Hi.
      destruct (lookup_lt_is_Some_2 (instance_inputs g) i) as [v Hv]; [lia|].
      rewrite Hv. cbn [fmap option_fmap option_map]. f_equal.
      rewrite (Hdone1 i Hi), Hv. reflexivity.
    - rewrite lookup_seq_ge by exact Hi.
      rewrite lookup_ge_None_2 by lia. reflexivity. }
  pose proof (layout_witness_satisfied p consts n (seq 1 n) F_ge_4 P_ge_1 Hseq mpb1 Hroom)
    as Hsat.
  destruct (layout_witness_frame p consts n (seq 1 n) F_ge_4 P_ge_1 Hseq mpb1 Hroom)
    as [Hframe2 _]. cbv zeta in Hframe2.
  fold m0 in Hsat, Hframe2.
  set (mpb2 := Master.generate_r1cs_witness m0 mpb1) in *.
  assert (Hshape2 : same_shape (master_pb st) mpb2).
  { eapply same_shape_trans; [exact Hshape1|apply same_shape_Master_witness]. }
  split; [|split; [exact Hsat|split]].
  - destruct ready as (m & st0 & Hgm & Hptr0 & Hnv0 & Hcs0).
    exists m, st0. cbn [master_ptr master_pb swapAB_flag].
    destruct Hshape2 as [Hn2 Hc2].
    split; [exact Hgm|]. split; [exact Hptr0|]. split; [now rewrite Hn2|now rewrite Hc2].
  - rewrite <- Hin1. apply list_fmap_ext. intros i v Hv. apply Hframe2. left.
    exact (Forall_lookup_1 _ _ _ _ Hseq Hv).
  - intros Hc Hco.
    destruct (layout_witness_values p consts n (seq 1 n) mpb1 F_ge_4 P_ge_1 Hc
                inputs_le_t C_length Hseq Hroom) as [_ Hvals].
    cbv zeta in Hvals. fold m0 mpb2 in Hvals. now rewrite Hvals, Hin1.
Qed.

(** The caller's table read through [translate] is the master's table. *)
Lemma stamper_witness_transfer :
  same_shape pbu pbu'
  /\ (forall v, v < instance_variables_offset g
                \/ instance_variables_offset g + Master.allocated p <= v ->
                val pbu' v = val pbu v)
  /\ (forall k, k <= nv -> val pbu' (translate g k) = val (master_pb st') k).
Proof.
  destruct (master_ready_inv st ready) as (Hptr & Hnv & Hcs).
  destruct stamper_master_table as (Hready' & _ & Hin & _).
  destruct (master_ready_inv st' Hready') as (_ & Hnv' & _).
  revert Hin Hnv'. unfold pbu', st', generate_r1cs_witness. cbn [fst snd master_pb].
  rewrite g_inputs.
  set (mpb2 := Master.generate_r1cs_witness (master g) _).
  intros Hin Hnv'. rewrite Hnv'.
  replace (nv - n) with (Master.allocated p) by (unfold nv; lia).
  set (f := fun i => val mpb2 (1 + n + i)).
  destruct (fold_set_val_range f (instance_variables_offset g) (Master.allocated p) pbu)
    as (Hshape & Hdone & Hframe); [exact g_offset|exact g_room|].
  cbv zeta in Hshape, Hdone, Hframe. unfold f in Hshape, Hdone, Hframe.
  split; [exact Hshape|]. split; [exact Hframe|].
  intros k Hk. unfold translate, translate_with. rewrite g_inputs.
  destruct (Nat.eqb_spec k 0) as [->|Hk0]; [reflexivity|].
  destruct (Nat.leb_spec k n) as [Hkn|Hkn].
  - destruct (lookup_lt_is_Some_2 (instance_inputs g) (k - 1)) as [v Hv]; [lia|].
    rewrite Hv. cbn [default id].
    rewrite Hframe by (left; exact (Forall_lookup_1 _ _ _ _ g_below Hv)).
    apply (f_equal (fun l => l !! (k - 1))) in Hin.
    rewrite !list_lookup_fmap, Hv, lookup_seq_lt in Hin by lia.
    cbn [fmap option_fmap option_map] in Hin. injection Hin as Hin.
    rewrite <- Hin. destruct k as [|k']; [lia|].
    cbn [val Nat.sub]. now rewrite Nat.sub_0_r.
  - replace (instance_variables_offset g + (k - (1 + n)))
      with (instance_variables_offset g + (k - 1 - n)) by lia.
    rewrite Hdone by (unfold nv in Hk; lia). f_equal. lia.
Qed.

End Instance.

End StamperSemantics.

Lemma map_fmap {A B : Type} (f : A -> B) (l : list A) : map f l = f <$> l.
Proof. induction l as [|x l IH]; [reflexivity|]. cbn. now rewrite IH. Qed.

Lemma stamped_constraints_spec (g : Poseidon_gadget_T.t)
    (st : Poseidon_gadget_T.statics) (pb : ProtoboardT) :
  Poseidon_gadget_T.generate_r1cs_constraints g st pb
  = mk_pb (values pb)
          (constraints pb
             ++ ((fun i => LightInstance i
                             (mk_translator (Poseidon_gadget_T.instance_inputs g)
                                            (Poseidon_gadget_T.instance_variables_offset g)))
                   <$> seq 0 (length (constraints (Poseidon_gadget_T.master_pb st))))).
Proof.
  unfold Poseidon_gadget_T.generate_r1cs_constraints.
  generalize (seq 0 (length (constraints (Poseidon_gadget_T.master_pb st)))).
  intros l. revert pb. induction l as [|i l IH]; intros pb; cbn [fold_left].
  - cbn. rewrite app_nil_r. now destruct pb.
  - rewrite IH. cbn [values constraints]. now rewrite <- app_assoc.
Qed.

Lemma same_shape_stamper_witness (g : Poseidon_gadget_T.t)
    (st : Poseidon_gadget_T.statics) (pb : ProtoboardT) :
  same_shape (Poseidon_gadget_T.master_pb st)
             (Poseidon_gadget_T.master_pb
                (Poseidon_gadget_T.generate_r1cs_witness g st pb).1).
Proof.
  unfold Poseidon_gadget_T.generate_r1cs_witness. cbn [fst Poseidon_gadget_T.master_pb].
  eapply same_shape_trans; [|apply same_shape_Master_witness].
  apply same_shape_fold. intros pb0 i. apply same_shape_set_val.
Qed.

(** X16.  The statics of the stamper once the master exists.  The first
    constructor leaves the statics that the initialiser of [get_master]
    builds; from then on a constructor changes nothing of them and hands
    every instance the same master, [generate_r1cs_witness] changes
    witness values only, and [swapAB] swaps the master's constraints
    exactly when the flag was not yet set. *)
Theorem stamper_statics_invariant (p : Master_Poseidon_gadget_T.params)
    (consts : PoseidonConstants) :
  (forall pb in_inputs g st' pb',
     Poseidon_gadget_T.ctor p consts Poseidon_gadget_T.initial_statics pb in_inputs
     = Ok (g, st', pb') ->
     Stamping.master_ready p consts st'
     /\ Poseidon_gadget_T.master_ptr st' = Some (Poseidon_gadget_T.master g))
  /\ (forall st, Stamping.master_ready p consts st ->
        (forall pb in_inputs g st' pb',
           Poseidon_gadget_T.ctor p consts st pb in_inputs = Ok (g, st', pb') ->
           st' = st
           /\ Poseidon_gadget_T.master_ptr st = Some (Poseidon_gadget_T.master g))
        /\ (forall g pb,
              Stamping.master_ready p consts
                (Poseidon_gadget_T.generate_r1cs_witness g st pb).1)
        /\ (forall g, Stamping.master_ready p consts (Poseidon_gadget_T.swapAB g st))).
Proof.
  split.
  - intros pb in_inputs g st' pb' Hctor.
    destruct (ctor_inv _ _ _ _ _ _ _ _ Hctor) as (m & out_0 & Hgm & _ & _ & -> & _).
    destruct (get_master_inv _ _ _ _ _ Hgm) as (Hptr & Hflag & _).
    split; [|exact Hptr]. exists m, st'. rewrite Hflag. cbn. auto.
  - intros st (m & st0 & Hgm0 & Hptr & Hnv & Hcs). split; [|split].
    + intros pb in_inputs g st' pb' Hctor.
      destruct (ctor_inv _ _ _ _ _ _ _ _ Hctor) as (m2 & out_0 & Hgm & _ & _ & -> & _).
      rewrite (get_master_initialised _ _ _ _ Hptr) in Hgm.
      injection Hgm as <- <-. auto.
    + intros g pb. destruct (same_shape_stamper_witness g st pb) as [Hn Hc].
      exists m, st0. split; [exact Hgm0|]. split; [exact Hptr|].
      split; [now rewrite Hn|]. rewrite Hc. exact Hcs.
    + intros g. unfold Poseidon_gadget_T.swapAB.
      destruct (Poseidon_gadget_T.swapAB_flag st) eqn:Hflag.
      * exists m, st0. rewrite Hflag. auto.
      * exists m, st0. cbn. rewrite Hcs. auto.
Qed.

(** X17.  An instance needs a first output variable.  Without
    [constrainOutputs], or with [nOutputs = 0], the master has no output
    variable, and the constructor of the instance, which reads
    [master._output_vars[0]], indexes an empty array. *)
Theorem stamper_ctor_without_output_variable (p : Master_Poseidon_gadget_T.params)
    (consts : PoseidonConstants) (pb : ProtoboardT) (in_inputs : VariableArrayT) :
  4 <= Master_Poseidon_gadget_T.param_F p ->
  1 <= Master_Poseidon_gadget_T.param_P p ->
  Master_Poseidon_gadget_T.nInputs p <= Master_Poseidon_gadget_T.param_t p ->
  Master_Poseidon_gadget_T.nOutputs p <= Master_Poseidon_gadget_T.param_t p ->
  length (C consts)
    = Master_Poseidon_gadget_T.param_F p + Master_Poseidon_gadget_T.param_P p ->
  length in_inputs = Master_Poseidon_gadget_T.nInputs p ->
  Master_Poseidon_gadget_T.constrainOutputs p = false
  \/ Master_Poseidon_gadget_T.nOutputs p = 0 ->
  Poseidon_gadget_T.ctor p consts Poseidon_gadget_T.initial_statics pb in_inputs
  = Undefined.
Proof.
  intros HF HP Hin Hout HC Hlen Hcase. unfold Poseidon_gadget_T.ctor.
  rewrite get_master_initial by assumption.
  cbn [mbind outcome_bind Poseidon_gadget_T.master_pb].
  unfold num_variables at 1. cbn [values]. rewrite length_replicate.
  destruct (Nat.ltb_spec (Master_Poseidon_gadget_T.nInputs p
                          + Master_Poseidon_gadget_T.allocated p) (length in_inputs));
    [lia|].
  rewrite make_var_array_spec, layout_output_vars by exact HF.
  destruct Hcase as [Hco|H0].
  - rewrite Hco. reflexivity.
  - rewrite H0. now destruct (Master_Poseidon_gadget_T.constrainOutputs p).
Qed.

(** X18.  The index translation of an instance whose inputs are distinct
    variables of the caller is injective: two master variables are never
    sent to the same variable of the caller. *)
Theorem stamper_translate_injective (p : Master_Poseidon_gadget_T.params)
    (consts : PoseidonConstants) (st st' : Poseidon_gadget_T.statics)
    (pb pb' : ProtoboardT) (in_inputs : VariableArrayT) (g : Poseidon_gadget_T.t)
    (j k : nat) :
  Poseidon_gadget_T.ctor p consts st pb in_inputs = Ok (g, st', pb') ->
  NoDup in_inputs ->
  Forall (fun v => 1 <= v <= num_variables pb) in_inputs ->
  Poseidon_gadget_T.translate g j = Poseidon_gadget_T.translate g k ->
  j = k.
Proof.
  intros Hctor Hnd Hvars.
  destruct (ctor_inv _ _ _ _ _ _ _ _ Hctor) as (m & out_0 & _ & _ & _ & -> & _).
  unfold Poseidon_gadget_T.translate, Poseidon_gadget_T.translate_with.
  cbn [Poseidon_gadget_T.instance_inputs Poseidon_gadget_T.instance_variables_offset].
  assert (Hin : forall i, 1 <= i <= length in_inputs ->
            exists v, in_inputs !! (i - 1) = Some v /\ 1 <= v <= num_variables pb).
  { intros i Hi. destruct (lookup_lt_is_Some_2 in_inputs (i - 1)) as [v Hv]; [lia|].
    exists v. split; [exact Hv|]. exact (Forall_lookup_1 _ _ _ _ Hvars Hv). }
  destruct (Nat.eqb_spec j 0) as [->|Hj0]; destruct (Nat.eqb_spec k 0) as [->|Hk0].
  - reflexivity.
  - destruct (Nat.leb_spec k (length in_inputs)) as [Hk|Hk]; [|lia].
    destruct (Hin k) as (v & -> & Hv); [lia|]. cbn [default id]. lia.
  - destruct (Nat.leb_spec j (length in_inputs)) as [Hj|Hj]; [|lia].
    destruct (Hin j) as (v & -> & Hv); [lia|]. cbn [default id]. lia.
  - destruct (Nat.leb_spec j (length in_inputs)) as [Hj|Hj];
      destruct (Nat.leb_spec k (length in_inputs)) as [Hk|Hk].
    + destruct (Hin j) as (v & Hvj & Hv); [lia|].
      destruct (Hin k) as (w & Hwk & Hw); [lia|].
      rewrite Hvj, Hwk. cbn [default id]. intros ->.
      pose proof (NoDup_lookup _ _ _ _ Hnd Hvj Hwk). lia.
    + destruct (Hin j) as (v & -> & Hv); [lia|]. cbn [default id]. lia.
    + destruct (Hin k) as (v & -> & Hv); [lia|]. cbn [default id]. lia.
    + lia.
Qed.

(** What an instance the constructor returned needs for its witness. *)
Lemma ctor_instance_ready (p : Master_Poseidon_gadget_T.params)
    (consts : PoseidonConstants) (st st1 : Poseidon_gadget_T.statics)
    (pb pb1 pbu : ProtoboardT) (in_inputs : VariableArrayT) (g : Poseidon_gadget_T.t) :
  4 <= Master_Poseidon_gadget_T.param_F p ->
  1 <= Master_Poseidon_gadget_T.param_P p ->
  Master_Poseidon_gadget_T.nInputs p <= Master_Poseidon_gadget_T.param_t p ->
  Master_Poseidon_gadget_T.nOutputs p <= Master_Poseidon_gadget_T.param_t p ->
  length (C consts)
    = Master_Poseidon_gadget_T.param_F p + Master_Poseidon_gadget_T.param_P p ->
  st = Poseidon_gadget_T.initial_statics \/ Stamping.master_ready p consts st ->
  Poseidon_gadget_T.ctor p consts st pb in_inputs = Ok (g, st1, pb1) ->
  length in_inputs = Master_Poseidon_gadget_T.nInputs p ->
  Forall (fun v => v <= num_variables pb) in_inputs ->
  num_variables pb1 <= num_variables pbu ->
  let m0 := Master_Poseidon_gadget_T.layout p consts (Master_Poseidon_gadget_T.nInputs p)
              (seq 1 (Master_Poseidon_gadget_T.nInputs p)) in
  Poseidon_gadget_T.master g = m0
  /\ Poseidon_gadget_T.instance_inputs g = in_inputs
  /\ Poseidon_gadget_T.instance_variables_offset g = num_variables pb + 1
  /\ num_variables pb1 = num_variables pb + Master_Poseidon_gadget_T.allocated p
  /\ Forall (fun v => v < Poseidon_gadget_T.instance_variables_offset g)
            (Poseidon_gadget_T.instance_inputs g)
  /\ Poseidon_gadget_T.instance_variables_offset g + Master_Poseidon_gadget_T.allocated p
     <= num_variables pbu + 1
  /\ exists out_0, Master_Poseidon_gadget_T._output_vars m0 !! 0 = Some out_0
                   /\ Poseidon_gadget_T.res g = Poseidon_gadget_T.translate g out_0.
Proof.
  intros HF HP Hin Hout HC Hst Hctor Hlen Hbelow Hroom m0.
  destruct (ctor_instance p consts HF HP Hin Hout HC _ _ _ _ _ _ Hst Hctor)
    as (_ & Hm & Hi & Ho & _ & Hpb1 & Hres).
  assert (Hnv1 : num_variables pb1
                 = num_variables pb + Master_Poseidon_gadget_T.allocated p).
  { rewrite Hpb1, num_variables_app_replicate, Hlen. lia. }
  split; [exact Hm|]. split; [exact Hi|]. split; [exact Ho|]. split; [exact Hnv1|].
  split; [|split; [lia|exact Hres]].
  rewrite Hi, Ho. eapply Forall_impl; [exact Hbelow|]. cbn. intros v Hv. lia.
Qed.

(** The caller's variable [result()] stands for: the first one after the
    S-box variables of the instance. *)
Lemma instance_result_index (p : Master_Poseidon_gadget_T.params)
    (consts : PoseidonConstants) (st st1 : Poseidon_gadget_T.statics)
    (pb pb1 : ProtoboardT) (in_inputs : VariableArrayT) (g : Poseidon_gadget_T.t) :
  4 <= Master_Poseidon_gadget_T.param_F p ->
  1 <= Master_Poseidon_gadget_T.param_P p ->
  Master_Poseidon_gadget_T.nInputs p <= Master_Poseidon_gadget_T.param_t p ->
  Master_Poseidon_gadget_T.nOutputs p <= Master_Poseidon_gadget_T.param_t p ->
  length (C consts)
    = Master_Poseidon_gadget_T.param_F p + Master_Poseidon_gadget_T.param_P p ->
  st = Poseidon_gadget_T.initial_statics \/ Stamping.master_ready p consts st ->
  Poseidon_gadget_T.ctor p consts st pb in_inputs = Ok (g, st1, pb1) ->
  length in_inputs = Master_Poseidon_gadget_T.nInputs p ->
  Master_Poseidon_gadget_T.constrainOutputs p = true
  /\ 1 <= Master_Poseidon_gadget_T.nOutputs p
  /\ Poseidon_gadget_T.res g
     = num_variables pb
       + 3 * (Master_Poseidon_gadget_T.param_t p * Master_Poseidon_gadget_T.param_F p
              + Master_Poseidon_gadget_T.param_c p * Master_Poseidon_gadget_T.param_P p)
       + 1.
Proof.
  intros HF HP Hin Hout HC Hst Hctor Hlen.
  destruct (ctor_instance p consts HF HP Hin Hout HC _ _ _ _ _ _ Hst Hctor)
    as (_ & _ & Hi & Ho & _ & _ & out_0 & Hout0 & Hres).
  rewrite layout_output_vars in Hout0 by exact HF.
  destruct (Master_Poseidon_gadget_T.constrainOutputs p); [|discriminate].
  destruct (Master_Poseidon_gadget_T.nOutputs p) as [|k]; [discriminate|].
  cbn [seq lookup list_lookup] in Hout0. injection Hout0 as <-.
  split; [reflexivity|]. split; [lia|].
  rewrite Hres. unfold Poseidon_gadget_T.translate, Poseidon_gadget_T.translate_with.
  rewrite Hi, Ho, Hlen. cbn [Nat.eqb].
  match goal with |- context [?a <=? ?b] => destruct (Nat.leb_spec a b) end; lia.
Qed.

(** The witness of an instance the constructor returned, on a table of the
    caller that has the variables of the instance. *)
Lemma instance_witness_spec (p : Master_Poseidon_gadget_T.params)
    (consts : PoseidonConstants) (st st1 stw : Poseidon_gadget_T.statics)
    (pb pb1 pbu : ProtoboardT) (in_inputs : VariableArrayT) (g : Poseidon_gadget_T.t) :
  4 <= Master_Poseidon_gadget_T.param_F p ->
  1 <= Master_Poseidon_gadget_T.param_P p ->
  Master_Poseidon_gadget_T.param_c p <= Master_Poseidon_gadget_T.param_t p ->
  Master_Poseidon_gadget_T.nInputs p <= Master_Poseidon_gadget_T.param_t p ->
  Master_Poseidon_gadget_T.nOutputs p <= Master_Poseidon_gadget_T.param_t p ->
  length (C consts)
    = Master_Poseidon_gadget_T.param_F p + Master_Poseidon_gadget_T.param_P p ->
  st = Poseidon_gadget_T.initial_statics \/ Stamping.master_ready p consts st ->
  Poseidon_gadget_T.ctor p consts st pb in_inputs = Ok (g, st1, pb1) ->
  length in_inputs = Master_Poseidon_gadget_T.nInputs p ->
  Forall (fun v => v <= num_variables pb) in_inputs ->
  Stamping.master_ready p consts stw ->
  num_variables pb1 <= num_variables pbu ->
  let st' := (Poseidon_gadget_T.generate_r1cs_witness g stw pbu).1 in
  let pbu' := (Poseidon_gadget_T.generate_r1cs_witness g stw pbu).2 in
  let y := Permutation.permutation p consts (val pbu <$> in_inputs) in
  Stamping.master_ready p consts st'
  /\ same_shape pbu pbu'
  /\ (forall v, v <= num_variables pb \/ num_variables pb1 < v -> val pbu' v = val pbu v)
  /\ val pbu' <$> (Poseidon_gadget_T.translate g
                     <$> Master_Poseidon_gadget_T._output_vars (Poseidon_gadget_T.master g))
     = y
  /\ y !! 0 = Some (val pbu' (Poseidon_gadget_T.result g))
  /\ num_variables pb < Poseidon_gadget_T.result g <= num_variables pb1.
Proof.
  intros HF HP Hc Hin Hout HC Hst Hctor Hlen Hbelow Hready Hroom st' pbu' y.
  destruct (ctor_instance_ready p consts st st1 pb pb1 pbu in_inputs g
              HF HP Hin Hout HC Hst Hctor Hlen Hbelow Hroom)
    as (Hm & Hi & Ho & Hnv1 & Hlt & Hblock & out_0 & Hout0 & Hres).
  destruct (instance_result_index p consts st st1 pb pb1 in_inputs g
              HF HP Hin Hout HC Hst Hctor Hlen) as (Hco & Hn1 & Hidx).
  assert (Hgi : length (Poseidon_gadget_T.instance_inputs g)
                = Master_Poseidon_gadget_T.nInputs p) by now rewrite Hi.
  assert (Hoff : 1 <= Poseidon_gadget_T.instance_variables_offset g) by lia.
  destruct (stamper_master_table p consts HF HP Hin Hout HC g stw pbu Hready Hm Hgi)
    as (Hready' & _ & _ & Hvals).
  destruct (stamper_witness_transfer p consts HF HP Hin Hout HC g stw pbu Hready Hm Hgi
              Hlt Hoff Hblock) as (Hshape & Hframe & Htr).
  fold st' in Hready', Hvals, Htr. fold pbu' in Hshape, Hframe, Htr.
  rewrite Hi in Hvals. fold y in Hvals. specialize (Hvals Hc Hco).
  set (m0 := Master_Poseidon_gadget_T.layout p consts (Master_Poseidon_gadget_T.nInputs p)
               (seq 1 (Master_Poseidon_gadget_T.nInputs p))) in *.
  pose proof (layout_output_vars p consts (Master_Poseidon_gadget_T.nInputs p)
                (seq 1 (Master_Poseidon_gadget_T.nInputs p)) HF) as Hvars.
  fold m0 in Hvars. rewrite Hco in Hvars.
  assert (Hy : val pbu' <$> (Poseidon_gadget_T.translate g
                               <$> Master_Poseidon_gadget_T._output_vars m0) = y).
  { rewrite <- Hvals, <- list_fmap_compose. apply list_fmap_ext.
    intros i v Hv. cbn [compose]. apply Htr.
    rewrite Hvars in Hv. apply lookup_seq in Hv as [-> Hi'].
    unfold Master_Poseidon_gadget_T.allocated. rewrite Hco. lia. }
  split; [exact Hready'|]. split; [exact Hshape|]. split; [|split; [|split]].
  - intros v Hv. apply Hframe. lia.
  - now rewrite Hm.
  - rewrite <- Hy, !list_lookup_fmap, Hout0. cbn [fmap option_fmap option_map].
    unfold Poseidon_gadget_T.result. now rewrite Hres.
  - unfold Poseidon_gadget_T.result. rewrite Hidx, Hnv1.
    unfold Master_Poseidon_gadget_T.allocated. rewrite Hco. lia.
Qed.

(** X19.  The witness of an instance copies the master's table.  After
    [generate_r1cs_witness] of an instance, the caller's table read through
    [translate] is the master's table, variable by variable; the caller's
    table has changed on the auxiliary block of the instance and nowhere
    else, and the statics have changed in witness values only. *)
Theorem stamper_witness_copies_master (p : Master_Poseidon_gadget_T.params)
    (consts : PoseidonConstants) (st st1 stw : Poseidon_gadget_T.statics)
    (pb pb1 pbu : ProtoboardT) (in_inputs : VariableArrayT) (g : Poseidon_gadget_T.t) :
  4 <= Master_Poseidon_gadget_T.param_F p ->
  1 <= Master_Poseidon_gadget_T.param_P p ->
  Master_Poseidon_gadget_T.nInputs p <= Master_Poseidon_gadget_T.param_t p ->
  Master_Poseidon_gadget_T.nOutputs p <= Master_Poseidon_gadget_T.param_t p ->
  length (C consts)
    = Master_Poseidon_gadget_T.param_F p + Master_Poseidon_gadget_T.param_P p ->
  st = Poseidon_gadget_T.initial_statics \/ Stamping.master_ready p consts st ->
  Poseidon_gadget_T.ctor p consts st pb in_inputs = Ok (g, st1, pb1) ->
  length in_inputs = Master_Poseidon_gadget_T.nInputs p ->
  Forall (fun v => v <= num_variables pb) in_inputs ->
  Stamping.master_ready p consts stw ->
  num_variables pb1 <= num_variables pbu ->
  let st' := (Poseidon_gadget_T.generate_r1cs_witness g stw pbu).1 in
  let pbu' := (Poseidon_gadget_T.generate_r1cs_witness g stw pbu).2 in
  Stamping.master_ready p consts st'
  /\ same_shape pbu pbu'
  /\ (forall v, v <= num_variables pb \/ num_variables pb1 < v ->
                val pbu' v = val pbu v)
  /\ (forall k, k <= num_variables (Poseidon_gadget_T.master_pb st') ->
                val pbu' (Poseidon_gadget_T.translate g k)
                = val (Poseidon_gadget_T.master_pb st') k).
Proof.
  intros HF HP Hin Hout HC Hst Hctor Hlen Hbelow Hready Hroom st' pbu'.
  destruct (ctor_instance_ready p consts st st1 pb pb1 pbu in_inputs g
              HF HP Hin Hout HC Hst Hctor Hlen Hbelow Hroom)
    as (Hm & Hi & Ho & Hnv1 & Hlt & Hblock & _).
  assert (Hgi : length (Poseidon_gadget_T.instance_inputs g)
                = Master_Poseidon_gadget_T.nInputs p) by now rewrite Hi.
  assert (Hoff : 1 <= Poseidon_gadget_T.instance_variables_offset g) by lia.
  destruct (stamper_master_table p consts HF HP Hin Hout HC g stw pbu Hready Hm Hgi)
    as (Hready' & _).
  destruct (stamper_witness_transfer p consts HF HP Hin Hout HC g stw pbu Hready Hm Hgi
              Hlt Hoff Hblock) as (Hshape & Hframe & Htr).
  destruct (master_ready_inv p consts HF HP Hin Hout HC _ Hready') as (_ & Hnv' & _).
  fold st' in Hready', Hnv', Htr. fold pbu' in Hshape, Hframe, Htr.
  split; [exact Hready'|]. split; [exact Hshape|]. split.
  - intros v Hv. apply Hframe. lia.
  - intros k Hk. apply Htr. now rewrite <- Hnv'.
Qed.

(** X20.  Witness soundness of a stamped instance.  Every entry that
    [generate_r1cs_constraints] of an instance appends to a protoboard is a
    light instance, one for each constraint of the master, in order; and
    once [generate_r1cs_witness] of the instance has run on the caller's
    table, each of them, read through the translation of the instance,
    holds under that table, whether or not [swapAB] has run. *)
Theorem stamper_witness_sound (p : Master_Poseidon_gadget_T.params)
    (consts : PoseidonConstants) (st st1 stw : Poseidon_gadget_T.statics)
    (pb pb1 pbu pbc0 : ProtoboardT) (in_inputs : VariableArrayT)
    (g : Poseidon_gadget_T.t) :
  4 <= Master_Poseidon_gadget_T.param_F p ->
  1 <= Master_Poseidon_gadget_T.param_P p ->
  Master_Poseidon_gadget_T.nInputs p <= Master_Poseidon_gadget_T.param_t p ->
  Master_Poseidon_gadget_T.nOutputs p <= Master_Poseidon_gadget_T.param_t p ->
  length (C consts)
    = Master_Poseidon_gadget_T.param_F p + Master_Poseidon_gadget_T.param_P p ->
  st = Poseidon_gadget_T.initial_statics \/ Stamping.master_ready p consts st ->
  Poseidon_gadget_T.ctor p consts st pb in_inputs = Ok (g, st1, pb1) ->
  length in_inputs = Master_Poseidon_gadget_T.nInputs p ->
  Forall (fun v => v <= num_variables pb) in_inputs ->
  Stamping.master_ready p consts stw ->
  num_variables pb1 <= num_variables pbu ->
  let pbc := Poseidon_gadget_T.generate_r1cs_constraints g stw pbc0 in
  let st' := (Poseidon_gadget_T.generate_r1cs_witness g stw pbu).1 in
  let pbu' := (Poseidon_gadget_T.generate_r1cs_witness g stw pbu).2 in
  let tr := mk_translator in_inputs (num_variables pb + 1) in
  values pbc = values pbc0
  /\ drop (length (constraints pbc0)) (constraints pbc)
     = (fun i => LightInstance i tr)
         <$> seq 0 (length (constraints (Poseidon_gadget_T.master_pb stw)))
  /\ Forall (Stamping.entry_satisfied (Poseidon_gadget_T.master_pb st') pbu')
            (drop (length (constraints pbc0)) (constraints pbc)).
Proof.
  intros HF HP Hin Hout HC Hst Hctor Hlen Hbelow Hready Hroom pbc st' pbu' tr.
  destruct (ctor_instance_ready p consts st st1 pb pb1 pbu in_inputs g
              HF HP Hin Hout HC Hst Hctor Hlen Hbelow Hroom)
    as (Hm & Hi & Ho & Hnv1 & Hlt & Hblock & _).
  assert (Hgi : length (Poseidon_gadget_T.instance_inputs g)
                = Master_Poseidon_gadget_T.nInputs p) by now rewrite Hi.
  assert (Hoff : 1 <= Poseidon_gadget_T.instance_variables_offset g) by lia.
  destruct (stamper_master_table p consts HF HP Hin Hout HC g stw pbu Hready Hm Hgi)
    as (Hready' & Hsat & _).
  destruct (stamper_witness_transfer p consts HF HP Hin Hout HC g stw pbu Hready Hm Hgi
              Hlt Hoff Hblock) as (_ & _ & Htr).
  destruct (master_ready_inv p consts HF HP Hin Hout HC _ Hready) as (_ & _ & Hcsw).
  destruct (master_ready_inv p consts HF HP Hin Hout HC _ Hready') as (_ & _ & Hcs').
  fold st' in Hready', Hsat, Htr, Hcs'. fold pbu' in Htr.
  set (m0 := Master_Poseidon_gadget_T.layout p consts (Master_Poseidon_gadget_T.nInputs p)
               (seq 1 (Master_Poseidon_gadget_T.nInputs p))) in *.
  assert (Hseq : Forall (fun v => v <= Master_Poseidon_gadget_T.nInputs p)
                        (seq 1 (Master_Poseidon_gadget_T.nInputs p))).
  { apply Forall_forall. intros v Hv. apply elem_of_seq in Hv. lia. }
  pose proof (layout_emitted_below p consts _ _ HF HP Hseq) as Hclosed. fold m0 in Hclosed.
  subst pbc. rewrite stamped_constraints_spec. cbn [values constraints].
  rewrite drop_app_length, Hi, Ho. fold tr.
  split; [reflexivity|]. split; [reflexivity|].
  apply Forall_fmap, Forall_forall. intros i Hi'. apply elem_of_seq in Hi'.
  assert (Hlen_cs : length (constraints (Poseidon_gadget_T.master_pb stw))
                    = length (Master_Poseidon_gadget_T.emitted m0)).
  { rewrite Hcsw. destruct (Poseidon_gadget_T.swapAB_flag stw);
      now rewrite ?length_map, ?length_fmap. }
  destruct (lookup_lt_is_Some_2 (Master_Poseidon_gadget_T.emitted m0) i) as [k Hk];
    [lia|].
  pose proof (Forall_lookup_1 _ _ _ _ Hclosed Hk) as (Ha & Hb & Hc).
  pose proof (Forall_lookup_1 _ _ _ _ Hsat Hk) as Hk_sat.
  assert (Htr' : forall j,
            j <= Master_Poseidon_gadget_T.nInputs p + Master_Poseidon_gadget_T.allocated p ->
            val pbu' (Poseidon_gadget_T.translate_with (tr_inputs tr) (tr_offset tr) j)
            = val (Poseidon_gadget_T.master_pb st') j).
  { intros j Hj. specialize (Htr j Hj). revert Htr.
    unfold Poseidon_gadget_T.translate. now rewrite Hi, Ho. }
  cbn [compose Stamping.entry_satisfied]. rewrite Hcs'.
  unfold is_satisfied in Hk_sat |- *.
  destruct (Poseidon_gadget_T.swapAB_flag st').
  - rewrite map_fmap, !list_lookup_fmap, Hk.
    cbn [fmap option_fmap option_map Poseidon_gadget_T.constraint_swapAB a b c].
    unfold is_satisfied. cbn [a b c].
    rewrite (translate_lc_val tr _ _ _ (a k) Htr' Ha).
    rewrite (translate_lc_val tr _ _ _ (b k) Htr' Hb).
    rewrite (translate_lc_val tr _ _ _ (c k) Htr' Hc).
    now rewrite mul_comm.
  - rewrite list_lookup_fmap, Hk. cbn [fmap option_fmap option_map].
    unfold is_satisfied. cbn [a b c].
    rewrite (translate_lc_val tr _ _ _ (a k) Htr' Ha).
    rewrite (translate_lc_val tr _ _ _ (b k) Htr' Hb).
    now rewrite (translate_lc_val tr _ _ _ (c k) Htr' Hc).
Qed.

(** X21.  What a stamped instance computes.  After
    [generate_r1cs_witness] of an instance, the variables of the caller
    that the master's output variables translate to hold the permutation
    of the values of the caller's input variables, and [result()] is the
    first of them. *)
Theorem stamper_result_is_permutation (p : Master_Poseidon_gadget_T.params)
    (consts : PoseidonConstants) (st st1 stw : Poseidon_gadget_T.statics)
    (pb pb1 pbu : ProtoboardT) (in_inputs : VariableArrayT) (g : Poseidon_gadget_T.t) :
  4 <= Master_Poseidon_gadget_T.param_F p ->
  1 <= Master_Poseidon_gadget_T.param_P p ->
  Master_Poseidon_gadget_T.param_c p <= Master_Poseidon_gadget_T.param_t p ->
  Master_Poseidon_gadget_T.nInputs p <= Master_Poseidon_gadget_T.param_t p ->
  Master_Poseidon_gadget_T.nOutputs p <= Master_Poseidon_gadget_T.param_t p ->
  length (C consts)
    = Master_Poseidon_gadget_T.param_F p + Master_Poseidon_gadget_T.param_P p ->
  st = Poseidon_gadget_T.initial_statics \/ Stamping.master_ready p consts st ->
  Poseidon_gadget_T.ctor p consts st pb in_inputs = Ok (g, st1, pb1) ->
  length in_inputs = Master_Poseidon_gadget_T.nInputs p ->
  Forall (fun v => v <= num_variables pb) in_inputs ->
  Stamping.master_ready p consts stw ->
  num_variables pb1 <= num_variables pbu ->
  let pbu' := (Poseidon_gadget_T.generate_r1cs_witness g stw pbu).2 in
  let y := Permutation.permutation p consts (val pbu <$> in_inputs) in
  val pbu' <$> (Poseidon_gadget_T.translate g
                  <$> Master_Poseidon_gadget_T._output_vars (Poseidon_gadget_T.master g))
  = y
  /\ y !! 0 = Some (val pbu' (Poseidon_gadget_T.result g)).
Proof.
  intros HF HP Hc Hin Hout HC Hst Hctor Hlen Hbelow Hready Hroom pbu' y.
  destruct (ctor_instance_ready p consts st st1 pb pb1 pbu in_inputs g
              HF HP Hin Hout HC Hst Hctor Hlen Hbelow Hroom)
    as (Hm & Hi & Ho & Hnv1 & Hlt & Hblock & out_0 & Hout0 & Hres).
  assert (Hgi : length (Poseidon_gadget_T.instance_inputs g)
                = Master_Poseidon_gadget_T.nInputs p) by now rewrite Hi.
  assert (Hoff : 1 <= Poseidon_gadget_T.instance_variables_offset g) by lia.
  destruct (stamper_master_table p consts HF HP Hin Hout HC g stw pbu Hready Hm Hgi)
    as (_ & _ & _ & Hvals).
  destruct (stamper_witness_transfer p consts HF HP Hin Hout HC g stw pbu Hready Hm Hgi
              Hlt Hoff Hblock) as (_ & _ & Htr).
  fold pbu' in Htr. rewrite Hi in Hvals. fold y in Hvals.
  set (m0 := Master_Poseidon_gadget_T.layout p consts (Master_Poseidon_gadget_T.nInputs p)
               (seq 1 (Master_Poseidon_gadget_T.nInputs p))) in *.
  pose proof (layout_output_vars p consts (Master_Poseidon_gadget_T.nInputs p)
                (seq 1 (Master_Poseidon_gadget_T.nInputs p)) HF) as Hvars.
  fold m0 in Hvars.
  destruct (Master_Poseidon_gadget_T.constrainOutputs p) eqn:Hco;
    [|rewrite Hvars in Hout0; discriminate].
  specialize (Hvals Hc eq_refl).
  assert (Hy : val pbu' <$> (Poseidon_gadget_T.translate g
                               <$> Master_Poseidon_gadget_T._output_vars m0) = y).
  { rewrite <- Hvals, <- list_fmap_compose. apply list_fmap_ext.
    intros i v Hv. cbn [compose]. apply Htr.
    rewrite Hvars in Hv. apply lookup_seq in Hv as [-> Hi'].
    unfold Master_Poseidon_gadget_T.allocated. rewrite Hco. lia. }
  rewrite Hm. split; [exact Hy|].
  rewrite <- Hy, !list_lookup_fmap, Hout0. cbn [fmap option_fmap option_map].
  unfold Poseidon_gadget_T.result. now rewrite Hres.
Qed.

(** X22.  [swapAB] keeps the solutions.  A constraint with [A] and [B]
    swapped holds under exactly the witness tables under which it held
    before; so every light instance, which reads the master's constraints,
    holds after [swapAB] under exactly the tables under which it held
    before. *)
Theorem swapAB_keeps_solutions (g : Poseidon_gadget_T.t)
    (st : Poseidon_gadget_T.statics) (mpb pbw : ProtoboardT) :
  (forall e, Stamping.entry_satisfied mpb pbw (Poseidon_gadget_T.constraint_swapAB e)
             <-> Stamping.entry_satisfied mpb pbw e)
  /\ (forall i tr,
        Stamping.entry_satisfied (Poseidon_gadget_T.master_pb (Poseidon_gadget_T.swapAB g st))
                                 pbw (LightInstance i tr)
        <-> Stamping.entry_satisfied (Poseidon_gadget_T.master_pb st) pbw
                                     (LightInstance i tr)).
Proof.
  split.
  - intros [k|i tr]; [|reflexivity].
    cbn [Poseidon_gadget_T.constraint_swapAB Stamping.entry_satisfied].
    apply swapAB_satisfied.
  - intros i tr. unfold Poseidon_gadget_T.swapAB.
    destruct (Poseidon_gadget_T.swapAB_flag st); [reflexivity|].
    cbn [Poseidon_gadget_T.master_pb constraints Stamping.entry_satisfied].
    rewrite map_fmap, list_lookup_fmap.
    destruct (constraints (Poseidon_gadget_T.master_pb st) !! i) as [[k|j tr']|];
      cbn [fmap option_fmap option_map Poseidon_gadget_T.constraint_swapAB];
      try reflexivity.
    unfold is_satisfied. cbn [a b c]. now rewrite mul_comm.
Qed.

(** X23.  What an instance costs, and where its result is.  A constructor
    that returns has found constrained outputs and at least one of them; it
    has appended [3 * (t*F + c*P) + nOutputs] variables to the caller's
    protoboard and no constraint; [generate_r1cs_constraints] appends as
    many entries; and [result()] is the first variable after the
    [3 * (t*F + c*P)] S-box variables of the instance. *)
Theorem stamper_instance_cost (p : Master_Poseidon_gadget_T.params)
    (consts : PoseidonConstants) (st st1 : Poseidon_gadget_T.statics)
    (pb pb1 pbc0 : ProtoboardT) (in_inputs : VariableArrayT) (g : Poseidon_gadget_T.t) :
  4 <= Master_Poseidon_gadget_T.param_F p ->
  1 <= Master_Poseidon_gadget_T.param_P p ->
  Master_Poseidon_gadget_T.nInputs p <= Master_Poseidon_gadget_T.param_t p ->
  Master_Poseidon_gadget_T.nOutputs p <= Master_Poseidon_gadget_T.param_t p ->
  length (C consts)
    = Master_Poseidon_gadget_T.param_F p + Master_Poseidon_gadget_T.param_P p ->
  st = Poseidon_gadget_T.initial_statics \/ Stamping.master_ready p consts st ->
  Poseidon_gadget_T.ctor p consts st pb in_inputs = Ok (g, st1, pb1) ->
  length in_inputs = Master_Poseidon_gadget_T.nInputs p ->
  let n := 3 * (Master_Poseidon_gadget_T.param_t p * Master_Poseidon_gadget_T.param_F p
                + Master_Poseidon_gadget_T.param_c p * Master_Poseidon_gadget_T.param_P p) in
  Master_Poseidon_gadget_T.constrainOutputs p = true
  /\ 1 <= Master_Poseidon_gadget_T.nOutputs p
  /\ num_variables pb1 = num_variables pb + n + Master_Poseidon_gadget_T.nOutputs p
  /\ constraints pb1 = constraints pb
  /\ length (constraints (Poseidon_gadget_T.generate_r1cs_constraints g st1 pbc0))
     = length (constraints pbc0) + n + Master_Poseidon_gadget_T.nOutputs p
  /\ Poseidon_gadget_T.result g = num_variables pb + n + 1.
Proof.
  intros HF HP Hin Hout HC Hst Hctor Hlen n.
  destruct (ctor_instance p consts HF HP Hin Hout HC _ _ _ _ _ _ Hst Hctor)
    as (Hready & _ & _ & _ & _ & Hpb1 & _).
  destruct (instance_result_index p consts st st1 pb pb1 in_inputs g
              HF HP Hin Hout HC Hst Hctor Hlen) as (Hco & Hn1 & Hidx).
  destruct (master_ready_inv p consts HF HP Hin Hout HC _ Hready) as (_ & _ & Hcs).
  split; [exact Hco|]. split; [exact Hn1|].
  assert (Halloc : Master_Poseidon_gadget_T.allocated p
                   = n + Master_Poseidon_gadget_T.nOutputs p)
    by (unfold Master_Poseidon_gadget_T.allocated; now rewrite Hco).
  split; [|split; [|split]].
  - rewrite Hpb1, num_variables_app_replicate, Hlen. lia.
  - now rewrite Hpb1.
  - rewrite stamped_constraints_length, Hcs.
    assert (Hlen_cs : forall A (f : A -> A) (l : list A),
              length (if Poseidon_gadget_T.swapAB_flag st1 then map f l else l) = length l)
      by (intros; destruct (Poseidon_gadget_T.swapAB_flag st1);
          now rewrite ?length_map).
    rewrite Hlen_cs, length_fmap, layout_emitted_length, Hco by exact HF. fold n. lia.
  - exact Hidx.
Qed.

(** X24.  Instances compose.  Two instances stamped one after the other
    on the same protoboard, their witnesses run in that order: each
    [result()] holds the permutation of the values its own inputs held
    when its witness ran, the second witness leaves the result of the
    first alone, and when the input of the second is the result of the
    first, the second result is the permutation of the first result. *)
Theorem stamper_instances_compose (p : Master_Poseidon_gadget_T.params)
    (consts : PoseidonConstants) (st1 st2 : Poseidon_gadget_T.statics)
    (pb0 pb1 pb2 pbx : ProtoboardT) (in1 in2 : VariableArrayT)
    (g1 g2 : Poseidon_gadget_T.t) :
  4 <= Master_Poseidon_gadget_T.param_F p ->
  1 <= Master_Poseidon_gadget_T.param_P p ->
  Master_Poseidon_gadget_T.param_c p <= Master_Poseidon_gadget_T.param_t p ->
  Master_Poseidon_gadget_T.nInputs p <= Master_Poseidon_gadget_T.param_t p ->
  Master_Poseidon_gadget_T.nOutputs p <= Master_Poseidon_gadget_T.param_t p ->
  length (C consts)
    = Master_Poseidon_gadget_T.param_F p + Master_Poseidon_gadget_T.param_P p ->
  Poseidon_gadget_T.ctor p consts Poseidon_gadget_T.initial_statics pb0 in1
  = Ok (g1, st1, pb1) ->
  Poseidon_gadget_T.ctor p consts st1 pb1 in2 = Ok (g2, st2, pb2) ->
  length in1 = Master_Poseidon_gadget_T.nInputs p ->
  length in2 = Master_Poseidon_gadget_T.nInputs p ->
  Forall (fun v => v <= num_variables pb0) in1 ->
  Forall (fun v => v <= num_variables pb1) in2 ->
  num_variables pb2 <= num_variables pbx ->
  let r1 := Poseidon_gadget_T.generate_r1cs_witness g1 st2 pbx in
  let r2 := Poseidon_gadget_T.generate_r1cs_witness g2 r1.1 r1.2 in
  let y1 := Permutation.permutation p consts (val pbx <$> in1) in
  let y2 := Permutation.permutation p consts (val r1.2 <$> in2) in
  y1 !! 0 = Some (val r2.2 (Poseidon_gadget_T.result g1))
  /\ y2 !! 0 = Some (val r2.2 (Poseidon_gadget_T.result g2))
  /\ Poseidon_gadget_T.result g1 <> Poseidon_gadget_T.result g2
  /\ (in2 = [Poseidon_gadget_T.result g1] ->
      Permutation.permutation p consts [val r2.2 (Poseidon_gadget_T.result g1)] !! 0
      = Some (val r2.2 (Poseidon_gadget_T.result g2))).
Proof.
  intros HF HP Hc Hin Hout HC Hctor1 Hctor2 Hlen1 Hlen2 Hbelow1 Hbelow2 Hroom r1 r2 y1 y2.
  destruct (ctor_instance p consts HF HP Hin Hout HC _ _ _ _ _ _
              (or_introl eq_refl) Hctor1) as (Hready1 & _ & _ & _ & _ & Hpb1 & _).
  destruct (ctor_instance p consts HF HP Hin Hout HC _ _ _ _ _ _
              (or_intror Hready1) Hctor2) as (Hready2 & _ & _ & _ & _ & Hpb2 & _).
  assert (Hnv12 : num_variables pb1 <= num_variables pb2)
    by (rewrite Hpb2, num_variables_app_replicate; lia).
  destruct (instance_witness_spec p consts _ st1 st2 pb0 pb1 pbx in1 g1
              HF HP Hc Hin Hout HC (or_introl eq_refl) Hctor1 Hlen1 Hbelow1 Hready2
              ltac:(lia)) as (Hready_a & Hshape_a & _ & _ & Hres1 & Hidx1).
  fold r1 y1 in Hready_a, Hshape_a, Hres1.
  assert (Hroom2 : num_variables pb2 <= num_variables r1.2)
    by (rewrite (proj1 Hshape_a); exact Hroom).
  destruct (instance_witness_spec p consts _ st2 r1.1 pb1 pb2 r1.2 in2 g2
              HF HP Hc Hin Hout HC (or_intror Hready1) Hctor2 Hlen2 Hbelow2 Hready_a
              Hroom2)
    as (_ & _ & Hframe_b & _ & Hres2 & Hidx2).
  fold r2 y2 in Hframe_b, Hres2.
  assert (Hkeep : val r2.2 (Poseidon_gadget_T.result g1)
                  = val r1.2 (Poseidon_gadget_T.result g1))
    by (apply Hframe_b; left; lia).
  split; [now rewrite Hkeep|]. split; [exact Hres2|]. split; [lia|].
  intros ->. rewrite <- Hres2. subst y2. cbn [fmap list_fmap]. now rewrite Hkeep.
Qed.

(** * The theorems at concrete inputs *)

Section Witnesses.

Import Examples.

(** C1 at the small parameter set, input value [9]. *)
Lemma master_witness_sound_witness :
  (4 <= 4 /\ 1 <= 1 /\ 1 <= 2 /\ 1 <= 2
   /\ length (C small_consts) = 4 + 1
   /\ length [1] = 1
   /\ Forall (fun v => 1 <= v <= num_variables one_input_pb) [1]
   /\ length [9%Z] = 1)
  /\ exists m pb',
       Master.ctor (small 1 1 true) small_consts one_input_pb [1] = Ok (m, pb')
       /\ let pbc := Master.generate_r1cs_constraints m pb' in
          let pbw := Master.generate_r1cs_witness m (assign_values [1] [9%Z] pbc) in
          Forall (fun e => exists k, e = Own k /\ is_satisfied pbw k)
                 (drop (length (constraints pb')) (constraints pbc)).
Proof.
  assert (H1 : 4 <= 4) by lia.
  assert (H2 : 1 <= 1) by lia.
  assert (H3 : 1 <= 2) by lia.
  assert (H4 : length (C small_consts) = 4 + 1) by reflexivity.
  assert (H5 : length [1] = 1) by reflexivity.
  assert (H6 : Forall (fun v => 1 <= v <= num_variables one_input_pb) [1])
    by (repeat constructor).
  assert (H7 : length [9%Z] = 1) by reflexivity.
  refine (conj (conj H1 (conj H2 (conj H3 (conj H3 (conj H4 (conj H5 (conj H6 H7)))))))
               _).
  exact (master_witness_sound (small 1 1 true) small_consts one_input_pb [1] [9%Z]
           H1 H2 H3 H3 H4 H5 H6 H7).
Defined.

(** C2 at [Poseidon128<1,1>]: 316 constraints. *)
Lemma master_constraint_count_witness :
  (4 <= 8 /\ 1 <= 57 /\ 1 <= 6 /\ 1 <= 6
   /\ length (C consts128) = 8 + 57
   /\ Master.constrainOutputs (Poseidon128 1 1 true) = true)
  /\ exists m pb',
       Master.ctor (Poseidon128 1 1 true) consts128 one_input_pb [1] = Ok (m, pb')
       /\ length (constraints (Master.generate_r1cs_constraints m pb'))
          = length (constraints pb') + 316.
Proof.
  assert (H1 : 4 <= 8) by lia.
  assert (H2 : 1 <= 57) by lia.
  assert (H3 : 1 <= 6) by lia.
  assert (H4 : length (C consts128) = 8 + 57) by reflexivity.
  assert (H5 : Master.constrainOutputs (Poseidon128 1 1 true) = true) by reflexivity.
  refine (conj (conj H1 (conj H2 (conj H3 (conj H3 (conj H4 H5))))) _).
  exact (master_constraint_count (Poseidon128 1 1 true) consts128 one_input_pb [1]
           H1 H2 H3 H3 H4 H5).
Defined.

(** C3 at output row 1 of a partial round of width 2. *)
Lemma round_output_row_witness :
  1 < 2
  /\ exists out_1,
       Poseidon_Round.make_outputs partial_round 3%Z [2; 3; 4; 9]%Z partial_state
         partial_sboxes !! 1 = Some out_1
       /\ out_1 = lc_add [mk_term ONE (field_sum [Fr.mul 3%Z 9%Z]); mk_term 5 4%Z]
                         (lc_scale (lc_of_var 2) 9%Z)
       /\ lc_val partial_pb out_1
          = Fr.add (Fr.add (field_sum [Fr.mul 4%Z (val partial_pb 5)])
                           (field_sum [Fr.mul 9%Z (lc_val partial_pb (lc_of_var 2))]))
                   (field_sum [Fr.mul 3%Z 9%Z]).
Proof.
  assert (H : 1 < 2) by lia.
  refine (conj H _).
  destruct (round_output_row partial_round 3%Z [2; 3; 4; 9]%Z partial_state
              partial_sboxes partial_pb 1 H) as (out_1 & Hlookup & Hshape & Hval).
  exists out_1. split; [exact Hlookup|]. split; [exact Hshape|exact Hval].
Defined.

(** C4 with the byte oracle [toy_blake2b] and three constants. *)
Lemma poseidon_constants_stream_witness :
  (1 <= 3 < u32_modulus)%N
  /\ length (poseidon_constants toy_blake2b "poseidon_constants" 3) = 3
  /\ exists outputs : list (list byte),
       length outputs = 3
       /\ outputs !! 0
          = Some (toy_blake2b 32 [] (list_byte_of_string "poseidon_constants"))
       /\ (forall k, S k < 3 -> outputs !! S k = toy_blake2b 32 [] <$> outputs !! k)
       /\ poseidon_constants toy_blake2b "poseidon_constants" 3
          = (fun bytes => (Z.of_N (le_bytes_to_N (take 32 bytes)) mod Fr.modulus)%Z)
              <$> outputs.
Proof.
  assert (H : (1 <= 3 < u32_modulus)%N) by (unfold u32_modulus; lia).
  refine (conj H _).
  destruct (poseidon_constants_stream toy_blake2b "poseidon_constants" 3 H)
    as (_ & _ & _ & Hlength & outputs & Hout).
  split; [exact Hlength|]. exists outputs. exact Hout.
Defined.

(** C5 with the byte oracle [toy_blake2b], [t = 2], [F = 4], [P = 1]. *)
Lemma poseidon_params_shape_witness :
  ((0 < 2)%N /\ (2 * 2 < u32_modulus)%N /\ (0 < 4 + 1 < u32_modulus)%N)
  /\ let K := poseidon_params toy_blake2b 2 4 1 in
     let c := poseidon_constants toy_blake2b "poseidon_matrix_0000" (2 * 2) in
     length c = N.to_nat (2 * 2)
     /\ length (M K) = N.to_nat (2 * 2)
     /\ (forall i j, i < N.to_nat 2 -> j < N.to_nat 2 ->
           exists c_i c_tj,
             c !! i = Some c_i /\ c !! (N.to_nat 2 + j) = Some c_tj
             /\ M K !! (i * N.to_nat 2 + j) = Some (Fr.inverse (Fr.sub c_i c_tj)))
     /\ length (C K) = N.to_nat (4 + 1).
Proof.
  assert (H1 : (0 < 2)%N) by lia.
  assert (H2 : (2 * 2 < u32_modulus)%N) by (unfold u32_modulus; lia).
  assert (H3 : (0 < 4 + 1 < u32_modulus)%N) by (unfold u32_modulus; lia).
  refine (conj (conj H1 (conj H2 H3)) _).
  exact (poseidon_params_shape toy_blake2b 2 4 1 H1 H2 H3).
Defined.

(** C6 at [Poseidon128<1,1>]: 3 prefix, 57 partial and 3 suffix rounds. *)
Lemma master_round_counts_witness :
  (4 <= 8 /\ 1 <= 57 /\ 1 <= 6 /\ 1 <= 6 /\ length (C consts128) = 8 + 57)
  /\ exists m pb',
       Master.ctor (Poseidon128 1 1 true) consts128 one_input_pb [1] = Ok (m, pb')
       /\ length (Master.prefix_full_rounds m) = 3
       /\ length (Master.partial_rounds m) = 57
       /\ length (Master.suffix_full_rounds m) = 3
       /\ length (Master.rounds m) = 65.
Proof.
  assert (H1 : 4 <= 8) by lia.
  assert (H2 : 1 <= 57) by lia.
  assert (H3 : 1 <= 6) by lia.
  assert (H4 : length (C consts128) = 8 + 57) by reflexivity.
  refine (conj (conj H1 (conj H2 (conj H3 (conj H3 H4)))) _).
  destruct (master_round_counts (Poseidon128 1 1 true) consts128 one_input_pb [1]
              H1 H2 H3 H3 H4)
    as (m & pb' & Hctor & Hprefix & Hpartial & Hsuffix & _ & Hrounds & _).
  exists m, pb'. repeat split; assumption.
Defined.

(** C9 at three rounds whose rows read within bounds: three inputs on
    width 2 with the [2*2] matrix, two outputs on width 1 with a matrix of
    two entries, and the partial round of [round_output_row_witness]. *)
Lemma round_ctor_assertions_witness :
  ((Poseidon_Round.reads_in_range wide_round [2; 3; 4; 9]%Z wide_state = true /\ 2 < 3)
   /\ Poseidon_Round.ctor wide_round wide_pb 3%Z [2; 3; 4; 9]%Z wide_state
      = AssertFail "nInputs <= param_t")
  /\ ((Poseidon_Round.reads_in_range tall_round [2; 3]%Z [lc_of_var 1] = true
       /\ 1 <= 1 /\ 1 < 2)
      /\ Poseidon_Round.ctor tall_round one_input_pb 3%Z [2; 3]%Z [lc_of_var 1]
         = AssertFail "nOutputs <= param_t")
  /\ ((Poseidon_Round.reads_in_range partial_round [2; 3; 4; 9]%Z partial_state = true
       /\ 2 <= 2)
      /\ exists r pb',
           Poseidon_Round.ctor partial_round two_vars_pb 3%Z [2; 3; 4; 9]%Z partial_state
           = Ok (r, pb')).
Proof.
  assert (H1 : Poseidon_Round.reads_in_range wide_round [2; 3; 4; 9]%Z wide_state = true)
    by reflexivity.
  assert (H2 : 2 < 3) by lia.
  assert (H3 : Poseidon_Round.reads_in_range tall_round [2; 3]%Z [lc_of_var 1] = true)
    by reflexivity.
  assert (H4 : 1 <= 1) by lia.
  assert (H5 : 1 < 2) by lia.
  assert (H6 : Poseidon_Round.reads_in_range partial_round [2; 3; 4; 9]%Z partial_state
               = true) by reflexivity.
  assert (H7 : 2 <= 2) by lia.
  split; [|split].
  - refine (conj (conj H1 H2) _).
    destruct (round_ctor_assertions wide_round wide_pb 3%Z [2; 3; 4; 9]%Z wide_state H1)
      as (Hinputs & _).
    exact (Hinputs H2).
  - refine (conj (conj H3 (conj H4 H5)) _).
    destruct (round_ctor_assertions tall_round one_input_pb 3%Z [2; 3]%Z [lc_of_var 1] H3)
      as (_ & Houtputs & _).
    exact (Houtputs H4 H5).
  - refine (conj (conj H6 H7) _).
    destruct (round_ctor_assertions partial_round two_vars_pb 3%Z [2; 3; 4; 9]%Z
                partial_state H6) as (_ & _ & Hok & _).
    exact (Hok H7 H7).
Defined.

(** C7 on the instance stamped on [user_pb]. *)
Lemma stamper_translate_witness :
  (Stamper.ctor (small 1 1 true) small_consts Stamper.initial_statics user_pb [1]
   = Ok (stamped_instance, stamped_statics, stamped_pb)
   /\ length [1] = 1)
  /\ Stamper.instance_variables_offset stamped_instance = 2
  /\ Stamper.instance_inputs stamped_instance = [1]
  /\ Stamper.translate stamped_instance 0 = 0
  /\ (forall k, 1 <= k <= 1 ->
        Stamper.instance_inputs stamped_instance !! (k - 1)
        = Some (Stamper.translate stamped_instance k))
  /\ (forall k, 1 < k -> Stamper.translate stamped_instance k = 2 + (k - 1 - 1)).
Proof.
  assert (H1 : Stamper.ctor (small 1 1 true) small_consts Stamper.initial_statics
                 user_pb [1]
               = Ok (stamped_instance, stamped_statics, stamped_pb))
    by (vm_compute; reflexivity).
  assert (H2 : length [1] = 1) by reflexivity.
  refine (conj (conj H1 H2) _).
  exact (stamper_translate (small 1 1 true) small_consts Stamper.initial_statics
           stamped_statics user_pb stamped_pb [1] stamped_instance H1 H2).
Defined.

(** C10 on the same instance: 28 fresh variables, no constraint. *)
Lemma stamper_ctor_allocation_witness :
  (Stamper.ctor (small 1 1 true) small_consts Stamper.initial_statics user_pb [1]
   = Ok (stamped_instance, stamped_statics, stamped_pb)
   /\ length [1] = 1)
  /\ num_variables stamped_pb = num_variables user_pb + 28
  /\ constraints stamped_pb = constraints user_pb.
Proof.
  assert (H1 : Stamper.ctor (small 1 1 true) small_consts Stamper.initial_statics
                 user_pb [1]
               = Ok (stamped_instance, stamped_statics, stamped_pb))
    by (vm_compute; reflexivity).
  assert (H2 : length [1] = 1) by reflexivity.
  refine (conj (conj H1 H2) _).
  destruct (stamper_ctor_allocation (small 1 1 true) small_consts
              Stamper.initial_statics stamped_statics user_pb stamped_pb [1]
              stamped_instance H1 H2) as (Hnv & _ & Hcs & _).
  split; [exact Hnv|exact Hcs].
Defined.

(** X1 on a table that holds [2, 4, 16, 32]: the result is [2^5]. *)
Lemma sbox_constraints_force_fifth_power_witness :
  Forall (fun e => exists k, e = Own k /\ is_satisfied sbox_table k)
         (drop (length (constraints empty_pb))
               (constraints (FifthPower_gadget.generate_r1cs_constraints
                               sbox_example empty_pb (lc_of_var 1))))
  /\ Fr.of_Z (val sbox_table (FifthPower_gadget.result sbox_example))
     = Fr.of_Z (lc_val sbox_table (lc_of_var 1) ^ 5).
Proof.
  assert (H : Forall (fun e => exists k, e = Own k /\ is_satisfied sbox_table k)
                (drop (length (constraints empty_pb))
                      (constraints (FifthPower_gadget.generate_r1cs_constraints
                                      sbox_example empty_pb (lc_of_var 1)))))
    by (apply entries_satisfiedb_spec; vm_compute; reflexivity).
  exact (conj H (sbox_constraints_force_fifth_power sbox_example empty_pb sbox_table
                   (lc_of_var 1) H)).
Defined.

(** X2 on the protoboard whose first variable holds [5]. *)
Lemma sbox_witness_satisfies_witness :
  lc_below (num_variables two_vars_pb) (lc_of_var 1)
  /\ let g := (FifthPower_gadget.ctor two_vars_pb).1 in
     let pb1 := (FifthPower_gadget.ctor two_vars_pb).2 in
     let pbc := FifthPower_gadget.generate_r1cs_constraints g pb1 (lc_of_var 1) in
     let pbw := FifthPower_gadget.generate_r1cs_witness g pbc (lc_val pbc (lc_of_var 1)) in
     Forall (fun e => exists k, e = Own k /\ is_satisfied pbw k)
            (drop (length (constraints pb1)) (constraints pbc))
     /\ val pbw (FifthPower_gadget.result g)
        = Fr.of_Z (lc_val two_vars_pb (lc_of_var 1) ^ 5)
     /\ num_variables pbw = num_variables two_vars_pb + 3
     /\ (forall v, v <= num_variables two_vars_pb -> val pbw v = val two_vars_pb v).
Proof.
  assert (H : lc_below (num_variables two_vars_pb) (lc_of_var 1))
    by (repeat constructor).
  exact (conj H (sbox_witness_satisfies two_vars_pb (lc_of_var 1) H)).
Defined.

(** X3 on the partial round of width 2: one S-box, three variables. *)
Lemma round_allocation_and_cost_witness :
  Poseidon_Round.ctor partial_round two_vars_pb 3%Z [2; 3; 4; 9]%Z partial_state
  = Ok (partial_built, partial_built_pb)
  /\ values partial_built_pb = values two_vars_pb ++ replicate 3 Fr.zero
  /\ length (Poseidon_Round.sboxes partial_built) = 1
  /\ length (constraints (Poseidon_Round.generate_r1cs_constraints partial_built
                            partial_built_pb))
     = length (constraints partial_built_pb) + 3.
Proof.
  assert (H : Poseidon_Round.ctor partial_round two_vars_pb 3%Z [2; 3; 4; 9]%Z
                partial_state = Ok (partial_built, partial_built_pb))
    by (vm_compute; reflexivity).
  refine (conj H _).
  destruct (round_allocation_and_cost partial_round two_vars_pb partial_built_pb
              partial_built_pb 3%Z [2; 3; 4; 9]%Z partial_state partial_built H)
    as (_ & _ & Hvalues & _ & Hsboxes & _ & _ & Hcount & _).
  split; [exact Hvalues|]. split; [exact Hsboxes|exact Hcount].
Defined.

(** X4 on the same round, under a table that holds the powers of [8]. *)
Lemma round_constraints_force_outputs_witness :
  (Poseidon_Round.ctor partial_round two_vars_pb 3%Z [2; 3; 4; 9]%Z partial_state
   = Ok (partial_built, partial_built_pb)
   /\ 1 <= 2
   /\ Forall (fun e => exists k, e = Own k /\ is_satisfied partial_table k)
             (drop (length (constraints partial_built_pb))
                   (constraints (Poseidon_Round.generate_r1cs_constraints partial_built
                                   partial_built_pb))))
  /\ lc_val partial_table <$> Poseidon_Round.outputs partial_built
     = Permutation.round_values partial_round 3%Z [2; 3; 4; 9]%Z
         (lc_val partial_table <$> partial_state).
Proof.
  assert (H1 : Poseidon_Round.ctor partial_round two_vars_pb 3%Z [2; 3; 4; 9]%Z
                 partial_state = Ok (partial_built, partial_built_pb))
    by (vm_compute; reflexivity).
  assert (H2 : 1 <= 2) by lia.
  assert (H3 : Forall (fun e => exists k, e = Own k /\ is_satisfied partial_table k)
                 (drop (length (constraints partial_built_pb))
                       (constraints (Poseidon_Round.generate_r1cs_constraints
                                       partial_built partial_built_pb))))
    by (apply entries_satisfiedb_spec; vm_compute; reflexivity).
  refine (conj (conj H1 (conj H2 H3)) _).
  exact (round_constraints_force_outputs partial_round two_vars_pb partial_built_pb
           partial_table 3%Z [2; 3; 4; 9]%Z partial_state partial_built H1 H2 H3).
Defined.

(** X5 on the same round: the witness on the constructed protoboard. *)
Lemma round_witness_computes_witness :
  (Poseidon_Round.ctor partial_round two_vars_pb 3%Z [2; 3; 4; 9]%Z partial_state
   = Ok (partial_built, partial_built_pb)
   /\ 1 <= 2
   /\ Forall (lc_below (num_variables two_vars_pb)) partial_state
   /\ num_variables partial_built_pb <= num_variables partial_built_pb)
  /\ let pbw := Poseidon_Round.generate_r1cs_witness partial_built partial_built_pb in
     lc_val pbw <$> Poseidon_Round.outputs partial_built
     = Permutation.round_values partial_round 3%Z [2; 3; 4; 9]%Z
         (lc_val partial_built_pb <$> partial_state)
     /\ same_shape partial_built_pb pbw.
Proof.
  assert (H1 : Poseidon_Round.ctor partial_round two_vars_pb 3%Z [2; 3; 4; 9]%Z
                 partial_state = Ok (partial_built, partial_built_pb))
    by (vm_compute; reflexivity).
  assert (H2 : 1 <= 2) by lia.
  assert (H3 : Forall (lc_below (num_variables two_vars_pb)) partial_state)
    by (repeat constructor).
  assert (H4 : num_variables partial_built_pb <= num_variables partial_built_pb) by lia.
  refine (conj (conj H1 (conj H2 (conj H3 H4))) _).
  destruct (round_witness_computes partial_round two_vars_pb partial_built_pb
              partial_built_pb 3%Z [2; 3; 4; 9]%Z partial_state partial_built
              H1 H2 H3 H4) as (_ & Hvalues & Hshape & _).
  split; [exact Hvalues|exact Hshape].
Defined.

(** X6 at the small parameter set: 27 S-box variables and one output
    variable, 28 constraints. *)
Lemma master_allocation_witness :
  (4 <= 4 /\ 1 <= 1 /\ 1 <= 2 /\ 1 <= 2 /\ length (C small_consts) = 4 + 1)
  /\ exists m pb',
       Master.ctor (small 1 1 true) small_consts one_input_pb [1] = Ok (m, pb')
       /\ values pb' = values one_input_pb ++ replicate (27 + 1) Fr.zero
       /\ Master._output_vars m = [29]
       /\ length (constraints (Master.generate_r1cs_constraints m one_input_pb))
          = length (constraints one_input_pb) + 27 + 1.
Proof.
  assert (H1 : 4 <= 4) by lia.
  assert (H2 : 1 <= 1) by lia.
  assert (H3 : 1 <= 2) by lia.
  assert (H4 : length (C small_consts) = 4 + 1) by reflexivity.
  refine (conj (conj H1 (conj H2 (conj H3 (conj H3 H4)))) _).
  destruct (master_allocation (small 1 1 true) small_consts one_input_pb one_input_pb [1]
              H1 H2 H3 H3 H4) as (m & pb' & Hctor & Hvalues & _ & Hvars & Hcount & _).
  exists m, pb'. split; [exact Hctor|]. split; [exact Hvalues|].
  split; [exact Hvars|exact Hcount].
Defined.

(** X7 with [F = 2]: there is no full prefix round. *)
Lemma master_ctor_back_of_empty_witness :
  (1 <= 2 /\ length (C two_full_rounds_consts) = 2 + 1
   /\ (2 <= 2 <= 3 \/ (4 <= 2 /\ 1 = 0)))
  /\ Master.ctor two_full_rounds two_full_rounds_consts one_input_pb [1] = Undefined.
Proof.
  assert (H1 : 1 <= 2) by lia.
  assert (H2 : length (C two_full_rounds_consts) = 2 + 1) by reflexivity.
  assert (H3 : 2 <= 2 <= 3 \/ (4 <= 2 /\ 1 = 0)) by (left; lia).
  refine (conj (conj H1 (conj H2 H3)) _).
  exact (master_ctor_back_of_empty two_full_rounds two_full_rounds_consts one_input_pb [1]
           H1 H2 H3).
Defined.

(** X8 at the small parameter set. *)
Lemma master_constraints_closed_witness :
  (4 <= 4 /\ 1 <= 1 /\ 1 <= 2 /\ 1 <= 2 /\ length (C small_consts) = 4 + 1
   /\ Forall (fun v => v <= num_variables one_input_pb) [1])
  /\ exists m pb',
       Master.ctor (small 1 1 true) small_consts one_input_pb [1] = Ok (m, pb')
       /\ Forall (fun e => exists k, e = Own k /\ constraint_below (num_variables pb') k)
                 (drop (length (constraints pb'))
                       (constraints (Master.generate_r1cs_constraints m pb'))).
Proof.
  assert (H1 : 4 <= 4) by lia.
  assert (H2 : 1 <= 1) by lia.
  assert (H3 : 1 <= 2) by lia.
  assert (H4 : length (C small_consts) = 4 + 1) by reflexivity.
  assert (H5 : Forall (fun v => v <= num_variables one_input_pb) [1])
    by (repeat constructor).
  refine (conj (conj H1 (conj H2 (conj H3 (conj H3 (conj H4 H5))))) _).
  exact (master_constraints_closed (small 1 1 true) small_consts one_input_pb [1]
           H1 H2 H3 H3 H4 H5).
Defined.

(** X9 at the small parameter set, on the table whose input holds [5]. *)
Lemma master_witness_frame_witness :
  (4 <= 4 /\ 1 <= 1 /\ 1 <= 2 /\ 1 <= 2 /\ length (C small_consts) = 4 + 1
   /\ Forall (fun v => v <= num_variables one_input_pb) [1])
  /\ same_shape (mk_pb (5%Z :: replicate 28 0%Z) []) small_table
  /\ val small_table 1 = 5%Z.
Proof.
  assert (H1 : 4 <= 4) by lia.
  assert (H2 : 1 <= 1) by lia.
  assert (H3 : 1 <= 2) by lia.
  assert (H4 : length (C small_consts) = 4 + 1) by reflexivity.
  assert (H5 : Forall (fun v => v <= num_variables one_input_pb) [1])
    by (repeat constructor).
  refine (conj (conj H1 (conj H2 (conj H3 (conj H3 (conj H4 H5))))) _).
  destruct (master_witness_frame (small 1 1 true) small_consts one_input_pb
              (mk_pb (5%Z :: replicate 28 0%Z) []) [1] H1 H2 H3 H3 H4 H5)
    as (m & pb' & Hctor & Hframe).
  assert (Hbuilt : Master.ctor (small 1 1 true) small_consts one_input_pb [1]
                   = Ok (small_master, small_master_pb)) by (vm_compute; reflexivity).
  rewrite Hbuilt in Hctor. injection Hctor as <- <-.
  assert (Hroom : num_variables small_master_pb
                  <= num_variables (mk_pb (5%Z :: replicate 28 0%Z) []))
    by (vm_compute; lia).
  destruct (Hframe Hroom) as [Hshape Hvals].
  split; [exact Hshape|]. exact (Hvals 1 (or_introl (le_n 1))).
Defined.

(** X10 at the small parameter set, under the table the witness leaves for
    the input [5]: the table satisfies the 28 constraints, and its output
    variable holds the permutation of [5]. *)
Lemma master_constraints_force_permutation_witness :
  (4 <= 4 /\ 1 <= 1 /\ 1 <= 2 /\ 1 <= 2 /\ 1 <= 2 /\ length (C small_consts) = 4 + 1)
  /\ exists m pb',
       Master.ctor (small 1 1 true) small_consts one_input_pb [1] = Ok (m, pb')
       /\ Forall (fun e => exists k, e = Own k /\ is_satisfied small_table k)
                 (drop (length (constraints pb'))
                       (constraints (Master.generate_r1cs_constraints m pb')))
       /\ (fun v => Fr.of_Z (val small_table v)) <$> Master._output_vars m
          = Permutation.permutation (small 1 1 true) small_consts (val small_table <$> [1]).
Proof.
  assert (H1 : 4 <= 4) by lia.
  assert (H2 : 1 <= 1) by lia.
  assert (H3 : 1 <= 2) by lia.
  assert (H4 : length (C small_consts) = 4 + 1) by reflexivity.
  refine (conj (conj H1 (conj H2 (conj H3 (conj H3 (conj H3 H4))))) _).
  destruct (master_constraints_force_permutation (small 1 1 true) small_consts
              one_input_pb small_table [1] H1 H2 H3 H3 H3 H4)
    as (m & pb' & Hctor & Hforce).
  assert (Hbuilt : Master.ctor (small 1 1 true) small_consts one_input_pb [1]
                   = Ok (small_master, small_master_pb)) by (vm_compute; reflexivity).
  exists m, pb'. split; [exact Hctor|].
  rewrite Hbuilt in Hctor. injection Hctor as <- <-.
  assert (Hsat : Forall (fun e => exists k, e = Own k /\ is_satisfied small_table k)
                   (drop (length (constraints small_master_pb))
                         (constraints (Master.generate_r1cs_constraints small_master
                                         small_master_pb))))
    by (apply entries_satisfiedb_spec; vm_compute; reflexivity).
  split; [exact Hsat|].
  destruct (Hforce Hsat) as (_ & _ & Hvars). exact (Hvars eq_refl).
Defined.

(** X11 at the small parameter set, input [5]. *)
Lemma master_witness_computes_permutation_witness :
  (4 <= 4 /\ 1 <= 1 /\ 1 <= 2 /\ 1 <= 2 /\ 1 <= 2 /\ length (C small_consts) = 4 + 1
   /\ Forall (fun v => v <= num_variables one_input_pb) [1])
  /\ val small_table <$> Master._output_vars small_master
     = Permutation.permutation (small 1 1 true) small_consts [5%Z].
Proof.
  assert (H1 : 4 <= 4) by lia.
  assert (H2 : 1 <= 1) by lia.
  assert (H3 : 1 <= 2) by lia.
  assert (H4 : length (C small_consts) = 4 + 1) by reflexivity.
  assert (H5 : Forall (fun v => v <= num_variables one_input_pb) [1])
    by (repeat constructor).
  refine (conj (conj H1 (conj H2 (conj H3 (conj H3 (conj H3 (conj H4 H5)))))) _).
  destruct (master_witness_computes_permutation (small 1 1 true) small_consts one_input_pb
              (mk_pb (5%Z :: replicate 28 0%Z) []) [1] H1 H2 H3 H3 H3 H4 H5)
    as (m & pb' & Hctor & Hvalues).
  assert (Hbuilt : Master.ctor (small 1 1 true) small_consts one_input_pb [1]
                   = Ok (small_master, small_master_pb)) by (vm_compute; reflexivity).
  rewrite Hbuilt in Hctor. injection Hctor as <- <-.
  assert (Hroom : num_variables small_master_pb
                  <= num_variables (mk_pb (5%Z :: replicate 28 0%Z) []))
    by (vm_compute; lia).
  destruct (Hvalues Hroom) as [_ Hvars]. exact (Hvars eq_refl).
Defined.

(** X14 with the byte oracle [toy_blake2b]: two constants out of five. *)
Lemma poseidon_constants_prefix_witness :
  ((1 <= 2)%N /\ (2 <= 5)%N /\ (5 < u32_modulus)%N)
  /\ poseidon_constants toy_blake2b "poseidon_constants" 2
     = take (N.to_nat 2) (poseidon_constants toy_blake2b "poseidon_constants" 5).
Proof.
  assert (H1 : (1 <= 2)%N) by lia.
  assert (H2 : (2 <= 5)%N) by lia.
  assert (H3 : (5 < u32_modulus)%N) by (unfold u32_modulus; lia).
  refine (conj (conj H1 (conj H2 H3)) _).
  exact (poseidon_constants_prefix toy_blake2b "poseidon_constants" 2 5 H1 H2 H3).
Defined.

(** X15 with the byte oracle [toy_blake2b], at the small parameter set. *)
Lemma master_ctor_with_generated_tables_witness :
  ((2 * N.of_nat 2 < u32_modulus)%N /\ (N.of_nat (4 + 1) < u32_modulus)%N
   /\ 4 <= 4 /\ 1 <= 1 /\ 1 <= 2 /\ 1 <= 2)
  /\ length (C (poseidon_params toy_blake2b 2 4 1)) = 4 + 1
  /\ length (M (poseidon_params toy_blake2b 2 4 1)) = 2 * 2
  /\ exists m pb',
       Master.ctor (small 1 1 true) (poseidon_params toy_blake2b 2 4 1) one_input_pb [1]
       = Ok (m, pb').
Proof.
  assert (H1 : (2 * N.of_nat 2 < u32_modulus)%N) by (unfold u32_modulus; lia).
  assert (H2 : (N.of_nat (4 + 1) < u32_modulus)%N) by (unfold u32_modulus; lia).
  assert (H3 : 4 <= 4) by lia.
  assert (H4 : 1 <= 1) by lia.
  assert (H5 : 1 <= 2) by lia.
  refine (conj (conj H1 (conj H2 (conj H3 (conj H4 (conj H5 H5))))) _).
  exact (master_ctor_with_generated_tables toy_blake2b (small 1 1 true) one_input_pb [1]
           H1 H2 H3 H4 H5 H5).
Defined.

(** X17 at the small parameter set without constrained outputs. *)
Lemma stamper_ctor_without_output_variable_witness :
  (4 <= 4 /\ 1 <= 1 /\ 1 <= 2 /\ 1 <= 2 /\ length (C small_consts) = 4 + 1
   /\ length [1] = 1
   /\ (Master.constrainOutputs (small 1 1 false) = false
       \/ Master.nOutputs (small 1 1 false) = 0))
  /\ Stamper.ctor (small 1 1 false) small_consts Stamper.initial_statics user_pb [1]
     = Undefined.
Proof.
  assert (H1 : 4 <= 4) by lia.
  assert (H2 : 1 <= 1) by lia.
  assert (H3 : 1 <= 2) by lia.
  assert (H4 : length (C small_consts) = 4 + 1) by reflexivity.
  assert (H5 : length [1] = 1) by reflexivity.
  assert (H6 : Master.constrainOutputs (small 1 1 false) = false
               \/ Master.nOutputs (small 1 1 false) = 0) by (left; reflexivity).
  refine (conj (conj H1 (conj H2 (conj H3 (conj H3 (conj H4 (conj H5 H6)))))) _).
  exact (stamper_ctor_without_output_variable (small 1 1 false) small_consts user_pb [1]
           H1 H2 H3 H3 H4 H5 H6).
Defined.

(** X18 on the instance stamped on [user_pb]: master variables 1 and 2 go to
    different variables of the caller. *)
Lemma stamper_translate_injective_witness :
  (Stamper.ctor (small 1 1 true) small_consts Stamper.initial_statics user_pb [1]
   = Ok (stamped_instance, stamped_statics, stamped_pb)
   /\ NoDup [1]
   /\ Forall (fun v => 1 <= v <= num_variables user_pb) [1])
  /\ Stamper.translate stamped_instance 1 <> Stamper.translate stamped_instance 2.
Proof.
  assert (H1 : Stamper.ctor (small 1 1 true) small_consts Stamper.initial_statics
                 user_pb [1]
               = Ok (stamped_instance, stamped_statics, stamped_pb))
    by (vm_compute; reflexivity).
  assert (H2 : NoDup [1]) by apply NoDup_singleton.
  assert (H3 : Forall (fun v => 1 <= v <= num_variables user_pb) [1])
    by (repeat constructor).
  refine (conj (conj H1 (conj H2 H3)) _).
  intros Heq.
  pose proof (stamper_translate_injective (small 1 1 true) small_consts
                Stamper.initial_statics stamped_statics user_pb stamped_pb [1]
                stamped_instance 1 2 H1 H2 H3 Heq) as H12.
  discriminate H12.
Defined.

(** X19 on the same instance: the caller's table through [translate] is the
    master's table, on all 29 variables. *)
Lemma stamper_witness_copies_master_witness :
  (4 <= 4 /\ 1 <= 1 /\ 1 <= 2 /\ 1 <= 2 /\ length (C small_consts) = 4 + 1
   /\ (Stamper.initial_statics = Stamper.initial_statics
       \/ Stamping.master_ready (small 1 1 true) small_consts Stamper.initial_statics)
   /\ Stamper.ctor (small 1 1 true) small_consts Stamper.initial_statics user_pb [1]
      = Ok (stamped_instance, stamped_statics, stamped_pb)
   /\ length [1] = 1
   /\ Forall (fun v => v <= num_variables user_pb) [1]
   /\ Stamping.master_ready (small 1 1 true) small_consts stamped_statics
   /\ num_variables stamped_pb <= num_variables stamped_pb)
  /\ let st' := (Stamper.generate_r1cs_witness stamped_instance stamped_statics
                   stamped_pb).1 in
     let pbu' := (Stamper.generate_r1cs_witness stamped_instance stamped_statics
                    stamped_pb).2 in
     same_shape stamped_pb pbu'
     /\ (forall k, k <= num_variables (Stamper.master_pb st') ->
                   val pbu' (Stamper.translate stamped_instance k)
                   = val (Stamper.master_pb st') k).
Proof.
  assert (H1 : 4 <= 4) by lia.
  assert (H2 : 1 <= 1) by lia.
  assert (H3 : 1 <= 2) by lia.
  assert (H4 : length (C small_consts) = 4 + 1) by reflexivity.
  assert (H5 : Stamper.initial_statics = Stamper.initial_statics
               \/ Stamping.master_ready (small 1 1 true) small_consts
                    Stamper.initial_statics) by (left; reflexivity).
  assert (H6 : Stamper.ctor (small 1 1 true) small_consts Stamper.initial_statics
                 user_pb [1]
               = Ok (stamped_instance, stamped_statics, stamped_pb))
    by (vm_compute; reflexivity).
  assert (H7 : length [1] = 1) by reflexivity.
  assert (H8 : Forall (fun v => v <= num_variables user_pb) [1]) by (repeat constructor).
  assert (H9 : Stamping.master_ready (small 1 1 true) small_consts stamped_statics).
  { exists (Stamper.master stamped_instance), stamped_statics.
    repeat split; vm_compute; reflexivity. }
  assert (H10 : num_variables stamped_pb <= num_variables stamped_pb) by lia.
  refine (conj (conj H1 (conj H2 (conj H3 (conj H3 (conj H4 (conj H5 (conj H6
            (conj H7 (conj H8 (conj H9 H10)))))))))) _).
  destruct (stamper_witness_copies_master (small 1 1 true) small_consts
              Stamper.initial_statics stamped_statics stamped_statics user_pb stamped_pb
              stamped_pb [1] stamped_instance H1 H2 H3 H3 H4 H5 H6 H7 H8 H9 H10)
    as (_ & Hshape & _ & Hcopy).
  split; [exact Hshape|exact Hcopy].
Defined.

(** X20 on the same instance: the 28 light instances hold. *)
Lemma stamper_witness_sound_witness :
  (4 <= 4 /\ 1 <= 1 /\ 1 <= 2 /\ 1 <= 2 /\ length (C small_consts) = 4 + 1
   /\ (Stamper.initial_statics = Stamper.initial_statics
       \/ Stamping.master_ready (small 1 1 true) small_consts Stamper.initial_statics)
   /\ Stamper.ctor (small 1 1 true) small_consts Stamper.initial_statics user_pb [1]
      = Ok (stamped_instance, stamped_statics, stamped_pb)
   /\ length [1] = 1
   /\ Forall (fun v => v <= num_variables user_pb) [1]
   /\ Stamping.master_ready (small 1 1 true) small_consts stamped_statics
   /\ num_variables stamped_pb <= num_variables stamped_pb)
  /\ let pbc := Stamper.generate_r1cs_constraints stamped_instance stamped_statics
                  stamped_pb in
     let st' := (Stamper.generate_r1cs_witness stamped_instance stamped_statics
                   stamped_pb).1 in
     let pbu' := (Stamper.generate_r1cs_witness stamped_instance stamped_statics
                    stamped_pb).2 in
     length (drop (length (constraints stamped_pb)) (constraints pbc)) = 28
     /\ Forall (Stamping.entry_satisfied (Stamper.master_pb st') pbu')
               (drop (length (constraints stamped_pb)) (constraints pbc)).
Proof.
  assert (H1 : 4 <= 4) by lia.
  assert (H2 : 1 <= 1) by lia.
  assert (H3 : 1 <= 2) by lia.
  assert (H4 : length (C small_consts) = 4 + 1) by reflexivity.
  assert (H5 : Stamper.initial_statics = Stamper.initial_statics
               \/ Stamping.master_ready (small 1 1 true) small_consts
                    Stamper.initial_statics) by (left; reflexivity).
  assert (H6 : Stamper.ctor (small 1 1 true) small_consts Stamper.initial_statics
                 user_pb [1]
               = Ok (stamped_instance, stamped_statics, stamped_pb))
    by (vm_compute; reflexivity).
  assert (H7 : length [1] = 1) by reflexivity.
  assert (H8 : Forall (fun v => v <= num_variables user_pb) [1]) by (repeat constructor).
  assert (H9 : Stamping.master_ready (small 1 1 true) small_consts stamped_statics).
  { exists (Stamper.master stamped_instance), stamped_statics.
    repeat split; vm_compute; reflexivity. }
  assert (H10 : num_variables stamped_pb <= num_variables stamped_pb) by lia.
  refine (conj (conj H1 (conj H2 (conj H3 (conj H3 (conj H4 (conj H5 (conj H6
            (conj H7 (conj H8 (conj H9 H10)))))))))) _).
  destruct (stamper_witness_sound (small 1 1 true) small_consts
              Stamper.initial_statics stamped_statics stamped_statics user_pb stamped_pb
              stamped_pb stamped_pb [1] stamped_instance
              H1 H2 H3 H3 H4 H5 H6 H7 H8 H9 H10)
    as (_ & Hentries & Hsat).
  split; [|exact Hsat].
  rewrite Hentries, length_fmap, length_seq. vm_compute. reflexivity.
Defined.

(** X21 on the same instance: [result()] holds the permutation of [5]. *)
Lemma stamper_result_is_permutation_witness :
  (4 <= 4 /\ 1 <= 1 /\ 1 <= 2 /\ 1 <= 2 /\ 1 <= 2 /\ length (C small_consts) = 4 + 1
   /\ (Stamper.initial_statics = Stamper.initial_statics
       \/ Stamping.master_ready (small 1 1 true) small_consts Stamper.initial_statics)
   /\ Stamper.ctor (small 1 1 true) small_consts Stamper.initial_statics user_pb [1]
      = Ok (stamped_instance, stamped_statics, stamped_pb)
   /\ length [1] = 1
   /\ Forall (fun v => v <= num_variables user_pb) [1]
   /\ Stamping.master_ready (small 1 1 true) small_consts stamped_statics
   /\ num_variables stamped_pb <= num_variables stamped_pb)
  /\ let pbu' := (Stamper.generate_r1cs_witness stamped_instance stamped_statics
                    stamped_pb).2 in
     Permutation.permutation (small 1 1 true) small_consts (val stamped_pb <$> [1]) !! 0
     = Some (val pbu' (Stamper.result stamped_instance)).
Proof.
  assert (H1 : 4 <= 4) by lia.
  assert (H2 : 1 <= 1) by lia.
  assert (H3 : 1 <= 2) by lia.
  assert (H4 : length (C small_consts) = 4 + 1) by reflexivity.
  assert (H5 : Stamper.initial_statics = Stamper.initial_statics
               \/ Stamping.master_ready (small 1 1 true) small_consts
                    Stamper.initial_statics) by (left; reflexivity).
  assert (H6 : Stamper.ctor (small 1 1 true) small_consts Stamper.initial_statics
                 user_pb [1]
               = Ok (stamped_instance, stamped_statics, stamped_pb))
    by (vm_compute; reflexivity).
  assert (H7 : length [1] = 1) by reflexivity.
  assert (H8 : Forall (fun v => v <= num_variables user_pb) [1]) by (repeat constructor).
  assert (H9 : Stamping.master_ready (small 1 1 true) small_consts stamped_statics).
  { exists (Stamper.master stamped_instance), stamped_statics.
    repeat split; vm_compute; reflexivity. }
  assert (H10 : num_variables stamped_pb <= num_variables stamped_pb) by lia.
  refine (conj (conj H1 (conj H2 (conj H3 (conj H3 (conj H3 (conj H4 (conj H5 (conj H6
            (conj H7 (conj H8 (conj H9 H10))))))))))) _).
  destruct (stamper_result_is_permutation (small 1 1 true) small_consts
              Stamper.initial_statics stamped_statics stamped_statics user_pb stamped_pb
              stamped_pb [1] stamped_instance
              H1 H2 H3 H3 H3 H4 H5 H6 H7 H8 H9 H10)
    as (_ & Hresult).
  exact Hresult.
Defined.

(** X23 on the same instance: 28 variables, 28 entries, result 29. *)
Lemma stamper_instance_cost_witness :
  (4 <= 4 /\ 1 <= 1 /\ 1 <= 2 /\ 1 <= 2 /\ length (C small_consts) = 4 + 1
   /\ (Stamper.initial_statics = Stamper.initial_statics
       \/ Stamping.master_ready (small 1 1 true) small_consts Stamper.initial_statics)
   /\ Stamper.ctor (small 1 1 true) small_consts Stamper.initial_statics user_pb [1]
      = Ok (stamped_instance, stamped_statics, stamped_pb)
   /\ length [1] = 1)
  /\ num_variables stamped_pb = num_variables user_pb + 27 + 1
  /\ length (constraints (Stamper.generate_r1cs_constraints stamped_instance
                            stamped_statics stamped_pb))
     = length (constraints stamped_pb) + 27 + 1
  /\ Stamper.result stamped_instance = num_variables user_pb + 27 + 1.
Proof.
  assert (H1 : 4 <= 4) by lia.
  assert (H2 : 1 <= 1) by lia.
  assert (H3 : 1 <= 2) by lia.
  assert (H4 : length (C small_consts) = 4 + 1) by reflexivity.
  assert (H5 : Stamper.initial_statics = Stamper.initial_statics
               \/ Stamping.master_ready (small 1 1 true) small_consts
                    Stamper.initial_statics) by (left; reflexivity).
  assert (H6 : Stamper.ctor (small 1 1 true) small_consts Stamper.initial_statics
                 user_pb [1]
               = Ok (stamped_instance, stamped_statics, stamped_pb))
    by (vm_compute; reflexivity).
  assert (H7 : length [1] = 1) by reflexivity.
  refine (conj (conj H1 (conj H2 (conj H3 (conj H3 (conj H4 (conj H5 (conj H6 H7)))))))
               _).
  destruct (stamper_instance_cost (small 1 1 true) small_consts Stamper.initial_statics
              stamped_statics user_pb stamped_pb stamped_pb [1] stamped_instance
              H1 H2 H3 H3 H4 H5 H6 H7) as (_ & _ & Hnv & _ & Hcount & Hresult).
  split; [exact Hnv|]. split; [exact Hcount|exact Hresult].
Defined.

(** X24 on two instances, the second fed the result of the first: the
    second result is the permutation of the permutation of [5]. *)
Lemma stamper_instances_compose_witness :
  (4 <= 4 /\ 1 <= 1 /\ 1 <= 2 /\ 1 <= 2 /\ 1 <= 2 /\ length (C small_consts) = 4 + 1
   /\ Stamper.ctor (small 1 1 true) small_consts Stamper.initial_statics user_pb [1]
      = Ok (stamped_instance, stamped_statics, stamped_pb)
   /\ Stamper.ctor (small 1 1 true) small_consts stamped_statics stamped_pb
        [Stamper.result stamped_instance]
      = Ok (chained_instance, chained_statics, chained_pb)
   /\ length [1] = 1
   /\ length [Stamper.result stamped_instance] = 1
   /\ Forall (fun v => v <= num_variables user_pb) [1]
   /\ Forall (fun v => v <= num_variables stamped_pb) [Stamper.result stamped_instance]
   /\ num_variables chained_pb <= num_variables chained_pb)
  /\ let r1 := Stamper.generate_r1cs_witness stamped_instance chained_statics chained_pb in
     let r2 := Stamper.generate_r1cs_witness chained_instance r1.1 r1.2 in
     Permutation.permutation (small 1 1 true) small_consts (val chained_pb <$> [1]) !! 0
     = Some (val r2.2 (Stamper.result stamped_instance))
     /\ Permutation.permutation (small 1 1 true) small_consts
          [val r2.2 (Stamper.result stamped_instance)] !! 0
        = Some (val r2.2 (Stamper.result chained_instance)).
Proof.
  assert (H1 : 4 <= 4) by lia.
  assert (H2 : 1 <= 1) by lia.
  assert (H3 : 1 <= 2) by lia.
  assert (H4 : length (C small_consts) = 4 + 1) by reflexivity.
  assert (H5 : Stamper.ctor (small 1 1 true) small_consts Stamper.initial_statics
                 user_pb [1]
               = Ok (stamped_instance, stamped_statics, stamped_pb))
    by (vm_compute; reflexivity).
  assert (H6 : Stamper.ctor (small 1 1 true) small_consts stamped_statics stamped_pb
                 [Stamper.result stamped_instance]
               = Ok (chained_instance, chained_statics, chained_pb))
    by (vm_compute; reflexivity).
  assert (H7 : length [1] = 1) by reflexivity.
  assert (H8 : length [Stamper.result stamped_instance] = 1) by reflexivity.
  assert (H9 : Forall (fun v => v <= num_variables user_pb) [1]) by (repeat constructor).
  assert (H10 : Forall (fun v => v <= num_variables stamped_pb)
                       [Stamper.result stamped_instance])
    by (vm_compute; repeat constructor).
  assert (H11 : num_variables chained_pb <= num_variables chained_pb) by lia.
  refine (conj (conj H1 (conj H2 (conj H3 (conj H3 (conj H3 (conj H4 (conj H5 (conj H6
            (conj H7 (conj H8 (conj H9 (conj H10 H11)))))))))))) _).
  destruct (stamper_instances_compose (small 1 1 true) small_consts stamped_statics
              chained_statics user_pb stamped_pb chained_pb chained_pb [1]
              [Stamper.result stamped_instance] stamped_instance chained_instance
              H1 H2 H3 H3 H3 H4 H5 H6 H7 H8 H9 H10 H11)
    as (Hfirst & _ & _ & Hchain).
  split; [exact Hfirst|exact (Hchain eq_refl)].
Defined.

End Witnesses.

(** * Where the specification and the code part *)

Section Counterexamples.

Import Examples.

(** C6: [Poseidon128<1,1>] has [F/2 = 4], but the gadget owns 3 full
    suffix rounds; with 4 of them the rounds would number [F + P + 1]. *)
Lemma master_suffix_rounds_counterexample :
  exists m pb',
    Master.ctor (Poseidon128 1 1 true) consts128 one_input_pb [1] = Ok (m, pb')
    /\ length (Master.suffix_full_rounds m) = 3
    /\ length (Master.suffix_full_rounds m)
       <> Master.param_F (Poseidon128 1 1 true) / 2
    /\ 1 + (8 / 2 - 1) + 57 + 8 / 2 + 1 <> 8 + 57.
Proof.
  eexists _, _. split; [apply Master_ctor_spec; cbn; try lia; reflexivity|].
  assert (Hsuffix : length (Master.suffix_full_rounds
                              (Master.layout (Poseidon128 1 1 true) consts128
                                 (num_variables one_input_pb) [1])) = 3)
    by (cbn [Master.layout Master.suffix_full_rounds];
        rewrite rounds_from_length; reflexivity).
  split; [exact Hsuffix|]. rewrite Hsuffix. split; discriminate.
Qed.

(** C8: [generate_r1cs_witness] of a stamped instance writes the caller's
    input, [5], into slot 1 of the master protoboard, which held [0]. *)
Lemma stamper_witness_writes_master :
  let st' := (Stamper.generate_r1cs_witness stamped_instance stamped_statics
                stamped_pb).1 in
  Stamper.master_ptr stamped_statics = Some (Stamper.master stamped_instance)
  /\ val (Stamper.master_pb stamped_statics) 1 = 0%Z
  /\ val (Stamper.master_pb st') 1 = 5%Z
  /\ Stamper.master_pb st' <> Stamper.master_pb stamped_statics.
Proof.
  cbv zeta.
  assert (H0 : val (Stamper.master_pb stamped_statics) 1 = 0%Z)
    by (vm_compute; reflexivity).
  assert (H5 : val (Stamper.master_pb
                      (Stamper.generate_r1cs_witness stamped_instance stamped_statics
                         stamped_pb).1) 1 = 5%Z)
    by (vm_compute; reflexivity).
  split; [vm_compute; reflexivity|]. split; [exact H0|]. split; [exact H5|].
  intros Heq. rewrite Heq, H0 in H5. discriminate H5.
Qed.

(** C9: with [F = 5], an odd number, the constructor does not stop. *)
Lemma master_ctor_odd_F_counterexample :
  Nat.odd (Master.param_F odd_F) = true
  /\ exists m pb', Master.ctor odd_F odd_F_consts one_input_pb [1] = Ok (m, pb').
Proof.
  split; [reflexivity|].
  eexists _, _. apply Master_ctor_spec; cbn; try lia; reflexivity.
Qed.

End Counterexamples.
